(** * GPflow conditionals: a shallow embedding of [gpflow/conditionals/util.py]

    The Python module computes Gaussian-process conditionals with dense
    TensorFlow tensors.  The embedding has three layers:

    - scalars: an abstract type [F] with the arithmetic the code uses
      (addition, subtraction, multiplication, division, square root);
      theorems that need algebraic laws state them as hypotheses, so they
      hold for every scalar type satisfying the laws, and closed examples
      are evaluated over the rationals [Qc];
    - tensors: a shape together with an index function, and the TensorFlow
      operations the module calls ([Module tf]), each returning an
      exception when TensorFlow would reject the shapes;
    - the routines of [util.py], transcribed statement by statement in the
      exception monad. *)

From Stdlib Require Import String.
From Stdlib Require Import QArith Qcanon.
From Stdlib Require Import List Arith Lia Bool ZArith.
Import ListNotations.

Local Open Scope nat_scope.
Local Open Scope list_scope.
Local Open Scope bool_scope.

Set Implicit Arguments.

(** ** Scalars *)

Class Scalar (F : Type) : Type := {
  s0 : F;
  s1 : F;
  sadd : F -> F -> F;
  ssub : F -> F -> F;
  smul : F -> F -> F;
  sdiv : F -> F -> F;
  ssqrt : F -> F
}.

(** ** Exceptions and the result monad *)

Inductive exn : Type :=
| ValueError (msg : string) (ndims : nat)
| NotImplementedError (msg : string)
| IndexError
| UnpackError
| InvalidArgument (op : string).

Inductive result (A : Type) : Type :=
| Ok (a : A)
| Raise (e : exn).

Arguments Ok {A} a.
Arguments Raise {A} e.

Definition bind {A B : Type} (r : result A) (k : A -> result B) : result B :=
  match r with
  | Ok a => k a
  | Raise e => Raise e
  end.

Notation "x <- r ;; k" := (bind r (fun x => k))
  (at level 61, r at next level, right associativity).

Notation "' pat <- r ;; k" := (bind r (fun pat => k))
  (at level 61, pat pattern, r at next level, right associativity).

Definition is_ok {A : Type} (r : result A) : bool :=
  match r with Ok _ => true | Raise _ => false end.

(** ** Shapes and indices *)

Definition prod (s : list nat) : nat := fold_right Nat.mul 1 s.

Fixpoint list_eqb (a b : list nat) : bool :=
  match a, b with
  | [], [] => true
  | x :: a', y :: b' => (x =? y) && list_eqb a' b'
  | _, _ => false
  end.

(** Row-major flat offset of a multi-index, and its inverse. *)
Fixpoint ravel_acc (acc : nat) (s idx : list nat) : nat :=
  match s, idx with
  | d :: s', i :: idx' => ravel_acc (acc * d + i) s' idx'
  | _, _ => acc
  end.

Definition ravel (s idx : list nat) : nat := ravel_acc 0 s idx.

Fixpoint unravel (s : list nat) (k : nat) : list nat :=
  match s with
  | [] => []
  | d :: s' => (k / prod s') :: unravel s' (k mod prod s')
  end.

(** [in_range s idx]: [idx] addresses an element of a tensor of shape [s]. *)
Definition in_range (s idx : list nat) : Prop := Forall2 lt idx s.

Fixpoint in_rangeb (s idx : list nat) : bool :=
  match s, idx with
  | [], [] => true
  | d :: s', i :: idx' => (i <? d) && in_rangeb s' idx'
  | _, _ => false
  end.

(** All indices of a shape, in row-major order. *)
Fixpoint all_indices (s : list nat) : list (list nat) :=
  match s with
  | [] => [[]]
  | d :: s' => flat_map (fun i => map (cons i) (all_indices s')) (seq 0 d)
  end.

(** Broadcasting (NumPy rules): shapes are aligned on the right, a
    dimension of size 1 is stretched. *)
Definition pad (n : nat) (s : list nat) : list nat :=
  repeat 1 (n - length s) ++ s.

Fixpoint zip_dims (a b : list nat) : option (list nat) :=
  match a, b with
  | [], [] => Some []
  | x :: a', y :: b' =>
      match zip_dims a' b' with
      | Some r =>
          if x =? y then Some (x :: r)
          else if x =? 1 then Some (y :: r)
          else if y =? 1 then Some (x :: r)
          else None
      | None => None
      end
  | _, _ => None
  end.

Definition broadcast_shapes (a b : list nat) : option (list nat) :=
  let n := Nat.max (length a) (length b) in
  zip_dims (pad n a) (pad n b).

(** Index into an operand of shape [s] from an index of the broadcast
    result: leading axes the operand lacks are dropped and stretched axes
    are read at 0. *)
Fixpoint clamp (s idx : list nat) : list nat :=
  match s, idx with
  | d :: s', i :: idx' => (if d =? 1 then 0 else i) :: clamp s' idx'
  | _, _ => []
  end.

Definition bidx (s idx : list nat) : list nat :=
  clamp s (skipn (length idx - length s) idx).

(** Splitting an index into its batch part and its last two components. *)
Definition batch (s : list nat) : list nat := firstn (length s - 2) s.
Definition row_of (s : list nat) : nat := nth (length s - 2) s 0.
Definition col_of (s : list nat) : nat := nth (length s - 1) s 0.

(** Python's axis conventions: a negative axis counts from the end. *)
Definition norm_axis (bound : nat) (axis : Z) : option nat :=
  if (axis <? 0)%Z
  then if (- axis <=? Z.of_nat bound)%Z
       then Some (Z.to_nat (Z.of_nat bound + axis)) else None
  else if (axis <? Z.of_nat bound)%Z then Some (Z.to_nat axis) else None.

Fixpoint find_pos (k : nat) (l : list nat) : option nat :=
  match l with
  | [] => None
  | x :: l' => if x =? k then Some 0 else option_map S (find_pos k l')
  end.

(** [assemble ks axes c idx]: the index whose component at each axis of
    [axes] is taken from [c] and whose remaining components are [idx], in
    order. *)
Fixpoint assemble (ks axes c idx : list nat) : list nat :=
  match ks with
  | [] => []
  | k :: ks' =>
      match find_pos k axes with
      | Some p => nth p c 0 :: assemble ks' axes c idx
      | None => hd 0 idx :: assemble ks' axes c (tl idx)
      end
  end.

Definition free_axes (r : nat) (axes : list nat) : list nat :=
  filter (fun k => negb (existsb (Nat.eqb k) axes)) (seq 0 r).

Definition is_perm (r : nat) (perm : list nat) : bool :=
  (length perm =? r) && forallb (fun k => existsb (Nat.eqb k) perm) (seq 0 r).

(** ** Tensors *)

(** A dense tensor: its static shape and its elements, addressed by
    multi-index.  Only the values at indices in range of the shape are
    meaningful. *)
Record tensor (F : Type) : Type := mkT {
  shape : list nat;
  data : list nat -> F
}.

Arguments mkT {F} shape data.

Definition rank {F : Type} (t : tensor F) : nat := length (shape t).

(** Equality of tensors as arrays: same shape, same elements. *)
Definition teq {F : Type} (a b : tensor F) : Prop :=
  shape a = shape b /\
  forall idx, in_range (shape a) idx -> data a idx = data b idx.

(** A tensor from its row-major element list, and back. *)
Definition of_list {F : Type} (dflt : F) (s : list nat) (l : list F) : tensor F :=
  mkT s (fun idx => nth (ravel s idx) l dflt).

Definition to_list {F : Type} (t : tensor F) : list F :=
  map (data t) (all_indices (shape t)).

(** Python's [t.shape[i]] for a non-negative [i], and [t.shape[-1]]. *)
Definition shape_at {F : Type} (t : tensor F) (i : nat) : result nat :=
  match nth_error (shape t) i with
  | Some d => Ok d
  | None => Raise IndexError
  end.

Definition shape_last {F : Type} (t : tensor F) : result nat :=
  match rank t with
  | 0 => Raise IndexError
  | S r => Ok (nth r (shape t) 0)
  end.

(** ** The TensorFlow operations used by the module

    The linear-algebra operations follow the TensorFlow 1.x API the module
    is written against (it still calls [tf.matrix_band_part]): operands of
    [matmul] and [triangular_solve] must have the same rank and the same
    batch dimensions; elementwise arithmetic broadcasts. *)

Module tf.
Section Ops.

Context {F : Type} {SF : Scalar F}.

Fixpoint big_sum (n : nat) (f : nat -> F) : F :=
  match n with
  | 0 => s0
  | S k => sadd (big_sum k f) (f k)
  end.

Fixpoint sum_idx (dims : list nat) (f : list nat -> F) : F :=
  match dims with
  | [] => f []
  | d :: ds => big_sum d (fun i => sum_idx ds (fun r => f (i :: r)))
  end.

(** Elementwise binary operations with broadcasting: [x + y], [x - y],
    [x * y]. *)
Definition binop (name : string) (f : F -> F -> F) (a b : tensor F)
  : result (tensor F) :=
  match broadcast_shapes (shape a) (shape b) with
  | Some s =>
      Ok (mkT s (fun idx =>
                   f (data a (bidx (shape a) idx)) (data b (bidx (shape b) idx))))
  | None => Raise (InvalidArgument name)
  end.

Definition add := binop "add" sadd.
Definition sub := binop "sub" ssub.
Definition mul := binop "mul" smul.

(** [tf.square(x)], also written [x ** 2]. *)
Definition square (a : tensor F) : tensor F :=
  mkT (shape a) (fun idx => smul (data a idx) (data a idx)).

(** [tf.broadcast_to(x, shape)]. *)
Definition broadcast_to (a : tensor F) (s : list nat) : result (tensor F) :=
  match broadcast_shapes (shape a) s with
  | Some s' =>
      if list_eqb s' s
      then Ok (mkT s (fun idx => data a (bidx (shape a) idx)))
      else Raise (InvalidArgument "broadcast_to")
  | None => Raise (InvalidArgument "broadcast_to")
  end.

(** [tf.expand_dims(x, axis)]. *)
Definition expand_dims (a : tensor F) (axis : Z) : result (tensor F) :=
  match norm_axis (S (rank a)) axis with
  | Some p =>
      Ok (mkT (firstn p (shape a) ++ 1 :: skipn p (shape a))
              (fun idx => data a (firstn p idx ++ skipn (S p) idx)))
  | None => Raise (InvalidArgument "expand_dims")
  end.

(** [x[None, ...]]: a new leading axis of size 1. *)
Definition newaxis0 (a : tensor F) : tensor F :=
  mkT (1 :: shape a) (fun idx => data a (tl idx)).

(** [x[None, :, :, :, :]]: as [newaxis0], with [n] explicit slices, which
    TensorFlow rejects on a tensor of rank below [n]. *)
Definition newaxis0_slices (n : nat) (a : tensor F) : result (tensor F) :=
  if n <=? rank a then Ok (newaxis0 a)
  else Raise (InvalidArgument "strided_slice").

(** [x[..., None]]: a new trailing axis of size 1. *)
Definition newaxis_last (a : tensor F) : tensor F :=
  mkT (shape a ++ [1]) (fun idx => data a (firstn (length idx - 1) idx)).

(** [x[0, ...]]: the first slice along the leading axis. *)
Definition index0 (a : tensor F) : result (tensor F) :=
  match shape a with
  | S _ :: s => Ok (mkT s (fun idx => data a (0 :: idx)))
  | _ => Raise (InvalidArgument "strided_slice")
  end.

(** [tf.transpose(x, perm)]: axis [i] of the result is axis [perm[i]] of
    [x]. *)
Definition transpose (a : tensor F) (perm : list nat) : result (tensor F) :=
  if is_perm (rank a) perm
  then Ok (mkT (map (fun p => nth p (shape a) 0) perm)
               (fun idx => data a (assemble (seq 0 (rank a)) perm idx [])))
  else Raise (InvalidArgument "transpose").

(** [tf.transpose(x)]: all axes reversed. *)
Definition transpose_all (a : tensor F) : result (tensor F) :=
  transpose a (rev (seq 0 (rank a))).

(** [tf.linalg.transpose(x)]: the last two axes swapped. *)
Definition linalg_transpose (a : tensor F) : result (tensor F) :=
  if 2 <=? rank a
  then Ok (mkT (batch (shape a) ++ [col_of (shape a); row_of (shape a)])
               (fun idx => data a (batch idx ++ [col_of idx; row_of idx])))
  else Raise (InvalidArgument "matrix_transpose").

(** [tf.reshape(x, shape)]: same elements in row-major order. *)
Definition reshape (a : tensor F) (s : list nat) : result (tensor F) :=
  if prod (shape a) =? prod s
  then Ok (mkT s (fun idx => data a (unravel (shape a) (ravel s idx))))
  else Raise (InvalidArgument "reshape").

(** [tf.reduce_sum(x, axis)] for one integer axis. *)
Definition reduce_sum (a : tensor F) (axis : Z) : result (tensor F) :=
  match norm_axis (rank a) axis with
  | Some p =>
      Ok (mkT (firstn p (shape a) ++ skipn (S p) (shape a))
              (fun idx => big_sum (nth p (shape a) 0)
                            (fun c => data a (firstn p idx ++ c :: skipn p idx))))
  | None => Raise (InvalidArgument "reduce_sum")
  end.

(** [tf.reduce_sum(x, [0, 1])]: the two leading axes summed out. *)
Definition reduce_sum_01 (a : tensor F) : result (tensor F) :=
  match shape a with
  | d0 :: d1 :: s =>
      Ok (mkT s (fun idx => sum_idx [d0; d1] (fun c => data a (c ++ idx))))
  | _ => Raise (InvalidArgument "reduce_sum")
  end.

(** [tf.matmul(a, b, transpose_a, transpose_b)]: batched product over the
    last two axes. *)
Definition matmul (a b : tensor F) (transpose_a transpose_b : bool)
  : result (tensor F) :=
  let sa := shape a in
  let sb := shape b in
  let m := if transpose_a then col_of sa else row_of sa in
  let k := if transpose_a then row_of sa else col_of sa in
  let k' := if transpose_b then col_of sb else row_of sb in
  let n := if transpose_b then row_of sb else col_of sb in
  if (2 <=? rank a) && (rank a =? rank b)
     && list_eqb (batch sa) (batch sb) && (k =? k')
  then Ok (mkT (batch sa ++ [m; n])
               (fun idx =>
                  let bi := batch idx in
                  let i := row_of idx in
                  let j := col_of idx in
                  big_sum k (fun c =>
                    smul (data a (bi ++ (if transpose_a then [c; i] else [i; c])))
                         (data b (bi ++ (if transpose_b then [j; c] else [c; j]))))))
  else Raise (InvalidArgument "matmul").

(** [tf.tensordot(a, b, [axes_a, axes_b])]: the listed axes are contracted
    pairwise; the result has the free axes of [a] followed by those of
    [b]. *)
Definition tensordot (a b : tensor F) (axes_a axes_b : list nat)
  : result (tensor F) :=
  let dims_a := map (fun k => nth k (shape a) 0) axes_a in
  let dims_b := map (fun k => nth k (shape b) 0) axes_b in
  let fa := free_axes (rank a) axes_a in
  let fb := free_axes (rank b) axes_b in
  if forallb (fun k => k <? rank a) axes_a
     && forallb (fun k => k <? rank b) axes_b
     && list_eqb dims_a dims_b
  then Ok (mkT (map (fun k => nth k (shape a) 0) fa
                  ++ map (fun k => nth k (shape b) 0) fb)
               (fun idx =>
                  sum_idx dims_a (fun c =>
                    smul (data a (assemble (seq 0 (rank a)) axes_a c
                                    (firstn (length fa) idx)))
                         (data b (assemble (seq 0 (rank b)) axes_b c
                                    (skipn (length fa) idx))))))
  else Raise (InvalidArgument "tensordot").

(** [tf.tile(x, multiples)]. *)
Definition tile (a : tensor F) (multiples : list nat) : result (tensor F) :=
  if length multiples =? rank a
  then Ok (mkT (map (fun p => fst p * snd p) (combine (shape a) multiples))
               (fun idx => data a (map (fun p => fst p mod snd p)
                                        (combine idx (shape a)))))
  else Raise (InvalidArgument "tile").

(** [tf.linalg.diag(x)]: the last axis becomes the diagonal of a square
    matrix, zero elsewhere. *)
Definition diag (a : tensor F) : result (tensor F) :=
  match rank a with
  | 0 => Raise (InvalidArgument "matrix_diag")
  | S r =>
      Ok (mkT (shape a ++ [nth r (shape a) 0])
              (fun idx =>
                 if row_of idx =? col_of idx
                 then data a (batch idx ++ [row_of idx])
                 else s0))
  end.

(** [tf.matrix_band_part(x, num_lower, num_upper)]: entries outside the
    band are set to zero; a negative bound keeps the whole triangle. *)
Definition in_band (num_lower num_upper : Z) (i j : nat) : bool :=
  (((num_lower <? 0) || (Z.of_nat i - Z.of_nat j <=? num_lower))
   && ((num_upper <? 0) || (Z.of_nat j - Z.of_nat i <=? num_upper)))%Z.

Definition matrix_band_part (a : tensor F) (num_lower num_upper : Z)
  : result (tensor F) :=
  if 2 <=? rank a
  then Ok (mkT (shape a)
               (fun idx =>
                  if in_band num_lower num_upper (row_of idx) (col_of idx)
                  then data a idx else s0))
  else Raise (InvalidArgument "matrix_band_part").

(** *** Cholesky factorisation and triangular solves

    The kernels are the textbook algorithms.  [chol_rows a k] are the first
    [k] rows of the lower-triangular factor of [a] (Cholesky-Banachiewicz);
    only the lower triangle of [a] is read. *)

Definition entry (rows : list (list F)) (i j : nat) : F :=
  nth j (nth i rows []) s0.

Fixpoint chol_row (a : nat -> nat -> F) (rows : list (list F)) (i j : nat)
  : list F :=
  match j with
  | 0 => []
  | S j' =>
      let r := chol_row a rows i j' in
      r ++ [sdiv (ssub (a i j')
                       (big_sum j' (fun c => smul (nth c r s0) (entry rows j' c))))
                 (entry rows j' j')]
  end.

Fixpoint chol_rows (a : nat -> nat -> F) (k : nat) : list (list F) :=
  match k with
  | 0 => []
  | S i =>
      let rows := chol_rows a i in
      let r := chol_row a rows i i in
      rows ++ [r ++ [ssqrt (ssub (a i i)
                                 (big_sum i (fun c => smul (nth c r s0) (nth c r s0))))]]
  end.

Definition chol_mat (n : nat) (a : nat -> nat -> F) (i j : nat) : F :=
  if j <=? i then entry (chol_rows a n) i j else s0.

(** Forward substitution: the first [k] components of the solution of
    [l x = b] for lower-triangular [l]. *)
Fixpoint fwd_sub (l : nat -> nat -> F) (b : nat -> F) (k : nat) : list F :=
  match k with
  | 0 => []
  | S i =>
      let xs := fwd_sub l b i in
      xs ++ [sdiv (ssub (b i) (big_sum i (fun c => smul (l i c) (nth c xs s0))))
                  (l i i)]
  end.

(** Back substitution for upper-triangular [u]: forward substitution on the
    system with rows and columns reversed. *)
Definition solve_mat (lower : bool) (n : nat) (m : nat -> nat -> F)
  (b : nat -> F) (i : nat) : F :=
  if lower
  then nth i (fwd_sub m b n) s0
  else nth (n - 1 - i)
           (fwd_sub (fun r c => m (n - 1 - r) (n - 1 - c))
                    (fun r => b (n - 1 - r)) n) s0.

(** [tf.linalg.cholesky(x)], batched over the leading axes. *)
Definition cholesky (a : tensor F) : result (tensor F) :=
  if (2 <=? rank a) && (row_of (shape a) =? col_of (shape a))
  then Ok (mkT (shape a)
               (fun idx =>
                  chol_mat (row_of (shape a))
                           (fun i j => data a (batch idx ++ [i; j]))
                           (row_of idx) (col_of idx)))
  else Raise (InvalidArgument "cholesky").

(** [tf.linalg.triangular_solve(matrix, rhs, lower)]: solves
    [matrix x = rhs] column by column, batched. *)
Definition triangular_solve (matrix rhs : tensor F) (lower : bool)
  : result (tensor F) :=
  let sm := shape matrix in
  let sr := shape rhs in
  if (2 <=? rank matrix) && (rank matrix =? rank rhs)
     && list_eqb (batch sm) (batch sr)
     && (row_of sm =? col_of sm) && (row_of sm =? row_of sr)
  then Ok (mkT sr
               (fun idx =>
                  solve_mat lower (row_of sm)
                            (fun i j => data matrix (batch idx ++ [i; j]))
                            (fun i => data rhs (batch idx ++ [i; col_of idx]))
                            (row_of idx)))
  else Raise (InvalidArgument "triangular_solve").

(** [tf.sqrt(x)]. *)
Definition sqrt (a : tensor F) : tensor F :=
  mkT (shape a) (fun idx => ssqrt (data a idx)).

(** [tf.eye(n)]: the identity matrix. *)
Definition eye (n : nat) : tensor F :=
  mkT [n; n] (fun idx => if row_of idx =? col_of idx then s1 else s0).

(** [x * c] for a Python number [c]. *)
Definition scale (a : tensor F) (c : F) : tensor F :=
  mkT (shape a) (fun idx => smul (data a idx) c).

(** [x[..., 0]]: the first slice along the last axis. *)
Definition index_last0 (a : tensor F) : result (tensor F) :=
  match rank a with
  | 0 => Raise (InvalidArgument "strided_slice")
  | S r =>
      if 0 <? nth r (shape a) 0
      then Ok (mkT (firstn r (shape a)) (fun idx => data a (idx ++ [0])))
      else Raise (InvalidArgument "strided_slice")
  end.

End Ops.
End tf.

(** ** The routines of [gpflow/conditionals/util.py] *)

Section Conditionals.

Context {F : Type} {SF : Scalar F}.

(** Python's tuple unpacking [a, b, c = [t.shape[i] for i in range(ndims)]]. *)
Definition unpack3 (s : list nat) : result (nat * nat * nat) :=
  match s with
  | [a; b; c] => Ok (a, b, c)
  | _ => Raise UnpackError
  end.

Definition unpack4 (s : list nat) : result (nat * nat * nat * nat) :=
  match s with
  | [a; b; c; d] => Ok (a, b, c, d)
  | _ => Raise UnpackError
  end.

Definition bad_q_sqrt (ndims : nat) : exn :=
  ValueError "Bad dimension for q_sqrt: " ndims.

(** [base_conditional(Kmn, Kmm, Knn, function, *, full_cov, q_sqrt, white)],
    lines 10-94. *)
Definition base_conditional (Kmn Kmm Knn function : tensor F)
  (full_cov : bool) (q_sqrt : option (tensor F)) (white : bool)
  : result (tensor F * tensor F) :=
  num_func <- shape_at function 1 ;;
  N <- shape_last Kmn ;;
  M <- shape_at function 0 ;;
  let Kmn_rank := rank Kmn in
  let leading_indices := seq 1 (Kmn_rank - 1 - 1) in
  let permute_indices := leading_indices ++ [0] ++ [Kmn_rank - 1] in
  Kmn <- tf.transpose Kmn permute_indices ;;
  let leading_dims := batch (shape Kmn) in
  Lm <- tf.cholesky Kmm ;;
  Lm <- tf.broadcast_to Lm (leading_dims ++ shape Lm) ;;
  A <- tf.triangular_solve Lm Kmn true ;;
  fvar <- (if full_cov
           then
             AtA <- tf.matmul A A true false ;;
             fvar <- tf.sub Knn AtA ;;
             let cov_shape := leading_dims ++ [num_func; N; N] in
             e <- tf.expand_dims fvar (-3) ;;
             tf.broadcast_to e cov_shape
           else
             ssq <- tf.reduce_sum (tf.square A) (-2) ;;
             fvar <- tf.sub Knn ssq ;;
             let cov_shape := leading_dims ++ [num_func; N] in
             e <- tf.expand_dims fvar (-2) ;;
             tf.broadcast_to e cov_shape) ;;
  A <- (if negb white
        then
          Lt <- tf.linalg_transpose Lm ;;
          tf.triangular_solve Lt A false
        else Ok A) ;;
  let f_shape := leading_dims ++ [M; num_func] in
  function <- tf.broadcast_to function f_shape ;;
  fmean <- tf.matmul A function true false ;;
  fvar <- match q_sqrt with
          | Some q_sqrt =>
              let q_sqrt_dims := rank q_sqrt in
              LTA <- (if q_sqrt_dims =? 2
                      then
                        qt <- tf.transpose_all q_sqrt ;;
                        e <- tf.expand_dims qt 2 ;;
                        tf.mul A e
                      else if q_sqrt_dims =? 3
                      then
                        let L := q_sqrt in
                        L <- tf.broadcast_to L (leading_dims ++ shape L) ;;
                        let shp := leading_dims ++ [num_func; M; N] in
                        e <- tf.expand_dims A (-3) ;;
                        A <- tf.broadcast_to e shp ;;
                        tf.matmul L A true false
                      else Raise (bad_q_sqrt q_sqrt_dims)) ;;
              if full_cov
              then
                c <- tf.matmul LTA LTA true false ;;
                tf.add fvar c
              else
                c <- tf.reduce_sum (tf.square LTA) (-2) ;;
                tf.add fvar c
          | None => Ok fvar
          end ;;
  fvar <- (if negb full_cov then tf.linalg_transpose fvar else Ok fvar) ;;
  Ok (fmean, fvar).

(** [sample_mvn(mean, cov, cov_structure)], lines 97-117.  The two values
    the routine takes from outside are arguments here: [noise] gives the
    elements of the standard-normal draw [tf.random_normal(mean.shape)],
    whose shape is that of [mean], and [jitter] is the number returned by
    [default_jitter()]. *)
Definition sample_mvn (mean cov : tensor F) (cov_structure : string)
  (noise : list nat -> F) (jitter : F) : result (tensor F) :=
  let eps := mkT (shape mean) noise in
  if String.eqb cov_structure "diag"
  then
    se <- tf.mul (tf.sqrt cov) eps ;;
    sample <- tf.add mean se ;;
    Ok sample
  else if String.eqb cov_structure "full"
  then
    D <- shape_at mean 1 ;;
    cov <- tf.add cov (tf.newaxis0 (tf.scale (tf.eye D) jitter)) ;;
    chol <- tf.cholesky cov ;;
    p <- tf.matmul chol (tf.newaxis_last eps) false false ;;
    p0 <- tf.index_last0 p ;;
    tf.add mean p0
  else Raise (NotImplementedError EmptyString).

(** [expand_independent_outputs(fvar, full_cov, full_output_cov)],
    lines 120-145. *)
Definition expand_independent_outputs (fvar : tensor F)
  (full_cov full_output_cov : bool) : result (tensor F) :=
  fvar <- (if full_cov && full_output_cov
           then
             t <- tf.transpose_all fvar ;;
             fvar <- tf.diag t ;;
             tf.transpose fvar [0; 2; 1; 3]
           else Ok fvar) ;;
  fvar <- (if negb full_cov && full_output_cov
           then tf.diag fvar
           else Ok fvar) ;;
  Ok fvar.

(** [independent_interdomain_conditional(Kmn, Kmm, Knn, f, *, full_cov,
    full_output_cov, q_sqrt, white)], lines 148-213. *)
Definition independent_interdomain_conditional (Kmn Kmm Knn f : tensor F)
  (full_cov full_output_cov : bool) (q_sqrt : option (tensor F)) (white : bool)
  : result (tensor F * tensor F) :=
  '(M, L, N, P) <- unpack4 (shape Kmn) ;;
  Lm <- tf.cholesky Kmm ;;
  Kt <- tf.transpose Kmn [1; 0; 2; 3] ;;
  Kmn <- tf.reshape Kt [L; M; N * P] ;;
  A <- tf.triangular_solve Lm Kmn true ;;
  Ar <- tf.reshape A [L; M; N; P] ;;
  fvar <- match full_cov, full_output_cov with
          | true, true =>
              t <- tf.tensordot Ar Ar [0; 1] [0; 1] ;;
              tf.sub Knn t
          | true, false =>
              tr <- tf.transpose_all Ar ;;
              At <- tf.reshape tr [P; N; M * L] ;;
              t <- tf.matmul At At false true ;;
              tf.sub Knn t
          | false, true =>
              tr <- tf.transpose Ar [2; 3; 1; 0] ;;
              At <- tf.reshape tr [N; P; M * L] ;;
              t <- tf.matmul At At false true ;;
              tf.sub Knn t
          | false, false =>
              ssq <- tf.reduce_sum_01 (tf.square A) ;;
              t <- tf.reshape ssq [N; P] ;;
              tf.sub Knn t
          end ;;
  '(A, Ar) <- (if negb white
               then
                 A <- tf.triangular_solve Lm Ar true ;;
                 Ar <- tf.reshape A [L; M; N; P] ;;
                 Ok (A, Ar)
               else Ok (A, Ar)) ;;
  fmean <- tf.tensordot Ar f [1; 0] [0; 1] ;;
  fvar <- match q_sqrt with
          | Some q_sqrt =>
              LTA <- (if rank q_sqrt =? 3
                      then
                        Lf <- tf.matrix_band_part q_sqrt (-1) 0 ;;
                        tf.matmul Lf A true false
                      else
                        qt <- tf.transpose_all q_sqrt ;;
                        tf.mul A (tf.newaxis_last qt)) ;;
              match full_cov, full_output_cov with
              | true, true =>
                  LTAr <- tf.reshape LTA [L * M; N * P] ;;
                  t <- tf.matmul LTAr LTAr true false ;;
                  c <- tf.reshape t [N; P; N; P] ;;
                  tf.add fvar c
              | true, false =>
                  r <- tf.reshape LTA [L * M; N; P] ;;
                  LTAr <- tf.transpose r [2; 0; 1] ;;
                  c <- tf.matmul LTAr LTAr true false ;;
                  tf.add fvar c
              | false, true =>
                  r <- tf.reshape LTA [L * M; N; P] ;;
                  LTAr <- tf.transpose r [1; 0; 2] ;;
                  c <- tf.matmul LTAr LTAr true false ;;
                  tf.add fvar c
              | false, false =>
                  ssq <- tf.reduce_sum_01 (tf.square LTA) ;;
                  c <- tf.reshape ssq [N; P] ;;
                  tf.add fvar c
              end
          | None => Ok fvar
          end ;;
  Ok (fmean, fvar).

(** [fully_correlated_conditional_repeat(Kmn, Kmm, Knn, f, *, full_cov,
    full_output_cov, q_sqrt, white)], lines 237-316. *)
Definition fully_correlated_conditional_repeat (Kmn Kmm Knn f : tensor F)
  (full_cov full_output_cov : bool) (q_sqrt : option (tensor F)) (white : bool)
  : result (tensor F * tensor F) :=
  R <- shape_at f 1 ;;
  '(M, N, K) <- unpack3 (shape Kmn) ;;
  Lm <- tf.cholesky Kmm ;;
  Kmn <- tf.reshape Kmn [M; N * K] ;;
  A <- tf.triangular_solve Lm Kmn true ;;
  Ar <- tf.reshape A [M; N; K] ;;
  fvar <- match full_cov, full_output_cov with
          | true, true =>
              t <- tf.tensordot Ar Ar [0] [0] ;;
              tf.sub Knn t
          | true, false =>
              At <- tf.transpose_all Ar ;;
              t <- tf.matmul At At false true ;;
              tf.sub Knn t
          | false, true =>
              At <- tf.transpose Ar [1; 0; 2] ;;
              t <- tf.matmul At At true false ;;
              tf.sub Knn t
          | false, false =>
              ssq <- tf.reduce_sum_01 (tf.square A) ;;
              t <- tf.reshape ssq [N; K] ;;
              tf.sub Knn t
          end ;;
  _ <- (if negb white
        then Raise (NotImplementedError "Need to verify this.")
        else Ok tt) ;;
  fm <- tf.matmul f A true false ;;
  fmean <- tf.reshape fm [R; N; K] ;;
  fvar <- match q_sqrt with
          | Some q_sqrt =>
              Lf <- tf.matrix_band_part q_sqrt (-1) 0 ;;
              LTA <- (if rank q_sqrt =? 3
                      then
                        An <- tf.newaxis0_slices 2 A ;;
                        A_tiled <- tf.tile An [R; 1; 1] ;;
                        tf.matmul Lf A_tiled true false
                      else if rank q_sqrt =? 2
                      then Raise (NotImplementedError
                                    "Does not support diagonal q_sqrt yet...")
                      else Raise (bad_q_sqrt (rank q_sqrt))) ;;
              match full_cov, full_output_cov with
              | true, true =>
                  addvar <- tf.matmul LTA LTA true false ;;
                  fv <- tf.newaxis0_slices 4 fvar ;;
                  c <- tf.reshape addvar [R; N; K; N; K] ;;
                  tf.add fv c
              | true, false =>
                  r <- tf.reshape LTA [R; M; N; K] ;;
                  LTAr <- tf.transpose r [0; 3; 1; 2] ;;
                  addvar <- tf.matmul LTAr LTAr true false ;;
                  tf.add (tf.newaxis0 fvar) addvar
              | false, true =>
                  r <- tf.reshape LTA [R; M; N; K] ;;
                  LTAr <- tf.transpose r [0; 2; 3; 1] ;;
                  c <- tf.matmul LTAr LTAr false true ;;
                  tf.add (tf.newaxis0 fvar) c
              | false, false =>
                  ssq <- tf.reduce_sum (tf.square LTA) 1 ;;
                  addvar <- tf.reshape ssq [R; N; K] ;;
                  tf.add (tf.newaxis0 fvar) addvar
              end
          | None => Ok fvar
          end ;;
  Ok (fmean, fvar).

(** [fully_correlated_conditional(...)], lines 216-234: the repeated
    routine, then [m[0, ...], v[0, ...]]. *)
Definition fully_correlated_conditional (Kmn Kmm Knn f : tensor F)
  (full_cov full_output_cov : bool) (q_sqrt : option (tensor F)) (white : bool)
  : result (tensor F * tensor F) :=
  '(m, v) <- fully_correlated_conditional_repeat Kmn Kmm Knn f
               full_cov full_output_cov q_sqrt white ;;
  m0 <- tf.index0 m ;;
  v0 <- tf.index0 v ;;
  Ok (m0, v0).

End Conditionals.

(** ** A concrete scalar type: the rationals

    Closed examples are evaluated over [Qc].  The square root is exact on
    squares of rationals, which is all the examples below take roots of. *)

Definition Qc_sqrt (q : Qc) : Qc :=
  Q2Qc (Z.sqrt (Qnum q) # Pos.sqrt (Qden q)).

#[export] Instance Qc_scalar : Scalar Qc := {|
  s0 := 0%Qc;
  s1 := 1%Qc;
  sadd := Qcplus;
  ssub := Qcminus;
  smul := Qcmult;
  sdiv := Qcdiv;
  ssqrt := Qc_sqrt
|}.

(** Tensors of integers, as rationals. *)
Definition qt (s : list nat) (l : list Z) : tensor Qc :=
  of_list 0%Qc s (map (fun z => Q2Qc (inject_Z z)) l).

(** The numerators and denominators of a tensor's elements, for
    comparison by computation. *)
Definition view (t : tensor Qc) : list nat * list (Z * positive) :=
  (shape t, map (fun q => (Qnum (this q), Qden (this q))) (to_list t)).

Definition view2 (r : result (tensor Qc * tensor Qc))
  : result ((list nat * list (Z * positive)) * (list nat * list (Z * positive))) :=
  '(m, v) <- r ;; Ok (view m, view v).

Definition shapes2 {F : Type} (r : result (tensor F * tensor F))
  : result (list nat * list nat) :=
  '(m, v) <- r ;; Ok (shape m, shape v).

Definition fvar_of {F : Type} (r : result (tensor F * tensor F))
  : option (tensor F) :=
  match r with
  | Ok (_, v) => Some v
  | Raise _ => None
  end.

Definition fmean_of {F : Type} (r : result (tensor F * tensor F))
  : option (tensor F) :=
  match r with
  | Ok (m, _) => Some m
  | Raise _ => None
  end.

(** Two rank-3 factors that agree on and below the diagonal of every
    matrix slice. *)
Definition agree_on_lower_triangle {F : Type} (q q' : tensor F) : Prop :=
  shape q = shape q' /\
  forall idx, in_range (shape q) idx ->
              col_of idx <= row_of idx -> data q idx = data q' idx.

(** ** Example inputs *)

Module Ex.

(** Single-output inputs: M = 2 inducing points, N = 3 query points. *)
Definition Kmm : tensor Qc := qt [2; 2] [4; 2; 2; 5]%Z.
Definition Imm : tensor Qc := qt [2; 2] [1; 0; 0; 1]%Z.
Definition Kmn : tensor Qc := qt [2; 3] [1; 2; 3; 4; 5; 6]%Z.
Definition Knn_diag : tensor Qc := qt [3] [100; 100; 100]%Z.
Definition Knn_full : tensor Qc :=
  qt [3; 3] [100; 1; 2; 1; 100; 3; 2; 3; 100]%Z.
Definition f1 : tensor Qc := qt [2; 1] [1; 0]%Z.

(** The same data laid out for the interdomain routine with L = 1, P = 1. *)
Definition Kmm_L : tensor Qc := qt [1; 2; 2] [4; 2; 2; 5]%Z.
Definition Kmn_MLNP : tensor Qc := qt [2; 1; 3; 1] [1; 2; 3; 4; 5; 6]%Z.
Definition Knn_NP : tensor Qc := qt [3; 1] [100; 100; 100]%Z.
Definition Knn_PNN : tensor Qc :=
  qt [1; 3; 3] [100; 1; 2; 1; 100; 3; 2; 3; 100]%Z.
(** A lower-triangular [q_sqrt] for one replica. *)
Definition q_tril : tensor Qc := qt [1; 2; 2] [1; 0; 2; 3]%Z.

(** Fully correlated inputs: LM = 2, N = 3, P = 2, and R = 2 replicas. *)
Definition Kmn_fc : tensor Qc :=
  qt [2; 3; 2] [1; 2; 3; 4; 5; 6; 7; 8; 9; 10; 11; 12]%Z.
Definition f2 : tensor Qc := qt [2; 2] [1; 0; 0; 1]%Z.
(** The single-output data as LM x N x P with P = 1. *)
Definition Kmn_MLNP_fc : tensor Qc := qt [2; 3; 1] [1; 2; 3; 4; 5; 6]%Z.
Definition ones (s : list nat) : tensor Qc := qt s (repeat 1%Z (prod s)).
Definition q_sqrt_R2 : tensor Qc :=
  qt [2; 2; 2] [1; 0; 2; 1; 1; 0; 0; 3]%Z.

(** Two factors that differ only above the diagonal. *)
Definition q_lower : tensor Qc := qt [1; 2; 2] [1; 0; 0; 1]%Z.
Definition q_upper : tensor Qc := qt [1; 2; 2] [1; 1; 0; 1]%Z.

(** A rank-1 [q_sqrt]. *)
Definition q_rank1 : tensor Qc := qt [2] [1; 2]%Z.

(** A diagonal [q_sqrt], M x R with R = 1. *)
Definition q_diag : tensor Qc := qt [2; 1] [1; 2]%Z.

(** Inputs of [sample_mvn]: N = 2 points in D = 2 dimensions, and a draw. *)
Definition mu : tensor Qc := qt [2; 2] [1; 2; 3; 4]%Z.
Definition var_diag : tensor Qc := qt [2; 2] [4; 9; 16; 25]%Z.
Definition cov_full : tensor Qc := qt [2; 2; 2] [4; 2; 2; 5; 9; 3; 3; 5]%Z.
Definition draw : list nat -> Qc := data (qt [2; 2] [1; -1; 2; 0]%Z).

End Ex.


(** ** Notions used in the statements *)

Section Notions.

Context {F : Type} {SF : Scalar F}.

(** The projection matrix [A] of [base_conditional] as it stands after
    line 52: [Kmn] with its leading axes moved to the front, solved against
    the broadcast Cholesky factor of [Kmm]. *)
Definition base_projection (Kmn Kmm : tensor F) : result (tensor F) :=
  let Kmn_rank := rank Kmn in
  Kt <- tf.transpose Kmn (seq 1 (Kmn_rank - 1 - 1) ++ [0] ++ [Kmn_rank - 1]) ;;
  Lm <- tf.cholesky Kmm ;;
  Lm <- tf.broadcast_to Lm (batch (shape Kt) ++ shape Lm) ;;
  tf.triangular_solve Lm Kt true.

(** Every matrix slice over the last two axes is symmetric. *)
Definition symmetric_slices (t : tensor F) : Prop :=
  forall pre i j, in_range (shape t) (pre ++ [i; j]) ->
                  data t (pre ++ [i; j]) = data t (pre ++ [j; i]).

(** The shapes the docstring of [base_conditional] gives for [q_sqrt]:
    [R, M, M], or the diagonal form [M, R] (without leading axes on
    [Kmn]). *)
Definition q_sqrt_documented (lead : list nat) (M R : nat)
  (q_sqrt : option (tensor F)) : Prop :=
  match q_sqrt with
  | None => True
  | Some q => shape q = [R; M; M] \/ (shape q = [M; R] /\ lead = [])
  end.

(** One entry of the projection matrix from first principles: row [m] of
    the solution of [L x = kmn] with [L] the Cholesky factor of [kmm]. *)
Definition projection_entry (kmm : nat -> nat -> F) (kmn : nat -> F)
  (M m : nat) : F :=
  tf.solve_mat true M (tf.chol_mat M kmm) kmn m.

(** The entry [c, n] of [q_sqrt^T A] for replica [r] and batch index [b],
    as [base_conditional] forms it: a scaling for the diagonal (rank-2)
    factor, a matrix product for the full (rank-3) one. *)
Definition base_lta (A q : tensor F) (M : nat) (b : list nat) (r c n : nat)
  : F :=
  if rank q =? 2
  then smul (data A (b ++ [c; n])) (data q [c; r])
  else tf.big_sum M (fun k => smul (data q [r; k; c]) (data A (b ++ [k; n]))).

(** The matrix [Am] that [base_conditional] multiplies with the function
    values and with [q_sqrt]: the projection matrix [A] itself in the
    whitened representation, and otherwise [A] solved once more against the
    transposed Cholesky factor of [Kmm] (lines 64-66). *)
Definition mean_projection (white : bool) (A Am Kmm : tensor F) (M : nat)
  : Prop :=
  shape Am = shape A /\
  forall b c n,
    in_range (shape A) (b ++ [c; n]) ->
    data Am (b ++ [c; n])
    = if white then data A (b ++ [c; n])
      else tf.solve_mat false M
             (fun i j => tf.chol_mat M (fun i' j' => data Kmm [i'; j']) j i)
             (fun i => data A (b ++ [i; n])) c.

(** Zero above the diagonal of every matrix slice. *)
Definition lower_triangular (q : tensor F) : Prop :=
  forall pre i j, in_range (shape q) (pre ++ [i; j]) ->
                  i < j -> data q (pre ++ [i; j]) = s0.

(** [a] is [b] laid out with extra axes of size 1: [a] has shape [s] and
    its element at an index is the element of [b] at the components listed
    in [keep]. *)
Definition with_unit_axes (a b : tensor F) (s keep : list nat) : Prop :=
  shape a = s /\
  forall idx, in_range s idx ->
              data a idx = data b (map (fun k => nth k idx 0) keep).

(** The forms of [q_sqrt] for one output and one replica: omitted, the
    diagonal factor [M, 1], or a lower-triangular factor [1, M, M]. *)
Definition q_sqrt_single (M : nat) (q_sqrt : option (tensor F)) : Prop :=
  match q_sqrt with
  | None => True
  | Some q => (shape q = [1; M; M] /\ lower_triangular q) \/ shape q = [M; 1]
  end.

(** The projection matrices of the multi-output routines from first
    principles.  For latent process [l], inducing point [m], query point
    [n] and output [p], the interdomain routine solves the Cholesky factor
    of [Kmm[l]] against the column [Kmn[:, l, n, p]]; the fully correlated
    routines solve the factor of [Kmm] against [Kmn[:, n, p]]. *)
Definition interdomain_projection (Kmn Kmm : tensor F) (M l m n p : nat) : F :=
  projection_entry (fun i j => data Kmm [l; i; j])
                   (fun i => data Kmn [i; l; n; p]) M m.

Definition fully_correlated_projection (Kmn Kmm : tensor F) (M m n p : nat)
  : F :=
  projection_entry (fun i j => data Kmm [i; j])
                   (fun i => data Kmn [i; n; p]) M m.

(** The entry [l, c] of [q_sqrt^T A] at query point [n] and output [p], as
    [independent_interdomain_conditional] forms it: the product with the
    lower triangle of the rank-3 factor, or a scaling by the diagonal
    factor [M x L]. *)
Definition interdomain_lta (Kmn Kmm q : tensor F) (M l c n p : nat) : F :=
  if rank q =? 3
  then tf.big_sum M (fun k =>
         smul (if c <=? k then data q [l; k; c] else s0)
              (interdomain_projection Kmn Kmm M l k n p))
  else smul (interdomain_projection Kmn Kmm M l c n p) (data q [c; l]).

(** The posterior covariance between [(n, p)] and [(n', p')] of the
    interdomain routine, given their prior covariance [prior].  The routine
    sums over the pairs of a latent process and an inducing point through
    one flattened index: [k = m * L + l] in the prior-conditioned part when
    one covariance flag is on ([nested = false]; with both flags on the two
    sums are nested), and [k = l * M + m] in the part built from
    [q_sqrt]. *)
Definition interdomain_cov (Kmn Kmm : tensor F) (q_sqrt : option (tensor F))
  (M L : nat) (nested : bool) (prior : F) (n p n' p' : nat) : F :=
  let V :=
    ssub prior
      (if nested
       then tf.big_sum L (fun l => tf.big_sum M (fun m =>
              smul (interdomain_projection Kmn Kmm M l m n p)
                   (interdomain_projection Kmn Kmm M l m n' p')))
       else tf.big_sum (M * L) (fun k =>
              smul (interdomain_projection Kmn Kmm M (k mod L) (k / L) n p)
                   (interdomain_projection Kmn Kmm M (k mod L) (k / L) n' p')))
  in
  match q_sqrt with
  | None => V
  | Some q =>
      sadd V (tf.big_sum (L * M) (fun k =>
                smul (interdomain_lta Kmn Kmm q M (k / M) (k mod M) n p)
                     (interdomain_lta Kmn Kmm q M (k / M) (k mod M) n' p')))
  end.

(** The fully correlated routines: the entry [c] of [q_sqrt[r]^T A] at
    query point [n] and output [p] (lower triangle of [q_sqrt[r]] only), and
    the posterior covariance between [(n, p)] and [(n', p')] for replica
    [r], given the prior covariance [prior] of the two. *)
Definition fully_correlated_lta (Kmn Kmm q : tensor F) (M r c n p : nat) : F :=
  tf.big_sum M (fun k =>
    smul (if c <=? k then data q [r; k; c] else s0)
         (fully_correlated_projection Kmn Kmm M k n p)).

Definition fully_correlated_cov (Kmn Kmm q : tensor F) (M r : nat) (prior : F)
  (n p n' p' : nat) : F :=
  sadd (ssub prior
             (tf.big_sum M (fun m =>
                smul (fully_correlated_projection Kmn Kmm M m n p)
                     (fully_correlated_projection Kmn Kmm M m n' p'))))
       (tf.big_sum M (fun c =>
          smul (fully_correlated_lta Kmn Kmm q M r c n p)
               (fully_correlated_lta Kmn Kmm q M r c n' p'))).

(** The shape the docstrings of the multi-output routines give for the
    variance: N x P, N x P x P, P x N x N or N x P x N x P. *)
Definition variance_shape (full_cov full_output_cov : bool) (N P : nat)
  : list nat :=
  match full_cov, full_output_cov with
  | true, true => [N; P; N; P]
  | true, false => [P; N; N]
  | false, true => [N; P; P]
  | false, false => [N; P]
  end.

(** Two results agree: both are returned, with equal means and equal
    variances. *)
Definition same_result (r r' : result (tensor F * tensor F)) : Prop :=
  match r, r' with
  | Ok (m, v), Ok (m', v') => teq m m' /\ teq v v'
  | _, _ => False
  end.

(** A tensor observed as its shape and its elements in row-major order. *)
Definition contents (t : tensor F) : list nat * list F := (shape t, to_list t).

End Notions.

(** Names an intermediate tensor of a run and records its shape. *)
Ltac run lem T Hs :=
  let E := fresh "E" in
  pose proof lem as E;
  match type of E with
  | _ = Ok ?t =>
      set (T := t) in E;
      assert (Hs : shape T = shape T) by reflexivity;
      unfold T at 2 in Hs; cbn [shape] in Hs;
      rewrite E; cbn [bind]; clear E
  end.

Ltac in_range_solve :=
  repeat (apply Forall2_cons; [lia|]); apply Forall2_nil.

Ltac simpl_idx :=
  cbn [batch row_of col_of length Nat.sub firstn skipn nth app hd tl].

Unset Implicit Arguments.

(** ** Lemmas on shapes and indices *)

Lemma list_eqb_refl : forall s, list_eqb s s = true.
Proof. induction s; cbn; [reflexivity|]. now rewrite Nat.eqb_refl. Qed.

Lemma list_eqb_eq : forall a b, list_eqb a b = true -> a = b.
Proof.
  induction a; destruct b; cbn; try discriminate; auto.
  intros H. apply andb_prop in H. destruct H as [H1 H2].
  apply Nat.eqb_eq in H1. f_equal; auto.
Qed.

Lemma batch_app2 : forall (l : list nat) a b, batch (l ++ [a; b]) = l.
Proof.
  intros. unfold batch. rewrite length_app. cbn [length].
  replace (length l + 2 - 2) with (length l + 0) by lia.
  rewrite firstn_app_2. cbn. apply app_nil_r.
Qed.

Lemma row_of_app2 : forall (l : list nat) a b, row_of (l ++ [a; b]) = a.
Proof.
  intros. unfold row_of. rewrite length_app. cbn [length].
  replace (length l + 2 - 2) with (length l) by lia.
  now rewrite nth_middle.
Qed.

Lemma col_of_app2 : forall (l : list nat) a b, col_of (l ++ [a; b]) = b.
Proof.
  intros. unfold col_of. rewrite length_app. cbn [length].
  replace (length l + 2 - 1) with (length (l ++ [a])) by (rewrite length_app; cbn; lia).
  replace (l ++ [a; b]) with ((l ++ [a]) ++ [b]) by (now rewrite <- app_assoc).
  now rewrite nth_middle.
Qed.

Lemma split_last2 : forall (l : list nat), 2 <= length l ->
  l = batch l ++ [row_of l; col_of l].
Proof.
  intros l H.
  destruct (exists_last (l := l)) as [l1 [b Hl]]; [intro; subst; cbn in H; lia|].
  subst l. rewrite length_app in H. cbn in H.
  destruct (exists_last (l := l1)) as [l2 [a Hl]]; [intro; subst; cbn in H; lia|].
  subst l1. rewrite <- app_assoc. cbn [app].
  now rewrite batch_app2, row_of_app2, col_of_app2.
Qed.

Lemma clamp_in_range : forall s idx, in_range s idx -> clamp s idx = idx.
Proof.
  unfold in_range. intros s idx H. induction H; cbn; [reflexivity|].
  rewrite IHForall2. destruct (Nat.eqb_spec y 1); [|reflexivity].
  f_equal. lia.
Qed.

Lemma clamp_app : forall sa ia sb ib, length sa = length ia ->
  clamp (sa ++ sb) (ia ++ ib) = clamp sa ia ++ clamp sb ib.
Proof.
  induction sa; destruct ia; cbn; intros; try lia; [reflexivity|].
  f_equal. apply IHsa. lia.
Qed.

Lemma bidx_same_length : forall s idx, length idx = length s ->
  bidx s idx = clamp s idx.
Proof. intros. unfold bidx. rewrite H, Nat.sub_diag. reflexivity. Qed.

Lemma bidx_suffix : forall s pre idx, length idx = length s ->
  bidx s (pre ++ idx) = clamp s idx.
Proof.
  intros. unfold bidx. rewrite length_app, H.
  replace (length pre + length s - length s) with (length pre) by lia.
  rewrite skipn_app, skipn_all, Nat.sub_diag. reflexivity.
Qed.

Lemma in_range_length : forall s idx, in_range s idx -> length idx = length s.
Proof. intros. eapply Forall2_length; eauto. Qed.

Lemma in_range_app : forall sa sb ia ib, length ia = length sa ->
  in_range (sa ++ sb) (ia ++ ib) -> in_range sa ia /\ in_range sb ib.
Proof.
  unfold in_range. induction sa; destruct ia; cbn; intros; try lia.
  - split; [constructor | assumption].
  - inversion H0; subst. destruct (IHsa sb ia ib) as [A B]; auto.
Qed.

Lemma in_range_app_intro : forall sa sb ia ib,
  in_range sa ia -> in_range sb ib -> in_range (sa ++ sb) (ia ++ ib).
Proof. unfold in_range. intros. now apply Forall2_app. Qed.

Lemma zip_dims_refl : forall s, zip_dims s s = Some s.
Proof. induction s; cbn; [reflexivity|]. now rewrite IHs, Nat.eqb_refl. Qed.

Lemma zip_dims_app : forall a b c d r1 r2, 
  zip_dims a b = Some r1 -> zip_dims c d = Some r2 ->
  zip_dims (a ++ c) (b ++ d) = Some (r1 ++ r2).
Proof.
  induction a; destruct b; cbn; intros; try discriminate.
  - now inversion H; subst.
  - destruct (zip_dims a0 b) eqn:E; [|discriminate].
    rewrite (IHa _ _ _ _ _ E H0).
    destruct (a =? n); [now inversion H|].
    destruct (a =? 1); [now inversion H|].
    destruct (n =? 1); [now inversion H|discriminate].
Qed.

Lemma zip_dims_ones_l : forall s, zip_dims (repeat 1 (length s)) s = Some s.
Proof.
  induction s; cbn -[Nat.eqb]; [reflexivity|]. rewrite IHs.
  destruct (Nat.eqb_spec 1 a); [now subst|reflexivity].
Qed.

Lemma zip_dims_ones_r : forall s, zip_dims s (repeat 1 (length s)) = Some s.
Proof.
  induction s; cbn -[Nat.eqb]; [reflexivity|]. rewrite IHs.
  destruct (Nat.eqb_spec a 1); [now subst|].
  reflexivity.
Qed.

Lemma zip_dims_one_l : forall d, zip_dims [1] [d] = Some [d].
Proof.
  intros. cbn -[Nat.eqb]. destruct (Nat.eqb_spec 1 d); [now subst|reflexivity].
Qed.

Lemma pad_full : forall n s, n <= length s -> pad n s = s.
Proof. intros. unfold pad. replace (n - length s) with 0 by lia. reflexivity. Qed.

Lemma broadcast_shapes_suffix_l : forall l s,
  broadcast_shapes s (l ++ s) = Some (l ++ s).
Proof.
  intros. unfold broadcast_shapes. rewrite length_app.
  replace (Nat.max (length s) (length l + length s)) with (length l + length s) by lia.
  rewrite (pad_full _ (l ++ s)) by (rewrite length_app; lia).
  unfold pad. replace (length l + length s - length s) with (length l) by lia.
  apply zip_dims_app; [apply zip_dims_ones_l | apply zip_dims_refl].
Qed.

Lemma broadcast_shapes_suffix_r : forall l s,
  broadcast_shapes (l ++ s) s = Some (l ++ s).
Proof.
  intros. unfold broadcast_shapes. rewrite length_app.
  replace (Nat.max (length l + length s) (length s)) with (length l + length s) by lia.
  rewrite (pad_full _ (l ++ s)) by (rewrite length_app; lia).
  unfold pad. replace (length l + length s - length s) with (length l) by lia.
  apply zip_dims_app; [apply zip_dims_ones_r | apply zip_dims_refl].
Qed.

Lemma broadcast_shapes_same_length : forall a b,
  length a = length b -> broadcast_shapes a b = zip_dims a b.
Proof.
  intros. unfold broadcast_shapes. rewrite H, Nat.max_id.
  rewrite !pad_full by lia. reflexivity.
Qed.

Lemma norm_axis_neg : forall bound k, 0 < k -> k <= bound ->
  norm_axis bound (- Z.of_nat k) = Some (bound - k).
Proof.
  intros. unfold norm_axis.
  destruct (Z.ltb_spec (- Z.of_nat k) 0); [|lia].
  rewrite Z.opp_involutive.
  destruct (Z.leb_spec (Z.of_nat k) (Z.of_nat bound)); [|lia].
  f_equal. lia.
Qed.

(** ** When the TensorFlow operations succeed *)

Section OpLemmas.
Context {F : Type} {SF : Scalar F}.

Lemma rank_app2 : forall (l : list nat) a b, length (l ++ [a; b]) = length l + 2.
Proof. intros. rewrite length_app. reflexivity. Qed.

Lemma leb_2_app2 : forall (l : list nat) a b, (2 <=? length (l ++ [a; b])) = true.
Proof. intros. rewrite rank_app2. apply Nat.leb_le. lia. Qed.

Lemma cholesky_ok : forall (a : tensor F) l k,
  shape a = l ++ [k; k] ->
  tf.cholesky a
  = Ok (mkT (l ++ [k; k])
            (fun idx => tf.chol_mat k (fun i j => data a (batch idx ++ [i; j]))
                          (row_of idx) (col_of idx))).
Proof.
  intros a l k H. unfold tf.cholesky, rank. rewrite H.
  rewrite leb_2_app2, row_of_app2, col_of_app2, Nat.eqb_refl. reflexivity.
Qed.

Lemma broadcast_to_ok : forall (a : tensor F) s,
  broadcast_shapes (shape a) s = Some s ->
  tf.broadcast_to a s = Ok (mkT s (fun idx => data a (bidx (shape a) idx))).
Proof.
  intros a s H. unfold tf.broadcast_to. rewrite H, list_eqb_refl. reflexivity.
Qed.

Lemma triangular_solve_ok : forall (m r : tensor F) l k n lower,
  shape m = l ++ [k; k] -> shape r = l ++ [k; n] ->
  tf.triangular_solve m r lower
  = Ok (mkT (l ++ [k; n])
            (fun idx => tf.solve_mat lower k
                          (fun i j => data m (batch idx ++ [i; j]))
                          (fun i => data r (batch idx ++ [i; col_of idx]))
                          (row_of idx))).
Proof.
  intros m r l k n lower Hm Hr. unfold tf.triangular_solve, rank.
  rewrite Hm, Hr.
  rewrite leb_2_app2, !rank_app2, Nat.eqb_refl, !batch_app2, list_eqb_refl,
    !row_of_app2, col_of_app2, Nat.eqb_refl.
  reflexivity.
Qed.

Lemma matmul_tn_ok : forall (a b : tensor F) l k m n,
  shape a = l ++ [k; m] -> shape b = l ++ [k; n] ->
  tf.matmul a b true false
  = Ok (mkT (l ++ [m; n])
            (fun idx => tf.big_sum k (fun c =>
               smul (data a (batch idx ++ [c; row_of idx]))
                    (data b (batch idx ++ [c; col_of idx]))))).
Proof.
  intros a b l k m n Ha Hb. unfold tf.matmul, rank. rewrite Ha, Hb.
  rewrite leb_2_app2, !rank_app2, Nat.eqb_refl, !batch_app2, list_eqb_refl,
    !row_of_app2, !col_of_app2, Nat.eqb_refl.
  reflexivity.
Qed.

Lemma binop_ok : forall name f (a b : tensor F) s,
  broadcast_shapes (shape a) (shape b) = Some s ->
  tf.binop name f a b
  = Ok (mkT s (fun idx => f (data a (bidx (shape a) idx))
                            (data b (bidx (shape b) idx)))).
Proof. intros. unfold tf.binop. rewrite H. reflexivity. Qed.

Lemma expand_dims_ok : forall (a : tensor F) axis p,
  norm_axis (S (rank a)) axis = Some p ->
  tf.expand_dims a axis
  = Ok (mkT (firstn p (shape a) ++ 1 :: skipn p (shape a))
            (fun idx => data a (firstn p idx ++ skipn (S p) idx))).
Proof. intros. unfold tf.expand_dims. rewrite H. reflexivity. Qed.

Lemma reduce_sum_ok : forall (a : tensor F) axis p,
  norm_axis (rank a) axis = Some p ->
  tf.reduce_sum a axis
  = Ok (mkT (firstn p (shape a) ++ skipn (S p) (shape a))
            (fun idx => tf.big_sum (nth p (shape a) 0)
                          (fun c => data a (firstn p idx ++ c :: skipn p idx)))).
Proof. intros. unfold tf.reduce_sum. rewrite H. reflexivity. Qed.

Lemma linalg_transpose_ok : forall (a : tensor F) l r c,
  shape a = l ++ [r; c] ->
  tf.linalg_transpose a
  = Ok (mkT (l ++ [c; r])
            (fun idx => data a (batch idx ++ [col_of idx; row_of idx]))).
Proof.
  intros a l r c H. unfold tf.linalg_transpose, rank. rewrite H.
  rewrite leb_2_app2, batch_app2, row_of_app2, col_of_app2. reflexivity.
Qed.

(** The permutation that moves the leading axis in front of the last one. *)
Lemma existsb_eqb_in : forall k l, In k l -> existsb (Nat.eqb k) l = true.
Proof.
  intros. apply existsb_exists. exists k. split; [assumption|apply Nat.eqb_refl].
Qed.

Lemma is_perm_move : forall n,
  is_perm (n + 2) (seq 1 n ++ [0; n + 1]) = true.
Proof.
  intros. unfold is_perm. rewrite length_app, length_seq. cbn [length].
  rewrite Nat.eqb_refl. cbn [andb].
  apply forallb_forall. intros k Hk. apply in_seq in Hk.
  apply existsb_eqb_in. apply in_app_iff.
  destruct (Nat.eq_dec k 0); [right; left; lia|].
  destruct (Nat.eq_dec k (n + 1)); [right; right; left; lia|].
  left. apply in_seq. lia.
Qed.

Lemma map_nth_seq_prefix : forall (l r : list nat) d,
  map (fun p => nth p (l ++ r) d) (seq 0 (length l)) = l.
Proof.
  induction l; intros; cbn [length seq map]; [reflexivity|].
  cbn [app nth]. f_equal.
  rewrite <- seq_shift, map_map. cbn [nth]. apply IHl.
Qed.

Lemma transpose_move_ok : forall (a : tensor F) M lead N,
  shape a = M :: lead ++ [N] ->
  tf.transpose a (seq 1 (length lead) ++ [0; length lead + 1])
  = Ok (mkT (lead ++ [M; N])
            (fun idx => data a (assemble (seq 0 (length lead + 2))
                                  (seq 1 (length lead) ++ [0; length lead + 1])
                                  idx []))).
Proof.
  intros a M lead N H. unfold tf.transpose, rank. rewrite H.
  cbn [length]. rewrite length_app. cbn [length].
  replace (S (length lead + 1)) with (length lead + 2) by lia.
  rewrite is_perm_move. f_equal. f_equal.
  rewrite map_app. f_equal.
  - rewrite <- seq_shift, map_map. cbn [nth]. apply map_nth_seq_prefix.
  - cbn [map nth]. replace (length lead + 1) with (S (length lead)) by lia.
    cbn [nth]. now rewrite nth_middle.
Qed.

End OpLemmas.

(** ** General facts about the failure paths *)

Ltac split_pairs :=
  repeat match goal with
         | p : (_ * _)%type |- _ => destruct p
         end.

Ltac bind_step :=
  cbv beta iota delta [bind negb];
  match goal with
  | |- context [match ?r with Ok _ => _ | Raise _ => _ end] =>
      lazymatch r with
      | context [match _ with Ok _ => _ | Raise _ => _ end] => fail
      | context [if _ then _ else _] => fail
      | _ => destruct r
      end
  | |- context [if ?b then _ else _] =>
      lazymatch b with
      | context [match _ with Ok _ => _ | Raise _ => _ end] => fail
      | context [if _ then _ else _] => fail
      | _ => destruct b
      end
  end;
  split_pairs; try discriminate; try reflexivity.

Section FailurePaths.

Context {F : Type} {SF : Scalar F}.

(** With [white = False] the fully correlated routines never return. *)
Lemma fully_correlated_repeat_unwhitened_fails :
  forall (Kmn Kmm Knn f : tensor F) full_cov full_output_cov q_sqrt,
    is_ok (fully_correlated_conditional_repeat Kmn Kmm Knn f
             full_cov full_output_cov q_sqrt false) = false.
Proof.
  intros. unfold fully_correlated_conditional_repeat.
  repeat bind_step.
Qed.

Lemma fully_correlated_unwhitened_fails :
  forall (Kmn Kmm Knn f : tensor F) full_cov full_output_cov q_sqrt,
    is_ok (fully_correlated_conditional Kmn Kmm Knn f
             full_cov full_output_cov q_sqrt false) = false.
Proof.
  intros. unfold fully_correlated_conditional.
  pose proof (fully_correlated_repeat_unwhitened_fails
                Kmn Kmm Knn f full_cov full_output_cov q_sqrt) as H.
  destruct (fully_correlated_conditional_repeat _ _ _ _ _ _ _ _);
    [discriminate | reflexivity].
Qed.

(** When the computation up to the whiteness test succeeds, which it does
    exactly when the whitened call without [q_sqrt] returns, the error is
    the not-implemented one. *)
Lemma fully_correlated_repeat_unwhitened_not_implemented :
  forall (Kmn Kmm Knn f : tensor F) full_cov full_output_cov q_sqrt,
    is_ok (fully_correlated_conditional_repeat Kmn Kmm Knn f
             full_cov full_output_cov None true) = true ->
    fully_correlated_conditional_repeat Kmn Kmm Knn f
      full_cov full_output_cov q_sqrt false
    = Raise (NotImplementedError "Need to verify this.").
Proof.
  intros until q_sqrt. unfold fully_correlated_conditional_repeat.
  repeat bind_step.
Qed.

(** A [q_sqrt] whose rank is neither 2 nor 3 makes [base_conditional]
    fail, and with the rank-naming [ValueError] whenever the call without
    [q_sqrt] returns. *)
Lemma base_conditional_bad_rank_fails :
  forall (Kmn Kmm Knn f q : tensor F) full_cov white,
    rank q <> 2 -> rank q <> 3 ->
    is_ok (base_conditional Kmn Kmm Knn f full_cov (Some q) white) = false.
Proof.
  intros until white. intros H2 H3. unfold base_conditional.
  apply Nat.eqb_neq in H2. apply Nat.eqb_neq in H3.
  rewrite H2, H3. cbv beta iota.
  repeat bind_step.
Qed.

Lemma base_conditional_bad_rank_value_error :
  forall (Kmn Kmm Knn f q : tensor F) full_cov white,
    rank q <> 2 -> rank q <> 3 ->
    is_ok (base_conditional Kmn Kmm Knn f full_cov None white) = true ->
    base_conditional Kmn Kmm Knn f full_cov (Some q) white
    = Raise (bad_q_sqrt (rank q)).
Proof.
  intros until white. intros H2 H3. unfold base_conditional.
  apply Nat.eqb_neq in H2. apply Nat.eqb_neq in H3.
  rewrite H2, H3. cbv beta iota.
  repeat bind_step.
Qed.

(** The same for the repeated fully correlated routine. *)
Lemma fully_correlated_repeat_bad_rank_fails :
  forall (Kmn Kmm Knn f q : tensor F) full_cov full_output_cov white,
    rank q <> 3 ->
    is_ok (fully_correlated_conditional_repeat Kmn Kmm Knn f
             full_cov full_output_cov (Some q) white) = false.
Proof.
  intros until white. intros H3. unfold fully_correlated_conditional_repeat.
  apply Nat.eqb_neq in H3. rewrite H3.
  cbv beta iota.
  destruct (rank q =? 2); repeat bind_step.
Qed.

End FailurePaths.

(** ** Closed evaluations *)

(** C1 (the code departs from the claim).  Without [q_sqrt] the repeated
    fully correlated routine returns the variance with no leading replica
    axis: with LM = 2, N = 3, P = 2 and R = 2 the shapes are N x P x P,
    P x N x N and N x P x N x P, not R x ...; with both flags false the
    routine raises on reshaping a scalar to N x P; and
    [fully_correlated_conditional] (R = 1) then strips the query axis, giving
    P x P where N x P x P is documented.  With a rank-3 [q_sqrt] the replica
    axis is there. *)
Theorem C1_variance_has_no_replica_axis_without_q_sqrt :
  shapes2 (fully_correlated_conditional_repeat
             Ex.Kmn_fc Ex.Kmm (Ex.ones [3; 2; 2]) Ex.f2 false true None true)
  = Ok ([2; 3; 2], [3; 2; 2])
  /\ shapes2 (fully_correlated_conditional_repeat
                Ex.Kmn_fc Ex.Kmm (Ex.ones [2; 3; 3]) Ex.f2 true false None true)
     = Ok ([2; 3; 2], [2; 3; 3])
  /\ shapes2 (fully_correlated_conditional_repeat
                Ex.Kmn_fc Ex.Kmm (Ex.ones [3; 2; 3; 2]) Ex.f2 true true None true)
     = Ok ([2; 3; 2], [3; 2; 3; 2])
  /\ shapes2 (fully_correlated_conditional_repeat
                Ex.Kmn_fc Ex.Kmm (Ex.ones [3; 2]) Ex.f2 false false None true)
     = Raise (InvalidArgument "reshape")
  /\ shapes2 (fully_correlated_conditional
                Ex.Kmn_fc Ex.Kmm (Ex.ones [3; 2; 2]) Ex.f1 false true None true)
     = Ok ([3; 2], [2; 2])
  /\ shapes2 (fully_correlated_conditional_repeat
                Ex.Kmn_fc Ex.Kmm (Ex.ones [3; 2; 2]) Ex.f2 false true
                (Some Ex.q_sqrt_R2) true)
     = Ok ([2; 3; 2], [2; 3; 2; 2]).
Proof.
  repeat apply conj; vm_compute; reflexivity.
Qed.

(** C2 (the code departs from the claim).  With [white = False] the
    interdomain routine passes the four-axis [Ar] and the untransposed [Lm] to
    the triangular solve, which rejects them; the same data given to
    [base_conditional] goes through the transposed back-substitution, and the
    whitened interdomain call returns. *)
Theorem C2_interdomain_unwhitened_solve_rejected :
  independent_interdomain_conditional
    Ex.Kmn_MLNP Ex.Kmm_L Ex.Knn_NP Ex.f1 false false None false
  = Raise (InvalidArgument "triangular_solve")
  /\ view2 (base_conditional Ex.Kmn Ex.Kmm Ex.Knn_diag Ex.f1 false None false)
     = Ok (([3; 1], [((-3)%Z, 16%positive); (0%Z, 1%positive); (3%Z, 16%positive)]),
           ([3; 1], [(1547%Z, 16%positive); (95%Z, 1%positive);
                     (1483%Z, 16%positive)]))
  /\ view2 (independent_interdomain_conditional
              Ex.Kmn_MLNP Ex.Kmm_L Ex.Knn_NP Ex.f1 false false None true)
     = Ok (([3; 1], [(1%Z, 2%positive); (1%Z, 1%positive); (3%Z, 2%positive)]),
           ([3; 1], [(1547%Z, 16%positive); (95%Z, 1%positive);
                     (1483%Z, 16%positive)])).
Proof.
  repeat apply conj; vm_compute; reflexivity.
Qed.

(** C3 (the code departs from the claim).  The interdomain routine has no
    rank test: a [q_sqrt] of rank 1 is taken as the diagonal factor and a
    result comes back; [base_conditional] on the same data raises the
    [ValueError] naming rank 1. *)
Theorem C3_interdomain_accepts_rank_1_q_sqrt :
  rank Ex.q_rank1 = 1
  /\ view2 (independent_interdomain_conditional
              Ex.Kmn_MLNP Ex.Kmm_L Ex.Knn_NP Ex.f1 false false
              (Some Ex.q_rank1) true)
     = Ok (([3; 1], [(1%Z, 2%positive); (1%Z, 1%positive); (3%Z, 2%positive)]),
           ([3; 1], [(1747%Z, 16%positive); (112%Z, 1%positive);
                     (1843%Z, 16%positive)]))
  /\ base_conditional Ex.Kmn Ex.Kmm Ex.Knn_diag Ex.f1 false
       (Some Ex.q_rank1) true
     = Raise (ValueError "Bad dimension for q_sqrt: " 1).
Proof.
  repeat apply conj; vm_compute; reflexivity.
Qed.

(** C4 (the code departs from the claim).  With [white = False] and both
    covariance flags false (the defaults) the routine fails on the reshape of
    the base variance, which comes before the whiteness test, so the error is
    not the not-implemented one; with any other flag combination it is. *)
Theorem C4_unwhitened_default_flags_raise_reshape_error :
  fully_correlated_conditional_repeat
    Ex.Kmn_fc Ex.Kmm (Ex.ones [3; 2]) Ex.f2 false false None false
  = Raise (InvalidArgument "reshape")
  /\ fully_correlated_conditional
       Ex.Kmn_fc Ex.Kmm (Ex.ones [3; 2]) Ex.f1 false false None false
     = Raise (InvalidArgument "reshape")
  /\ fully_correlated_conditional_repeat
       Ex.Kmn_fc Ex.Kmm (Ex.ones [3; 2; 2]) Ex.f2 false true None false
     = Raise (NotImplementedError "Need to verify this.").
Proof.
  repeat apply conj; vm_compute; reflexivity.
Qed.

(** C10.  [base_conditional] uses a rank-3 [q_sqrt] as given: two factors
    that agree on and below the diagonal and differ above it give different
    variances, while [fully_correlated_conditional_repeat], which masks the
    upper triangle first, gives the same variance for both. *)
Theorem C10_base_conditional_does_not_mask_upper_triangle :
  exists q q' : tensor Qc,
    rank q = 3 /\ rank q' = 3 /\
    agree_on_lower_triangle q q' /\
    option_map view
      (fvar_of (base_conditional Ex.Kmn Ex.Imm Ex.Knn_diag Ex.f1 false
                  (Some q) true))
    = Some ([3; 1], [(100%Z, 1%positive); (100%Z, 1%positive);
                     (100%Z, 1%positive)]) /\
    option_map view
      (fvar_of (base_conditional Ex.Kmn Ex.Imm Ex.Knn_diag Ex.f1 false
                  (Some q') true))
    = Some ([3; 1], [(109%Z, 1%positive); (124%Z, 1%positive);
                     (145%Z, 1%positive)]) /\
    option_map view
      (fvar_of (fully_correlated_conditional_repeat
                  Ex.Kmn_MLNP_fc Ex.Imm (Ex.ones [1; 3; 3]) Ex.f1 true false
                  (Some q) true))
    = option_map view
        (fvar_of (fully_correlated_conditional_repeat
                    Ex.Kmn_MLNP_fc Ex.Imm (Ex.ones [1; 3; 3]) Ex.f1 true false
                    (Some q') true)) /\
    is_ok (fully_correlated_conditional_repeat
             Ex.Kmn_MLNP_fc Ex.Imm (Ex.ones [1; 3; 3]) Ex.f1 true false
             (Some q) true) = true.
Proof.
  exists Ex.q_lower, Ex.q_upper.
  split; [reflexivity|]. split; [reflexivity|].
  split.
  - split; [reflexivity|].
    intros idx Hr Hle. cbn in Hr.
    inversion Hr as [|r ? idx1 ? Hr0 Hr1]; subst.
    inversion Hr1 as [|i ? idx2 ? Hi Hr2]; subst.
    inversion Hr2 as [|j ? idx3 ? Hj Hr3]; subst.
    inversion Hr3; subst.
    assert (r = 0) by lia; subst r.
    unfold row_of, col_of in Hle; cbn in Hle.
    destruct i as [|[|i]]; destruct j as [|[|j]]; try lia; reflexivity.
  - repeat apply conj; vm_compute; reflexivity.
Qed.

(** ** The covariance reshaper *)

Section Reshaper.

Context {F : Type} {SF : Scalar F}.

(** C9.  [expand_independent_outputs] only re-lays out its input.  With
    [full_output_cov] false the input comes back as it is, for either value
    of [full_cov].  With [full_output_cov] true an N x P input becomes
    N x P x P and a P x N x N input becomes N x P x N x P; the entry at
    output indices [p], [q] is the input variance when [p = q] and zero
    otherwise. *)
Theorem C9_expand_independent_outputs_relayout :
  forall (fvar : tensor F),
    (forall full_cov, expand_independent_outputs fvar full_cov false = Ok fvar)
    /\ (forall N P, shape fvar = [N; P] ->
          exists r, expand_independent_outputs fvar false true = Ok r
                    /\ shape r = [N; P; P]
                    /\ forall n p q,
                         data r [n; p; q]
                         = if p =? q then data fvar [n; p] else s0)
    /\ (forall N P, shape fvar = [P; N; N] ->
          exists r, expand_independent_outputs fvar true true = Ok r
                    /\ shape r = [N; P; N; P]
                    /\ forall n p n' q,
                         data r [n; p; n'; q]
                         = if p =? q then data fvar [p; n'; n] else s0).
Proof.
  intros fvar. split; [|split].
  - intros [|]; reflexivity.
  - intros N P Hs.
    unfold expand_independent_outputs. cbn [andb negb bind].
    unfold tf.diag, rank. rewrite Hs. cbn.
    eexists. split; [reflexivity|]. split; [reflexivity|].
    intros n p q. reflexivity.
  - intros N P Hs.
    unfold expand_independent_outputs. cbn [andb negb bind].
    unfold tf.transpose_all, tf.transpose, rank. rewrite Hs. cbn.
    eexists. split; [reflexivity|]. split; [reflexivity|].
    intros n p n' q. reflexivity.
Qed.

End Reshaper.

Lemma C9_expand_independent_outputs_witness :
  shape (qt [2; 3] [1; 2; 3; 4; 5; 6]%Z) = [2; 3]
  /\ exists r, expand_independent_outputs (qt [2; 3] [1; 2; 3; 4; 5; 6]%Z)
                 false true = Ok r
               /\ shape r = [2; 3; 3]
               /\ forall n p q,
                    data r [n; p; q]
                    = if p =? q
                      then data (qt [2; 3] [1; 2; 3; 4; 5; 6]%Z) [n; p]
                      else s0.
Proof.
  split; [reflexivity|].
  exact (proj1 (proj2 (C9_expand_independent_outputs_relayout
                         (qt [2; 3] [1; 2; 3; 4; 5; 6]%Z))) 2 3 eq_refl).
Defined.
(** ** The core conditional *)

Section Base.

Context {F : Type} {SF : Scalar F}.

Lemma shape_last_ok : forall (t : tensor F) l d,
  shape t = l ++ [d] -> shape_last t = Ok d.
Proof.
  intros t l d H. unfold shape_last, rank. rewrite H, length_app.
  cbn [length]. rewrite Nat.add_1_r. now rewrite nth_middle.
Qed.

Lemma firstn_length_app : forall (a b : list nat), firstn (length a) (a ++ b) = a.
Proof.
  intros. replace (length a) with (length a + 0) by lia.
  rewrite firstn_app_2. cbn. apply app_nil_r.
Qed.

Lemma skipn_length_app : forall (a b : list nat), skipn (length a) (a ++ b) = b.
Proof.
  intros. rewrite skipn_app, skipn_all, Nat.sub_diag. reflexivity.
Qed.


Lemma zip_dims_stretch : forall lead R s,
  zip_dims (lead ++ 1 :: s) (lead ++ R :: s) = Some (lead ++ R :: s).
Proof.
  intros. apply zip_dims_app; [apply zip_dims_refl|].
  exact (zip_dims_app [1] [R] s s [R] s (zip_dims_one_l R) (zip_dims_refl s)).
Qed.

Lemma broadcast_shapes_stretch : forall lead R s,
  broadcast_shapes (lead ++ 1 :: s) (lead ++ R :: s) = Some (lead ++ R :: s).
Proof.
  intros. rewrite broadcast_shapes_same_length.
  - apply zip_dims_stretch.
  - rewrite !length_app. reflexivity.
Qed.


Lemma bidx_in_range : forall s idx, in_range s idx -> bidx s idx = idx.
Proof.
  intros. rewrite bidx_same_length by (now apply in_range_length).
  now apply clamp_in_range.
Qed.

Lemma bidx_suffix_in_range : forall s pre idx,
  in_range s idx -> bidx s (pre ++ idx) = idx.
Proof.
  intros. rewrite bidx_suffix by (now apply in_range_length).
  now apply clamp_in_range.
Qed.

Lemma in_range_split : forall sa sb ia ib,
  length ib = length sb ->
  in_range (sa ++ sb) (ia ++ ib) ->
  length ia = length sa /\ in_range sa ia /\ in_range sb ib.
Proof.
  intros sa sb ia ib Hl Hr.
  assert (Hlen : length ia = length sa).
  { apply in_range_length in Hr. rewrite !length_app in Hr. lia. }
  split; [assumption|]. now apply in_range_app.
Qed.

Lemma big_sum_ext : forall n (g h : nat -> F),
  (forall c, c < n -> g c = h c) -> tf.big_sum n g = tf.big_sum n h.
Proof.
  induction n; intros; cbn; [reflexivity|].
  rewrite (IHn g h) by (intros; apply H; lia).
  rewrite H by lia. reflexivity.
Qed.

Section Shapes.

Variables (Kmn Kmm Knn f : tensor F) (M N R : nat) (lead : list nat)
  (white : bool).
Hypothesis HKmn : shape Kmn = M :: lead ++ [N].
Hypothesis HKmm : shape Kmm = [M; M].
Hypothesis Hf : shape f = [M; R].

Lemma base_projection_ok :
  exists A, base_projection Kmn Kmm = Ok A /\ shape A = lead ++ [M; N].
Proof.
  assert (Hrank : rank Kmn = length lead + 2).
  { unfold rank. rewrite HKmn. cbn [length]. rewrite length_app. cbn. lia. }
  unfold base_projection. rewrite Hrank.
  replace (length lead + 2 - 1 - 1) with (length lead) by lia.
  replace (length lead + 2 - 1) with (length lead + 1) by lia.
  cbn [app].
  run (transpose_move_ok Kmn M lead N HKmn) Kt HsKt.
  rewrite HsKt, batch_app2.
  run (cholesky_ok Kmm [] M HKmm) Lm0 HsLm0.
  rewrite HsLm0. cbn [app].
  assert (Hb0 : broadcast_shapes (shape Lm0) (lead ++ [M; M])
                = Some (lead ++ [M; M])).
  { rewrite HsLm0. apply broadcast_shapes_suffix_l. }
  run (broadcast_to_ok Lm0 (lead ++ [M; M]) Hb0) Lm HsLm.
  run (triangular_solve_ok Lm Kt lead M N true HsLm HsKt) A HsA.
  exists A. split; [reflexivity | assumption].
Qed.

(** Runs the statements of [base_conditional] up to the projection
    matrix, naming the intermediate tensors. *)
Ltac base_prefix :=
  let Hrank := fresh "Hrank" in
  let Kt := fresh "Kt" in let HsKt := fresh "HsKt" in
  let Lm0 := fresh "Lm0" in let HsLm0 := fresh "HsLm0" in
  let Hb0 := fresh "Hb0" in
  let Lm := fresh "Lm" in let HsLm := fresh "HsLm" in
  let A := fresh "A" in let HsA := fresh "HsA" in
  assert (Hrank : rank Kmn = length lead + 2)
    by (unfold rank; rewrite HKmn; cbn [length]; rewrite length_app; cbn; lia);
  unfold base_projection, base_conditional, tf.sub, tf.add, tf.mul;
  unfold shape_at; rewrite Hf; cbn [nth_error bind];
  rewrite (shape_last_ok Kmn (M :: lead) N) by (now rewrite HKmn);
  cbn [bind]; rewrite Hrank;
  replace (length lead + 2 - 1 - 1) with (length lead) by lia;
  replace (length lead + 2 - 1) with (length lead + 1) by lia;
  cbn [app];
  run (transpose_move_ok Kmn M lead N HKmn) Kt HsKt;
  rewrite HsKt, batch_app2;
  run (cholesky_ok Kmm [] M HKmm) Lm0 HsLm0;
  rewrite HsLm0; cbn [app];
  assert (Hb0 : broadcast_shapes (shape Lm0) (lead ++ [M; M])
                = Some (lead ++ [M; M]))
    by (rewrite HsLm0; apply broadcast_shapes_suffix_l);
  run (broadcast_to_ok Lm0 (lead ++ [M; M]) Hb0) Lm HsLm;
  run (triangular_solve_ok Lm Kt lead M N true HsLm HsKt) A HsA.

(** Runs the whiteness branch and the mean; [Am] is the matrix the
    variational correction uses. *)
Ltac base_mean Lm HsLm A HsA :=
  let Hb3 := fresh "Hb3" in
  let f' := fresh "f'" in let Hsf' := fresh "Hsf'" in
  let fmean := fresh "fmean" in let Hsfmean := fresh "Hsfmean" in
  let Lmt := fresh "Lmt" in let HsLmt := fresh "HsLmt" in
  let Am := fresh "Am" in let HsAm := fresh "HsAm" in
  assert (Hb3 : broadcast_shapes (shape f) (lead ++ [M; R])
                = Some (lead ++ [M; R]))
    by (rewrite Hf; apply broadcast_shapes_suffix_l);
  destruct white; cbn [negb];
  [ pose (Am := A); assert (HsAm : shape Am = lead ++ [M; N]) by exact HsA;
    change (Ok A) with (Ok Am); cbn [bind];
    run (broadcast_to_ok f (lead ++ [M; R]) Hb3) f' Hsf';
    run (matmul_tn_ok Am f' lead M N R HsAm Hsf') fmean Hsfmean
  | run (linalg_transpose_ok Lm lead M M HsLm) Lmt HsLmt;
    run (triangular_solve_ok Lmt A lead M N false HsLmt HsA) Am HsAm;
    run (broadcast_to_ok f (lead ++ [M; R]) Hb3) f' Hsf';
    run (matmul_tn_ok Am f' lead M N R HsAm Hsf') fmean Hsfmean ].

(** Runs the full-covariance branch of the base variance; [V] is the
    variance before any variational term. *)
Ltac base_var_full HKnn A HsA :=
  let AtA := fresh "AtA" in let HsAtA := fresh "HsAtA" in
  let Hb1 := fresh "Hb1" in
  let X := fresh "X" in let HsX := fresh "HsX" in
  let Hn := fresh "Hn" in
  let E := fresh "E" in let HsE := fresh "HsE" in
  let Hb2 := fresh "Hb2" in
  let V := fresh "V" in let HsV := fresh "HsV" in
  let Hdata := fresh "Hdata" in
  run (matmul_tn_ok A A lead M N N HsA HsA) AtA HsAtA;
  assert (Hb1 : broadcast_shapes (shape Knn) (shape AtA)
                = Some (lead ++ [N; N]))
    by (rewrite HKnn, HsAtA; apply broadcast_shapes_suffix_l);
  run (binop_ok "sub"%string ssub Knn AtA (lead ++ [N; N]) Hb1) X HsX;
  assert (Hn : norm_axis (S (rank X)) (-3) = Some (length lead))
    by (unfold rank; rewrite HsX, rank_app2;
        change (-3)%Z with (- Z.of_nat 3)%Z; rewrite norm_axis_neg by lia;
        f_equal; lia);
  run (expand_dims_ok X (-3) (length lead) Hn) E HsE;
  rewrite HsX, firstn_length_app, skipn_length_app in HsE;
  assert (Hb2 : broadcast_shapes (shape E) (lead ++ [R; N; N])
                = Some (lead ++ [R; N; N]))
    by (rewrite HsE; apply broadcast_shapes_stretch);
  run (broadcast_to_ok E (lead ++ [R; N; N]) Hb2) V HsV;
  assert (Hdata : forall b r i j,
    in_range (lead ++ [R; N; N]) (b ++ [r; i; j]) ->
    data V (b ++ [r; i; j])
    = ssub (data Knn [i; j])
        (tf.big_sum M (fun m => smul (data A (b ++ [m; i]))
                                     (data A (b ++ [m; j])))))
    by (let b := fresh "b" in let r := fresh "r" in
        let i := fresh "i" in let j := fresh "j" in
        let Hr := fresh "Hr" in
        let Hlen := fresh "Hlen" in let Hrb := fresh "Hrb" in
        let Hr3 := fresh "Hr3" in let Hr2 := fresh "Hr2" in
        intros b r i j Hr;
        apply in_range_split in Hr; [|reflexivity];
        destruct Hr as (Hlen & Hrb & Hr3);
        inversion Hr3 as [|? ? ? ? _ Hr2]; subst;
        unfold V; cbn [data]; rewrite HsE;
        rewrite bidx_same_length by (rewrite !length_app; cbn; lia);
        rewrite clamp_app by lia; rewrite (clamp_in_range _ _ Hrb);
        change (clamp [1; N; N] [r; i; j]) with (0 :: clamp [N; N] [i; j]);
        rewrite (clamp_in_range _ _ Hr2);
        unfold E; cbn [data];
        rewrite <- Hlen at 1; rewrite firstn_length_app;
        replace (S (length lead)) with (length (b ++ [0]))
          by (rewrite length_app; cbn; lia);
        replace (b ++ [0; i; j]) with ((b ++ [0]) ++ [i; j])
          by (now rewrite <- app_assoc);
        rewrite skipn_length_app;
        unfold X; cbn [data]; rewrite HKnn, HsAtA;
        rewrite (bidx_suffix_in_range [N; N] b [i; j] Hr2);
        rewrite bidx_in_range by (now apply in_range_app_intro);
        unfold AtA; cbn [data];
        rewrite batch_app2, row_of_app2, col_of_app2; reflexivity).

Theorem base_full :
  shape Knn = [N; N] ->
  exists A fmean fvar,
    base_projection Kmn Kmm = Ok A /\
    shape A = lead ++ [M; N] /\
    base_conditional Kmn Kmm Knn f true None white = Ok (fmean, fvar) /\
    shape fvar = lead ++ [R; N; N] /\
    forall b r i j,
      in_range (lead ++ [R; N; N]) (b ++ [r; i; j]) ->
      data fvar (b ++ [r; i; j])
      = ssub (data Knn [i; j])
             (tf.big_sum M (fun m => smul (data A (b ++ [m; i]))
                                          (data A (b ++ [m; j])))).
Proof.
  intros HKnn.
  base_prefix.
  exists A.
  base_var_full HKnn A HsA.
  base_mean Lm HsLm A HsA; exists fmean, V; repeat split; assumption.
Qed.

Theorem base_diag :
  shape Knn = [N] ->
  exists A fmean fvar,
    base_projection Kmn Kmm = Ok A /\
    shape A = lead ++ [M; N] /\
    base_conditional Kmn Kmm Knn f false None white = Ok (fmean, fvar) /\
    shape fvar = lead ++ [N; R] /\
    forall b i r,
      in_range (lead ++ [N; R]) (b ++ [i; r]) ->
      data fvar (b ++ [i; r])
      = ssub (data Knn [i])
             (tf.big_sum M (fun m => smul (data A (b ++ [m; i]))
                                          (data A (b ++ [m; i])))).
Proof.
  intros HKnn.
  base_prefix.
  exists A.
  assert (Hn0 : norm_axis (rank (tf.square A)) (-2) = Some (length lead)).
  { unfold rank. cbn [tf.square shape]. rewrite HsA, rank_app2.
    change (-2)%Z with (- Z.of_nat 2)%Z. rewrite norm_axis_neg by lia.
    f_equal. lia. }
  run (reduce_sum_ok (tf.square A) (-2) (length lead) Hn0 ) Sq HsSq.
  unfold tf.square in HsSq. cbn [shape] in HsSq. rewrite HsA in HsSq.
  rewrite firstn_length_app in HsSq.
  replace (S (length lead)) with (length (lead ++ [M])) in HsSq
    by (rewrite length_app; cbn; lia).
  replace (lead ++ [M; N]) with ((lead ++ [M]) ++ [N]) in HsSq
    by (now rewrite <- app_assoc).
  rewrite skipn_length_app in HsSq.
  assert (Hb1 : broadcast_shapes (shape Knn) (shape Sq) = Some (lead ++ [N])).
  { rewrite HKnn, HsSq. apply broadcast_shapes_suffix_l. }
  run (binop_ok "sub"%string ssub Knn Sq (lead ++ [N]) Hb1) X HsX.
  assert (Hn : norm_axis (S (rank X)) (-2) = Some (length lead)).
  { unfold rank. rewrite HsX, length_app. cbn [length].
    change (-2)%Z with (- Z.of_nat 2)%Z. rewrite norm_axis_neg by lia.
    f_equal. lia. }
  run (expand_dims_ok X (-2) (length lead) Hn) E HsE.
  rewrite HsX, firstn_length_app, skipn_length_app in HsE.
  assert (Hb2 : broadcast_shapes (shape E) (lead ++ [R; N]) = Some (lead ++ [R; N])).
  { rewrite HsE. apply broadcast_shapes_stretch. }
  run (broadcast_to_ok E (lead ++ [R; N]) Hb2) V HsV.
  assert (Hdata : forall b r i,
    in_range (lead ++ [R; N]) (b ++ [r; i]) ->
    data V (b ++ [r; i])
    = ssub (data Knn [i])
        (tf.big_sum M (fun m => smul (data A (b ++ [m; i]))
                                     (data A (b ++ [m; i]))))).
  { intros b r i Hr.
    apply in_range_split in Hr; [|reflexivity].
    destruct Hr as (Hlen & Hrb & Hr2).
    inversion Hr2 as [|? ? ? ? _ Hr1]; subst.
    unfold V. cbn [data]. rewrite HsE.
    rewrite bidx_same_length by (rewrite !length_app; cbn; lia).
    rewrite clamp_app by lia. rewrite (clamp_in_range _ _ Hrb).
    change (clamp [1; N] [r; i]) with (0 :: clamp [N] [i]).
    rewrite (clamp_in_range _ _ Hr1).
    unfold E. cbn [data].
    rewrite <- Hlen at 1. rewrite firstn_length_app.
    replace (S (length lead)) with (length (b ++ [0])) by (rewrite length_app; cbn; lia).
    replace (b ++ [0; i]) with ((b ++ [0]) ++ [i]) by (now rewrite <- app_assoc).
    rewrite skipn_length_app.
    unfold X. cbn [data]. rewrite HKnn, HsSq.
    rewrite (bidx_suffix_in_range [N] b [i] Hr1).
    rewrite bidx_in_range by (now apply in_range_app_intro).
    unfold Sq. cbn [data shape tf.square]. rewrite HsA.
    rewrite nth_middle.
    rewrite <- Hlen. rewrite firstn_length_app, skipn_length_app.
    reflexivity. }
  base_mean Lm HsLm A HsA.
  all: run (linalg_transpose_ok V lead R N HsV) W HsW.
  all: exists fmean, W.
  all: split; [reflexivity|]; split; [assumption|].
  all: split; [reflexivity|]; split; [assumption|].
  all: intros b i r Hr.
  all: apply in_range_split in Hr; [|reflexivity].
  all: destruct Hr as (Hlen & Hrb & Hr2).
  all: inversion Hr2 as [|? ? ? ? Hi Hr1]; subst.
  all: inversion Hr1 as [|? ? ? ? Hr0 _]; subst.
  all: unfold W; cbn [data].
  all: rewrite batch_app2, row_of_app2, col_of_app2.
  all: apply Hdata.
  all: apply in_range_app_intro; [assumption|].
  all: repeat constructor; assumption.
Qed.


Lemma zip_dims_diag_factor :
  zip_dims [1; M; N] [R; M; 1] = Some [R; M; N].
Proof.
  cbn -[Nat.eqb].
  destruct (Nat.eqb_spec N 1), (Nat.eqb_spec 1 R); subst;
    rewrite ?Nat.eqb_refl; reflexivity.
Qed.

Lemma in_range_swap2 : forall s n pre i j,
  in_range (s ++ [n; n]) (pre ++ [i; j]) ->
  in_range (s ++ [n; n]) (pre ++ [j; i]).
Proof.
  intros s n pre i j Hr.
  apply in_range_split in Hr; [|reflexivity].
  destruct Hr as (_ & Hp & H2).
  inversion H2 as [|? ? ? ? Hi H1]; subst.
  inversion H1 as [|? ? ? ? Hj _]; subst.
  apply in_range_app_intro; [assumption|].
  repeat constructor; assumption.
Qed.

Hypothesis smul_comm : forall x y : F, smul x y = smul y x.

Lemma matmul_self_symmetric : forall (a : tensor F) l k m,
  shape a = l ++ [k; m] ->
  exists C, tf.matmul a a true false = Ok C /\ shape C = l ++ [m; m]
            /\ symmetric_slices C.
Proof.
  intros a l k m Ha.
  rewrite (matmul_tn_ok a a l k m m Ha Ha).
  eexists. split; [reflexivity|]. split; [reflexivity|].
  intros pre i j _. cbn [data].
  rewrite !batch_app2, !row_of_app2, !col_of_app2.
  apply big_sum_ext. intros. apply smul_comm.
Qed.

Lemma add_symmetric : forall (V C : tensor F) s n,
  shape V = s ++ [n; n] -> shape C = s ++ [n; n] ->
  symmetric_slices V -> symmetric_slices C ->
  exists W, tf.binop "add" sadd V C = Ok W /\ shape W = s ++ [n; n]
            /\ symmetric_slices W.
Proof.
  intros V C s n HV HC HsV HsC.
  assert (Hb : broadcast_shapes (shape V) (shape C) = Some (s ++ [n; n])).
  { rewrite HV, HC, broadcast_shapes_same_length by reflexivity.
    apply zip_dims_refl. }
  rewrite (binop_ok "add"%string sadd V C (s ++ [n; n]) Hb).
  eexists. split; [reflexivity|]. split; [reflexivity|].
  intros pre i j Hr. cbn [shape data] in *.
  pose proof (in_range_swap2 _ _ _ _ _ Hr) as Hr'.
  rewrite HV, HC.
  rewrite !(bidx_in_range _ _ Hr), !(bidx_in_range _ _ Hr').
  f_equal; [apply HsV | apply HsC]; [rewrite HV | rewrite HC]; exact Hr.
Qed.

Lemma transpose_all_2_ok : forall (q : tensor F) a b,
  shape q = [a; b] ->
  tf.transpose_all q
  = Ok (mkT [b; a] (fun idx => data q (assemble [0; 1] [1; 0] idx []))).
Proof.
  intros q a b H. unfold tf.transpose_all, tf.transpose, rank.
  rewrite H. reflexivity.
Qed.

Theorem base_symmetric : forall q_sqrt,
  shape Knn = [N; N] ->
  symmetric_slices Knn ->
  q_sqrt_documented lead M R q_sqrt ->
  exists fmean fvar,
    base_conditional Kmn Kmm Knn f true q_sqrt white = Ok (fmean, fvar) /\
    shape fvar = lead ++ [R; N; N] /\
    symmetric_slices fvar.
Proof.
  intros q_sqrt HKnn HsymK Hq.
  base_prefix.
  base_var_full HKnn A HsA.
  assert (HsymV : symmetric_slices V).
  { intros pre i j Hr. rewrite HsV in Hr.
    destruct (exists_last (l := pre)) as [b [r Hpre]].
    { intro; subst pre. apply in_range_length in Hr.
      rewrite !length_app in Hr. cbn in Hr. lia. }
    subst pre. rewrite <- !app_assoc in *. cbn [app] in *.
    pose proof Hr as Hr'.
    change [R; N; N] with ([R] ++ [N; N]) in Hr'.
    replace (b ++ [r; i; j]) with ((b ++ [r]) ++ [i; j]) in Hr'
      by (now rewrite <- app_assoc).
    rewrite app_assoc in Hr'. apply in_range_swap2 in Hr'.
    rewrite <- !app_assoc in Hr'. cbn [app] in Hr'.
    rewrite (Hdata _ _ _ _ Hr), (Hdata _ _ _ _ Hr').
    apply in_range_split in Hr; [|reflexivity].
    destruct Hr as (_ & _ & H3).
    inversion H3 as [|? ? ? ? _ H2]; subst.
    f_equal.
    - apply (HsymK []). rewrite HKnn. exact H2.
    - apply big_sum_ext. intros. apply smul_comm. }
  destruct q_sqrt as [q|]; [destruct Hq as [Hq3 | [Hq2 Hlead]]|].
  - (* rank 3 *)
    base_mean Lm HsLm A HsA.
    all: cbn [bind negb].
    all: unfold rank; rewrite Hq3; cbn [length Nat.eqb].
    all: assert (HbL : broadcast_shapes (shape q) (lead ++ [R; M; M])
                       = Some (lead ++ [R; M; M]))
           by (rewrite Hq3; apply broadcast_shapes_suffix_l).
    all: run (broadcast_to_ok q (lead ++ [R; M; M]) HbL) L HsL.
    all: assert (HnA : norm_axis (S (rank Am)) (-3) = Some (length lead))
           by (unfold rank; rewrite HsAm, rank_app2;
               change (-3)%Z with (- Z.of_nat 3)%Z;
               rewrite norm_axis_neg by lia; f_equal; lia).
    all: run (expand_dims_ok Am (-3) (length lead) HnA) Ae HsAe.
    all: rewrite HsAm, firstn_length_app, skipn_length_app in HsAe.
    all: assert (HbA : broadcast_shapes (shape Ae) (lead ++ [R; M; N])
                       = Some (lead ++ [R; M; N]))
           by (rewrite HsAe; apply broadcast_shapes_stretch).
    all: run (broadcast_to_ok Ae (lead ++ [R; M; N]) HbA) Ab HsAb.
    all: replace (lead ++ [R; M; M]) with ((lead ++ [R]) ++ [M; M]) in HsL
           by (now rewrite <- app_assoc).
    all: replace (lead ++ [R; M; N]) with ((lead ++ [R]) ++ [M; N]) in HsAb
           by (now rewrite <- app_assoc).
    all: run (matmul_tn_ok L Ab (lead ++ [R]) M M N HsL HsAb) LTA HsLTA.
    all: run (matmul_tn_ok LTA LTA (lead ++ [R]) M N N HsLTA HsLTA) C HsC.
    all: assert (HsymC : symmetric_slices C)
           by (intros pre i j _; unfold C; cbn [data];
               rewrite !batch_app2, !row_of_app2, !col_of_app2;
               apply big_sum_ext; intros; apply smul_comm).
    all: replace (lead ++ [R; N; N]) with ((lead ++ [R]) ++ [N; N]) in *
           by (now rewrite <- app_assoc).
    all: destruct (add_symmetric V C (lead ++ [R]) N HsV HsC HsymV HsymC)
           as (W & EW & HsW & HsymW).
    all: rewrite EW; cbn [bind].
    all: exists fmean, W; repeat split; assumption.
  - (* rank 2 *)
    base_mean Lm HsLm A HsA.
    all: cbn [bind negb].
    all: unfold rank at 1; rewrite Hq2; cbn [length Nat.eqb].
    all: run (transpose_all_2_ok q M R Hq2) qT HsqT.
    all: assert (Hnq : norm_axis (S (rank qT)) 2 = Some 2)
           by (unfold rank; rewrite HsqT; reflexivity).
    all: run (expand_dims_ok qT 2 2 Hnq) qe Hsqe.
    all: rewrite HsqT in Hsqe; cbn [firstn skipn app] in Hsqe.
    all: assert (Hbm : broadcast_shapes (shape Am) (shape qe) = Some [R; M; N])
           by (rewrite HsAm, Hsqe, Hlead; apply zip_dims_diag_factor).
    all: run (binop_ok "mul"%string smul Am qe [R; M; N] Hbm) LTA HsLTA.
    all: run (matmul_tn_ok LTA LTA [R] M N N HsLTA HsLTA) C HsC.
    all: assert (HsymC : symmetric_slices C)
           by (intros pre i j _; unfold C; cbn [data];
               rewrite !batch_app2, !row_of_app2, !col_of_app2;
               apply big_sum_ext; intros; apply smul_comm).
    all: rewrite Hlead in *; cbn [app] in *.
    all: destruct (add_symmetric V C [R] N HsV HsC HsymV HsymC)
           as (W & EW & HsW & HsymW).
    all: rewrite EW; cbn [bind].
    all: exists fmean, W; repeat split; assumption.
  - base_mean Lm HsLm A HsA.
    all: cbn [bind negb].
    all: exists fmean, V; repeat split; assumption.
Qed.


(** The whitened call in full: mean and variance element by element, for
    every documented form of [q_sqrt]. *)
Lemma base_whitened_full : forall q_sqrt,
  white = true ->
  shape Knn = [N; N] ->
  q_sqrt_documented lead M R q_sqrt ->
  exists A fmean fvar,
    base_projection Kmn Kmm = Ok A /\
    shape A = lead ++ [M; N] /\
    base_conditional Kmn Kmm Knn f true q_sqrt white = Ok (fmean, fvar) /\
    shape fmean = lead ++ [N; R] /\
    (forall b n r,
       in_range (lead ++ [N; R]) (b ++ [n; r]) ->
       data fmean (b ++ [n; r])
       = tf.big_sum M (fun c => smul (data A (b ++ [c; n])) (data f [c; r]))) /\
    shape fvar = lead ++ [R; N; N] /\
    (forall b r i j,
       in_range (lead ++ [R; N; N]) (b ++ [r; i; j]) ->
       data fvar (b ++ [r; i; j])
       = let V := ssub (data Knn [i; j])
                    (tf.big_sum M (fun m => smul (data A (b ++ [m; i]))
                                                 (data A (b ++ [m; j])))) in
         match q_sqrt with
         | None => V
         | Some q =>
             sadd V (tf.big_sum M (fun c => smul (base_lta A q M b r c i)
                                                 (base_lta A q M b r c j)))
         end).
Proof.
  intros q_sqrt Hw HKnn Hq.
  base_prefix. exists A.
  base_var_full HKnn A HsA.
  base_mean Lm HsLm A HsA; [|discriminate Hw].
  assert (Hmean : forall b n r,
    in_range (lead ++ [N; R]) (b ++ [n; r]) ->
    data fmean (b ++ [n; r])
    = tf.big_sum M (fun c => smul (data A (b ++ [c; n])) (data f [c; r]))).
  { intros b n r Hr.
    apply in_range_split in Hr; [|reflexivity].
    destruct Hr as (Hlen & Hrb & Hr2).
    inversion Hr2 as [|? ? ? ? Hnlt Hr1]; subst.
    inversion Hr1 as [|? ? ? ? Hr0 _]; subst.
    unfold fmean. cbn [data].
    rewrite batch_app2, row_of_app2, col_of_app2.
    apply big_sum_ext. intros c Hc.
    unfold f'. cbn [data]. rewrite Hf.
    rewrite bidx_suffix_in_range by in_range_solve. reflexivity. }
  destruct q_sqrt as [q|]; [destruct Hq as [Hq3 | [Hq2 Hlead]]|].
  - (* rank 3 *)
    cbn [bind negb].
    unfold rank at 1 2; rewrite Hq3; cbn [length Nat.eqb].
    assert (HbL : broadcast_shapes (shape q) (lead ++ [R; M; M])
                  = Some (lead ++ [R; M; M]))
      by (rewrite Hq3; apply broadcast_shapes_suffix_l).
    run (broadcast_to_ok q (lead ++ [R; M; M]) HbL) L HsL.
    assert (HnA : norm_axis (S (rank Am)) (-3) = Some (length lead))
      by (unfold rank; rewrite HsAm, rank_app2;
          change (-3)%Z with (- Z.of_nat 3)%Z;
          rewrite norm_axis_neg by lia; f_equal; lia).
    run (expand_dims_ok Am (-3) (length lead) HnA) Ae HsAe.
    rewrite HsAm, firstn_length_app, skipn_length_app in HsAe.
    assert (HbA : broadcast_shapes (shape Ae) (lead ++ [R; M; N])
                  = Some (lead ++ [R; M; N]))
      by (rewrite HsAe; apply broadcast_shapes_stretch).
    run (broadcast_to_ok Ae (lead ++ [R; M; N]) HbA) Ab HsAb.
    replace (lead ++ [R; M; M]) with ((lead ++ [R]) ++ [M; M]) in HsL
      by (now rewrite <- app_assoc).
    replace (lead ++ [R; M; N]) with ((lead ++ [R]) ++ [M; N]) in HsAb
      by (now rewrite <- app_assoc).
    run (matmul_tn_ok L Ab (lead ++ [R]) M M N HsL HsAb) LTA HsLTA.
    run (matmul_tn_ok LTA LTA (lead ++ [R]) M N N HsLTA HsLTA) C HsC.
    rewrite <- app_assoc in HsC; cbn [app] in HsC.
    assert (Hb4 : broadcast_shapes (shape V) (shape C)
                  = Some (lead ++ [R; N; N])).
    { rewrite HsV, HsC, broadcast_shapes_same_length by reflexivity.
      apply zip_dims_refl. }
    run (binop_ok "add"%string sadd V C (lead ++ [R; N; N]) Hb4) W HsW.
    assert (HLTA : forall b r c n,
      length b = length lead -> in_range lead b ->
      r < R -> c < M -> n < N ->
      data LTA ((b ++ [r]) ++ [c; n]) = base_lta A q M b r c n).
    { intros b r c n Hlen Hrb Hr0 Hc Hnlt.
      unfold base_lta, rank. rewrite Hq3. cbn [length Nat.eqb].
      unfold LTA. cbn [data].
      rewrite batch_app2, row_of_app2, col_of_app2.
      apply big_sum_ext. intros k Hk. f_equal.
      - unfold L. cbn [data]. rewrite Hq3.
        rewrite <- app_assoc. cbn [app].
        rewrite bidx_suffix_in_range by in_range_solve. reflexivity.
      - unfold Ab. cbn [data]. rewrite HsAe.
        rewrite <- app_assoc. cbn [app].
        rewrite bidx_same_length by (rewrite !length_app; cbn; lia).
        rewrite clamp_app by lia. rewrite (clamp_in_range _ _ Hrb).
        change (clamp [1; M; N] [r; k; n]) with (0 :: clamp [M; N] [k; n]).
        rewrite clamp_in_range by in_range_solve.
        unfold Ae. cbn [data].
        rewrite <- Hlen at 1. rewrite firstn_length_app.
        replace (S (length lead)) with (length (b ++ [0]))
          by (rewrite length_app; cbn; lia).
        replace (b ++ [0; k; n]) with ((b ++ [0]) ++ [k; n])
          by (now rewrite <- app_assoc).
        rewrite skipn_length_app. reflexivity. }
    exists fmean, W.
    split; [reflexivity|]. split; [assumption|]. split; [reflexivity|].
    split; [assumption|]. split; [assumption|]. split; [assumption|].
    intros b r i j Hr. cbv zeta.
    pose proof Hr as Hr'.
    apply in_range_split in Hr'; [|reflexivity].
    destruct Hr' as (Hlen & Hrb & Hr3).
    inversion Hr3 as [|? ? ? ? Hr0 Hr2]; subst.
    inversion Hr2 as [|? ? ? ? Hi Hr1]; subst.
    inversion Hr1 as [|? ? ? ? Hj _]; subst.
    unfold W. cbn [data]. rewrite HsV, HsC.
    rewrite !(bidx_in_range _ _ Hr).
    rewrite (Hdata _ _ _ _ Hr). f_equal.
    unfold C. cbn [data].
    replace (b ++ [r; i; j]) with ((b ++ [r]) ++ [i; j])
      by (now rewrite <- app_assoc).
    rewrite batch_app2, row_of_app2, col_of_app2.
    apply big_sum_ext. intros c Hc.
    rewrite !HLTA by assumption. reflexivity.
  - (* rank 2 *)
    cbn [bind negb].
    unfold rank at 1; rewrite Hq2; cbn [length Nat.eqb].
    run (transpose_all_2_ok q M R Hq2) qT HsqT.
    assert (Hnq : norm_axis (S (rank qT)) 2 = Some 2)
      by (unfold rank; rewrite HsqT; reflexivity).
    run (expand_dims_ok qT 2 2 Hnq) qe Hsqe.
    rewrite HsqT in Hsqe; cbn [firstn skipn app] in Hsqe.
    assert (Hbm : broadcast_shapes (shape Am) (shape qe) = Some [R; M; N])
      by (rewrite HsAm, Hsqe, Hlead; apply zip_dims_diag_factor).
    run (binop_ok "mul"%string smul Am qe [R; M; N] Hbm) LTA HsLTA.
    run (matmul_tn_ok LTA LTA [R] M N N HsLTA HsLTA) C HsC.
    assert (Hb4 : broadcast_shapes (shape V) (shape C)
                  = Some (lead ++ [R; N; N])).
    { rewrite HsV, HsC, Hlead, broadcast_shapes_same_length by reflexivity.
      apply zip_dims_refl. }
    run (binop_ok "add"%string sadd V C (lead ++ [R; N; N]) Hb4) W HsW.
    assert (HLTA : forall r c n, r < R -> c < M -> n < N ->
      data LTA ([r] ++ [c; n]) = base_lta A q M [] r c n).
    { intros r c n Hr0 Hc Hnlt.
      unfold base_lta, rank. rewrite Hq2. cbn [length Nat.eqb app].
      unfold LTA. cbn [data]. rewrite HsAm, Hsqe, Hlead. cbn [app].
      replace (bidx [M; N] [r; c; n]) with [c; n]
        by (symmetry; apply (bidx_suffix_in_range [M; N] [r] [c; n]);
            in_range_solve).
      rewrite bidx_same_length by reflexivity.
      change (clamp [R; M; 1] [r; c; n])
        with (clamp ([R; M] ++ [1]) ([r; c] ++ [n])).
      rewrite clamp_app by reflexivity.
      rewrite clamp_in_range by in_range_solve.
      cbn [clamp Nat.eqb app].
      unfold qe, qT. cbn [data firstn skipn app assemble find_pos Nat.eqb
                            option_map nth hd tl].
      reflexivity. }
    exists fmean, W.
    split; [reflexivity|]. split; [assumption|]. split; [reflexivity|].
    split; [assumption|]. split; [assumption|]. split; [assumption|].
    intros b r i j Hr. cbv zeta.
    pose proof Hr as Hr'.
    apply in_range_split in Hr'; [|reflexivity].
    destruct Hr' as (Hlen & Hrb & Hr3).
    inversion Hr3 as [|? ? ? ? Hr0 Hr2]; subst.
    inversion Hr2 as [|? ? ? ? Hi Hr1]; subst.
    inversion Hr1 as [|? ? ? ? Hj _]; subst.
    assert (Hb : b = []) by (destruct b; [reflexivity | discriminate]).
    unfold W. cbn [data]. rewrite HsV, HsC.
    rewrite (bidx_in_range _ _ Hr).
    rewrite (Hdata _ _ _ _ Hr). f_equal.
    subst b. cbn [app].
    rewrite bidx_in_range by in_range_solve.
    unfold C. cbn [data].
    change [r; i; j] with ([r] ++ [i; j]).
    rewrite batch_app2, row_of_app2, col_of_app2.
    apply big_sum_ext. intros c Hc.
    rewrite !HLTA by assumption. reflexivity.
  - cbn [bind negb].
    exists fmean, V.
    split; [reflexivity|]. split; [assumption|]. split; [reflexivity|].
    split; [assumption|]. split; [assumption|]. split; [assumption|].
    intros b r i j Hr. cbv zeta. apply Hdata. exact Hr.
Qed.

Lemma base_whitened_diag : forall q_sqrt,
  white = true ->
  shape Knn = [N] ->
  q_sqrt_documented lead M R q_sqrt ->
  exists A fmean fvar,
    base_projection Kmn Kmm = Ok A /\
    shape A = lead ++ [M; N] /\
    base_conditional Kmn Kmm Knn f false q_sqrt white = Ok (fmean, fvar) /\
    shape fmean = lead ++ [N; R] /\
    (forall b n r,
       in_range (lead ++ [N; R]) (b ++ [n; r]) ->
       data fmean (b ++ [n; r])
       = tf.big_sum M (fun c => smul (data A (b ++ [c; n])) (data f [c; r]))) /\
    shape fvar = lead ++ [N; R] /\
    (forall b n r,
       in_range (lead ++ [N; R]) (b ++ [n; r]) ->
       data fvar (b ++ [n; r])
       = let V := ssub (data Knn [n])
                    (tf.big_sum M (fun m => smul (data A (b ++ [m; n]))
                                                 (data A (b ++ [m; n])))) in
         match q_sqrt with
         | None => V
         | Some q =>
             sadd V (tf.big_sum M (fun c => smul (base_lta A q M b r c n)
                                                 (base_lta A q M b r c n)))
         end).
Proof.
  intros q_sqrt Hw HKnn Hq.
  base_prefix. exists A.
  assert (Hn0 : norm_axis (rank (tf.square A)) (-2) = Some (length lead)).
  { unfold rank. cbn [tf.square shape]. rewrite HsA, rank_app2.
    change (-2)%Z with (- Z.of_nat 2)%Z. rewrite norm_axis_neg by lia.
    f_equal. lia. }
  run (reduce_sum_ok (tf.square A) (-2) (length lead) Hn0 ) Sq HsSq.
  unfold tf.square in HsSq. cbn [shape] in HsSq. rewrite HsA in HsSq.
  rewrite firstn_length_app in HsSq.
  replace (S (length lead)) with (length (lead ++ [M])) in HsSq
    by (rewrite length_app; cbn; lia).
  replace (lead ++ [M; N]) with ((lead ++ [M]) ++ [N]) in HsSq
    by (now rewrite <- app_assoc).
  rewrite skipn_length_app in HsSq.
  assert (Hb1 : broadcast_shapes (shape Knn) (shape Sq) = Some (lead ++ [N])).
  { rewrite HKnn, HsSq. apply broadcast_shapes_suffix_l. }
  run (binop_ok "sub"%string ssub Knn Sq (lead ++ [N]) Hb1) X HsX.
  assert (Hn : norm_axis (S (rank X)) (-2) = Some (length lead)).
  { unfold rank. rewrite HsX, length_app. cbn [length].
    change (-2)%Z with (- Z.of_nat 2)%Z. rewrite norm_axis_neg by lia.
    f_equal. lia. }
  run (expand_dims_ok X (-2) (length lead) Hn) E HsE.
  rewrite HsX, firstn_length_app, skipn_length_app in HsE.
  assert (Hb2 : broadcast_shapes (shape E) (lead ++ [R; N]) = Some (lead ++ [R; N])).
  { rewrite HsE. apply broadcast_shapes_stretch. }
  run (broadcast_to_ok E (lead ++ [R; N]) Hb2) V HsV.
  assert (Hdata : forall b r i,
    in_range (lead ++ [R; N]) (b ++ [r; i]) ->
    data V (b ++ [r; i])
    = ssub (data Knn [i])
        (tf.big_sum M (fun m => smul (data A (b ++ [m; i]))
                                     (data A (b ++ [m; i]))))).
  { intros b r i Hr.
    apply in_range_split in Hr; [|reflexivity].
    destruct Hr as (Hlen & Hrb & Hr2).
    inversion Hr2 as [|? ? ? ? _ Hr1]; subst.
    unfold V. cbn [data]. rewrite HsE.
    rewrite bidx_same_length by (rewrite !length_app; cbn; lia).
    rewrite clamp_app by lia. rewrite (clamp_in_range _ _ Hrb).
    change (clamp [1; N] [r; i]) with (0 :: clamp [N] [i]).
    rewrite (clamp_in_range _ _ Hr1).
    unfold E. cbn [data].
    rewrite <- Hlen at 1. rewrite firstn_length_app.
    replace (S (length lead)) with (length (b ++ [0])) by (rewrite length_app; cbn; lia).
    replace (b ++ [0; i]) with ((b ++ [0]) ++ [i]) by (now rewrite <- app_assoc).
    rewrite skipn_length_app.
    unfold X. cbn [data]. rewrite HKnn, HsSq.
    rewrite (bidx_suffix_in_range [N] b [i] Hr1).
    rewrite bidx_in_range by (now apply in_range_app_intro).
    unfold Sq. cbn [data shape tf.square]. rewrite HsA.
    rewrite nth_middle.
    rewrite <- Hlen. rewrite firstn_length_app, skipn_length_app.
    reflexivity. }
  base_mean Lm HsLm A HsA; [|discriminate Hw].
  assert (Hmean : forall b n r,
    in_range (lead ++ [N; R]) (b ++ [n; r]) ->
    data fmean (b ++ [n; r])
    = tf.big_sum M (fun c => smul (data A (b ++ [c; n])) (data f [c; r]))).
  { intros b n r Hr.
    apply in_range_split in Hr; [|reflexivity].
    destruct Hr as (Hlen & Hrb & Hr2).
    inversion Hr2 as [|? ? ? ? Hnlt Hr1]; subst.
    inversion Hr1 as [|? ? ? ? Hr0 _]; subst.
    unfold fmean. cbn [data].
    rewrite batch_app2, row_of_app2, col_of_app2.
    apply big_sum_ext. intros c Hc.
    unfold f'. cbn [data]. rewrite Hf.
    rewrite bidx_suffix_in_range by in_range_solve. reflexivity. }
  (* the variance before the final transposition *)
  assert (Hfin : forall (W : tensor F),
    shape W = lead ++ [R; N] ->
    (forall b r n, in_range (lead ++ [R; N]) (b ++ [r; n]) ->
       data W (b ++ [r; n])
       = let V := ssub (data Knn [n])
                    (tf.big_sum M (fun m => smul (data A (b ++ [m; n]))
                                                 (data A (b ++ [m; n])))) in
         match q_sqrt with
         | None => V
         | Some q =>
             sadd V (tf.big_sum M (fun c => smul (base_lta A q M b r c n)
                                                 (base_lta A q M b r c n)))
         end) ->
    exists fmean0 fvar,
      Ok A = Ok A
      /\ shape A = lead ++ [M; N]
      /\ (fvar0 <- tf.linalg_transpose W ;; Ok (fmean, fvar0)) = Ok (fmean0, fvar)
      /\ shape fmean0 = lead ++ [N; R]
      /\ (forall b n r,
            in_range (lead ++ [N; R]) (b ++ [n; r]) ->
            data fmean0 (b ++ [n; r])
            = tf.big_sum M (fun c => smul (data A (b ++ [c; n]))
                                          (data f [c; r])))
      /\ shape fvar = lead ++ [N; R]
      /\ (forall b n r,
            in_range (lead ++ [N; R]) (b ++ [n; r]) ->
            data fvar (b ++ [n; r])
            = let V := ssub (data Knn [n])
                         (tf.big_sum M (fun m => smul (data A (b ++ [m; n]))
                                                      (data A (b ++ [m; n])))) in
              match q_sqrt with
              | None => V
              | Some q =>
                  sadd V (tf.big_sum M (fun c => smul (base_lta A q M b r c n)
                                                      (base_lta A q M b r c n)))
              end)).
  { intros W HsW HdW.
    run (linalg_transpose_ok W lead R N HsW) Wt HsWt.
    exists fmean, Wt.
    split; [reflexivity|]. split; [assumption|].
    split; [reflexivity|]. split; [assumption|]. split; [assumption|].
    split; [assumption|].
    intros b n r Hr.
    apply in_range_split in Hr; [|reflexivity].
    destruct Hr as (Hlen & Hrb & Hr2).
    inversion Hr2 as [|? ? ? ? Hnlt Hr1]; subst.
    inversion Hr1 as [|? ? ? ? Hr0 _]; subst.
    unfold Wt. cbn [data].
    rewrite batch_app2, row_of_app2, col_of_app2.
    apply HdW.
    apply in_range_app_intro; [assumption|]. in_range_solve. }
  destruct q_sqrt as [q|]; [destruct Hq as [Hq3 | [Hq2 Hlead]]|].
  - (* rank 3 *)
    cbn [bind negb].
    unfold rank at 1 2; rewrite Hq3; cbn [length Nat.eqb].
    assert (HbL : broadcast_shapes (shape q) (lead ++ [R; M; M])
                  = Some (lead ++ [R; M; M]))
      by (rewrite Hq3; apply broadcast_shapes_suffix_l).
    run (broadcast_to_ok q (lead ++ [R; M; M]) HbL) L HsL.
    assert (HnA : norm_axis (S (rank Am)) (-3) = Some (length lead))
      by (unfold rank; rewrite HsAm, rank_app2;
          change (-3)%Z with (- Z.of_nat 3)%Z;
          rewrite norm_axis_neg by lia; f_equal; lia).
    run (expand_dims_ok Am (-3) (length lead) HnA) Ae HsAe.
    rewrite HsAm, firstn_length_app, skipn_length_app in HsAe.
    assert (HbA : broadcast_shapes (shape Ae) (lead ++ [R; M; N])
                  = Some (lead ++ [R; M; N]))
      by (rewrite HsAe; apply broadcast_shapes_stretch).
    run (broadcast_to_ok Ae (lead ++ [R; M; N]) HbA) Ab HsAb.
    replace (lead ++ [R; M; M]) with ((lead ++ [R]) ++ [M; M]) in HsL
      by (now rewrite <- app_assoc).
    replace (lead ++ [R; M; N]) with ((lead ++ [R]) ++ [M; N]) in HsAb
      by (now rewrite <- app_assoc).
    run (matmul_tn_ok L Ab (lead ++ [R]) M M N HsL HsAb) LTA HsLTA.
    assert (HLTA : forall b r c n,
      length b = length lead -> in_range lead b ->
      r < R -> c < M -> n < N ->
      data LTA ((b ++ [r]) ++ [c; n]) = base_lta A q M b r c n).
    { intros b r c n Hlen Hrb Hr0 Hc Hnlt.
      unfold base_lta, rank. rewrite Hq3. cbn [length Nat.eqb].
      unfold LTA. cbn [data].
      rewrite batch_app2, row_of_app2, col_of_app2.
      apply big_sum_ext. intros k Hk. f_equal.
      - unfold L. cbn [data]. rewrite Hq3.
        rewrite <- app_assoc. cbn [app].
        rewrite bidx_suffix_in_range by in_range_solve. reflexivity.
      - unfold Ab. cbn [data]. rewrite HsAe.
        rewrite <- app_assoc. cbn [app].
        rewrite bidx_same_length by (rewrite !length_app; cbn; lia).
        rewrite clamp_app by lia. rewrite (clamp_in_range _ _ Hrb).
        change (clamp [1; M; N] [r; k; n]) with (0 :: clamp [M; N] [k; n]).
        rewrite clamp_in_range by in_range_solve.
        unfold Ae. cbn [data].
        rewrite <- Hlen at 1. rewrite firstn_length_app.
        replace (S (length lead)) with (length (b ++ [0]))
          by (rewrite length_app; cbn; lia).
        replace (b ++ [0; k; n]) with ((b ++ [0]) ++ [k; n])
          by (now rewrite <- app_assoc).
        rewrite skipn_length_app. reflexivity. }
    assert (HnL : norm_axis (rank (tf.square LTA)) (-2)
                  = Some (length (lead ++ [R]))).
    { unfold rank. cbn [tf.square shape]. rewrite HsLTA, rank_app2.
      change (-2)%Z with (- Z.of_nat 2)%Z. rewrite norm_axis_neg by lia.
      f_equal. lia. }
    run (reduce_sum_ok (tf.square LTA) (-2) (length (lead ++ [R])) HnL) C HsC.
    unfold tf.square in HsC. cbn [shape] in HsC. rewrite HsLTA in HsC.
    rewrite firstn_length_app in HsC.
    replace (S (length (lead ++ [R]))) with (length ((lead ++ [R]) ++ [M]))
      in HsC by (rewrite !length_app; cbn; lia).
    replace ((lead ++ [R]) ++ [M; N]) with (((lead ++ [R]) ++ [M]) ++ [N])
      in HsC by (now rewrite <- !app_assoc).
    rewrite skipn_length_app in HsC.
    rewrite <- app_assoc in HsC. cbn [app] in HsC.
    assert (Hb4 : broadcast_shapes (shape V) (shape C)
                  = Some (lead ++ [R; N])).
    { rewrite HsV, HsC, broadcast_shapes_same_length by reflexivity.
      apply zip_dims_refl. }
    run (binop_ok "add"%string sadd V C (lead ++ [R; N]) Hb4) W HsW.
    apply (Hfin W HsW).
    intros b r n Hr. cbv zeta.
    pose proof Hr as Hr'.
    apply in_range_split in Hr'; [|reflexivity].
    destruct Hr' as (Hlen & Hrb & Hr2).
    inversion Hr2 as [|? ? ? ? Hr0 Hr1]; subst.
    inversion Hr1 as [|? ? ? ? Hnlt _]; subst.
    unfold W. cbn [data]. rewrite HsV, HsC.
    rewrite !(bidx_in_range _ _ Hr).
    rewrite (Hdata _ _ _ Hr). f_equal.
    unfold C. cbn [data shape tf.square]. rewrite HsLTA.
    rewrite nth_middle.
    replace (b ++ [r; n]) with ((b ++ [r]) ++ [n])
      by (now rewrite <- app_assoc).
    replace (length (lead ++ [R])) with (length (b ++ [r]))
      by (rewrite !length_app; cbn [length]; lia).
    rewrite firstn_length_app, skipn_length_app.
    apply big_sum_ext. intros c Hc.
    change ((b ++ [r]) ++ [c; n]) with ((b ++ [r]) ++ c :: [n]).
    rewrite !HLTA by assumption. reflexivity.
  - (* rank 2 *)
    cbn [bind negb].
    unfold rank at 1; rewrite Hq2; cbn [length Nat.eqb].
    run (transpose_all_2_ok q M R Hq2) qT HsqT.
    assert (Hnq : norm_axis (S (rank qT)) 2 = Some 2)
      by (unfold rank; rewrite HsqT; reflexivity).
    run (expand_dims_ok qT 2 2 Hnq) qe Hsqe.
    rewrite HsqT in Hsqe; cbn [firstn skipn app] in Hsqe.
    assert (Hbm : broadcast_shapes (shape Am) (shape qe) = Some [R; M; N])
      by (rewrite HsAm, Hsqe, Hlead; apply zip_dims_diag_factor).
    run (binop_ok "mul"%string smul Am qe [R; M; N] Hbm) LTA HsLTA.
    assert (HLTA : forall r c n, r < R -> c < M -> n < N ->
      data LTA ([r] ++ [c; n]) = base_lta A q M [] r c n).
    { intros r c n Hr0 Hc Hnlt.
      unfold base_lta, rank. rewrite Hq2. cbn [length Nat.eqb app].
      unfold LTA. cbn [data]. rewrite HsAm, Hsqe, Hlead. cbn [app].
      replace (bidx [M; N] [r; c; n]) with [c; n]
        by (symmetry; apply (bidx_suffix_in_range [M; N] [r] [c; n]);
            in_range_solve).
      rewrite bidx_same_length by reflexivity.
      change (clamp [R; M; 1] [r; c; n])
        with (clamp ([R; M] ++ [1]) ([r; c] ++ [n])).
      rewrite clamp_app by reflexivity.
      rewrite clamp_in_range by in_range_solve.
      cbn [clamp Nat.eqb app].
      unfold qe, qT. cbn [data firstn skipn app assemble find_pos Nat.eqb
                            option_map nth hd tl].
      reflexivity. }
    assert (HnL : norm_axis (rank (tf.square LTA)) (-2) = Some 1)
      by (unfold rank; cbn [tf.square shape]; rewrite HsLTA; reflexivity).
    run (reduce_sum_ok (tf.square LTA) (-2) 1 HnL) C HsC.
    unfold tf.square in HsC. cbn [shape] in HsC. rewrite HsLTA in HsC.
    cbn [firstn skipn app] in HsC.
    assert (Hb4 : broadcast_shapes (shape V) (shape C)
                  = Some (lead ++ [R; N])).
    { rewrite HsV, HsC, Hlead, broadcast_shapes_same_length by reflexivity.
      apply zip_dims_refl. }
    run (binop_ok "add"%string sadd V C (lead ++ [R; N]) Hb4) W HsW.
    apply (Hfin W HsW).
    intros b r n Hr. cbv zeta.
    pose proof Hr as Hr'.
    apply in_range_split in Hr'; [|reflexivity].
    destruct Hr' as (Hlen & Hrb & Hr2).
    inversion Hr2 as [|? ? ? ? Hr0 Hr1]; subst.
    inversion Hr1 as [|? ? ? ? Hnlt _]; subst.
    assert (Hb : b = []) by (destruct b; [reflexivity | discriminate]).
    unfold W. cbn [data]. rewrite HsV, HsC.
    rewrite (bidx_in_range _ _ Hr).
    rewrite (Hdata _ _ _ Hr). f_equal.
    subst b. cbn [app].
    rewrite bidx_in_range by in_range_solve.
    unfold C. cbn [data shape tf.square firstn skipn app]. rewrite HsLTA.
    cbn [nth].
    apply big_sum_ext. intros c Hc.
    change [r; c; n] with ([r] ++ [c; n]).
    rewrite !HLTA by assumption. reflexivity.
  - cbn [bind negb].
    apply (Hfin V HsV).
    intros b r n Hr. cbv zeta. apply Hdata. exact Hr.
Qed.

End Shapes.
(** C7.  Without [q_sqrt] the variance returned by [base_conditional] is
    the prior-conditioned variance and nothing else: with [A] the projection
    matrix, [Knn - A^T A] for [full_cov] (shape [..., R, N, N]) and [Knn] minus
    the column sums of squares of [A] otherwise (shape [..., N, R]), the same
    for every replica [r].  The call returns for all inputs of the
    documented shapes, with any leading axes on [Kmn]. *)
Theorem C7_variance_without_q_sqrt_is_prior_conditioned :
  forall (Kmn Kmm Knn f : tensor F) (M N R : nat) (lead : list nat)
         (full_cov white : bool),
    shape Kmn = M :: lead ++ [N] ->
    shape Kmm = [M; M] ->
    shape f = [M; R] ->
    shape Knn = (if full_cov then [N; N] else [N]) ->
    exists A fmean fvar,
      base_projection Kmn Kmm = Ok A /\
      shape A = lead ++ [M; N] /\
      base_conditional Kmn Kmm Knn f full_cov None white = Ok (fmean, fvar) /\
      if full_cov
      then
        shape fvar = lead ++ [R; N; N] /\
        forall b r i j,
          in_range (lead ++ [R; N; N]) (b ++ [r; i; j]) ->
          data fvar (b ++ [r; i; j])
          = ssub (data Knn [i; j])
                 (tf.big_sum M (fun m => smul (data A (b ++ [m; i]))
                                              (data A (b ++ [m; j]))))
      else
        shape fvar = lead ++ [N; R] /\
        forall b i r,
          in_range (lead ++ [N; R]) (b ++ [i; r]) ->
          data fvar (b ++ [i; r])
          = ssub (data Knn [i])
                 (tf.big_sum M (fun m => smul (data A (b ++ [m; i]))
                                              (data A (b ++ [m; i])))).
Proof.
  intros Kmn Kmm Knn f M N R lead [|] white HKmn HKmm Hf HKnn.
  - destruct (base_full Kmn Kmm Knn f M N R lead white HKmn HKmm Hf HKnn)
      as (A & fmean & fvar & H).
    exists A, fmean, fvar. tauto.
  - destruct (base_diag Kmn Kmm Knn f M N R lead white HKmn HKmm Hf HKnn)
      as (A & fmean & fvar & H).
    exists A, fmean, fvar. tauto.
Qed.

(** C8.  With [full_cov = True] and a symmetric [Knn], every N x N slice of
    the variance returned by [base_conditional] is symmetric, without
    [q_sqrt] and with either documented form of it.  Only commutativity of
    the scalar multiplication is used. *)
Theorem C8_full_covariance_slices_are_symmetric :
  forall (Kmn Kmm Knn f : tensor F) (M N R : nat) (lead : list nat)
         (white : bool) (q_sqrt : option (tensor F)),
    (forall x y : F, smul x y = smul y x) ->
    shape Kmn = M :: lead ++ [N] ->
    shape Kmm = [M; M] ->
    shape f = [M; R] ->
    shape Knn = [N; N] ->
    symmetric_slices Knn ->
    q_sqrt_documented lead M R q_sqrt ->
    exists fmean fvar,
      base_conditional Kmn Kmm Knn f true q_sqrt white = Ok (fmean, fvar) /\
      shape fvar = lead ++ [R; N; N] /\
      symmetric_slices fvar.
Proof.
  intros Kmn Kmm Knn f M N R lead white q_sqrt Hc HKmn HKmm Hf HKnn Hsym Hq.
  exact (base_symmetric Kmn Kmm Knn f M N R lead white HKmn HKmm Hf Hc
           q_sqrt HKnn Hsym Hq).
Qed.

End Base.

Lemma C7_variance_without_q_sqrt_witness :
  shape Ex.Kmn = 2 :: [] ++ [3]
  /\ shape Ex.Kmm = [2; 2]
  /\ shape Ex.f1 = [2; 1]
  /\ shape Ex.Knn_diag = [3]
  /\ exists A fmean fvar,
       base_projection Ex.Kmn Ex.Kmm = Ok A /\
       shape A = [2; 3] /\
       base_conditional Ex.Kmn Ex.Kmm Ex.Knn_diag Ex.f1 false None true
       = Ok (fmean, fvar) /\
       shape fvar = [3; 1] /\
       forall b i r,
         in_range [3; 1] (b ++ [i; r]) ->
         data fvar (b ++ [i; r])
         = ssub (data Ex.Knn_diag [i])
                (tf.big_sum 2 (fun m => smul (data A (b ++ [m; i]))
                                             (data A (b ++ [m; i])))).
Proof.
  split; [reflexivity|]. split; [reflexivity|].
  split; [reflexivity|]. split; [reflexivity|].
  exact (C7_variance_without_q_sqrt_is_prior_conditioned
           Ex.Kmn Ex.Kmm Ex.Knn_diag Ex.f1 2 3 1 [] false true
           eq_refl eq_refl eq_refl eq_refl).
Defined.

Lemma Knn_full_symmetric : symmetric_slices Ex.Knn_full.
Proof.
  intros pre i j Hr.
  assert (Hp : pre = []).
  { apply in_range_length in Hr. rewrite length_app in Hr. cbn in Hr.
    destruct pre; [reflexivity | cbn in Hr; lia]. }
  subst pre. cbn [app] in *.
  inversion Hr as [|? ? ? ? Hi Hr1]; subst.
  inversion Hr1 as [|? ? ? ? Hj _]; subst.
  destruct i as [|[|[|i]]]; destruct j as [|[|[|j]]]; try lia; reflexivity.
Defined.

Lemma C8_full_covariance_slices_witness :
  (forall x y : Qc, smul x y = smul y x)
  /\ shape Ex.Kmn = 2 :: [] ++ [3]
  /\ shape Ex.Kmm = [2; 2]
  /\ shape Ex.f1 = [2; 1]
  /\ shape Ex.Knn_full = [3; 3]
  /\ symmetric_slices Ex.Knn_full
  /\ q_sqrt_documented [] 2 1 (Some Ex.q_lower)
  /\ exists fmean fvar,
       base_conditional Ex.Kmn Ex.Kmm Ex.Knn_full Ex.f1 true
         (Some Ex.q_lower) false = Ok (fmean, fvar) /\
       shape fvar = [1; 3; 3] /\
       symmetric_slices fvar.
Proof.
  split; [exact Qcmult_comm|].
  split; [reflexivity|]. split; [reflexivity|].
  split; [reflexivity|]. split; [reflexivity|].
  split; [exact Knn_full_symmetric|].
  split; [left; reflexivity|].
  exact (C8_full_covariance_slices_are_symmetric
           Ex.Kmn Ex.Kmm Ex.Knn_full Ex.f1 2 3 1 [] false (Some Ex.q_lower)
           Qcmult_comm eq_refl eq_refl eq_refl eq_refl
           Knn_full_symmetric (or_introl eq_refl)).
Defined.
(** ** The concrete scenario *)

Section Scenario.
Context {F : Type} {SF : Scalar F}.

(** The identities the closed form rests on. *)
Hypothesis sadd_0_l : forall x : F, sadd s0 x = x.
Hypothesis sadd_0_r : forall x : F, sadd x s0 = x.
Hypothesis ssub_0_r : forall x : F, ssub x s0 = x.
Hypothesis smul_0_l : forall x : F, smul s0 x = s0.
Hypothesis smul_0_r : forall x : F, smul x s0 = s0.
Hypothesis smul_1_r : forall x : F, smul x s1 = x.
Hypothesis sdiv_1_r : forall x : F, sdiv x s1 = x.
Hypothesis ssqrt_1 : ssqrt s1 = s1.

(** C6.  The concrete scenario: M = 2, N = 3, [Kmm] the identity, unit
    prior variances, [function = [[1], [0]]], no [q_sqrt], whitened, diagonal
    covariance.  The mean is the first row of [Kmn] and the variance is
    [1 - (Kmn[0,n]^2 + Kmn[1,n]^2)], for any entries of [Kmn], in every scalar
    type where 0 and 1 are neutral, 0 absorbs, and the square root of 1
    is 1. *)
Theorem C6_identity_covariance_closed_form : forall k00 k01 k02 k10 k11 k12 : F,
  let r := base_conditional (of_list s0 [2; 3] [k00; k01; k02; k10; k11; k12])
                            (of_list s0 [2; 2] [s1; s0; s0; s1])
                            (of_list s0 [3] [s1; s1; s1])
                            (of_list s0 [2; 1] [s1; s0])
                            false None true in
  option_map contents (fmean_of r) = Some ([3; 1], [k00; k01; k02])
  /\ option_map contents (fvar_of r)
     = Some ([3; 1],
             [ssub s1 (sadd (smul k00 k00) (smul k10 k10));
              ssub s1 (sadd (smul k01 k01) (smul k11 k11));
              ssub s1 (sadd (smul k02 k02) (smul k12 k12))]).
Proof.
  intros. subst r. split.
  - cbv - [sadd ssub smul sdiv ssqrt s0 s1].
    repeat (rewrite ?sadd_0_l, ?sadd_0_r, ?ssub_0_r, ?smul_0_l, ?smul_0_r,
             ?smul_1_r, ?sdiv_1_r, ?ssqrt_1).
    reflexivity.
  - cbv - [sadd ssub smul sdiv ssqrt s0 s1].
    repeat (rewrite ?sadd_0_l, ?sadd_0_r, ?ssub_0_r, ?smul_0_l, ?smul_0_r,
             ?smul_1_r, ?sdiv_1_r, ?ssqrt_1).
    reflexivity.
Qed.
End Scenario.

Lemma Qc_sub_0_r : forall x : Qc, ssub x s0 = x.
Proof. intros x. cbn. ring. Qed.

Lemma Qc_div_1_r : forall x : Qc, sdiv x s1 = x.
Proof.
  intros x. cbn. field. discriminate.
Qed.

Lemma Qc_sqrt_1 : ssqrt (s1 : Qc) = s1.
Proof. apply Qc_is_canon. reflexivity. Qed.

Lemma C6_identity_covariance_witness :
  (forall x : Qc, sadd s0 x = x)
  /\ (forall x : Qc, sadd x s0 = x)
  /\ (forall x : Qc, ssub x s0 = x)
  /\ (forall x : Qc, smul s0 x = s0)
  /\ (forall x : Qc, smul x s0 = s0)
  /\ (forall x : Qc, smul x s1 = x)
  /\ (forall x : Qc, sdiv x s1 = x)
  /\ ssqrt (s1 : Qc) = s1
  /\ option_map contents
       (fmean_of (base_conditional
                    (of_list s0 [2; 3]
                       (map (fun z => Q2Qc (inject_Z z)) [1; 2; 3; 4; 5; 6]%Z))
                    (of_list s0 [2; 2] [s1; s0; s0; s1])
                    (of_list s0 [3] [s1; s1; s1])
                    (of_list s0 [2; 1] [s1; s0])
                    false None true))
     = Some ([3; 1], map (fun z => Q2Qc (inject_Z z)) [1; 2; 3]%Z).
Proof.
  split; [exact Qcplus_0_l|]. split; [exact Qcplus_0_r|].
  split; [exact Qc_sub_0_r|]. split; [exact Qcmult_0_l|].
  split; [exact Qcmult_0_r|]. split; [exact Qcmult_1_r|].
  split; [exact Qc_div_1_r|]. split; [exact Qc_sqrt_1|].
  exact (proj1 (C6_identity_covariance_closed_form
                  Qcplus_0_l Qcplus_0_r Qc_sub_0_r Qcmult_0_l Qcmult_0_r
                  Qcmult_1_r Qc_div_1_r Qc_sqrt_1
                  (Q2Qc (inject_Z 1)) (Q2Qc (inject_Z 2)) (Q2Qc (inject_Z 3))
                  (Q2Qc (inject_Z 4)) (Q2Qc (inject_Z 5)) (Q2Qc (inject_Z 6)))).
Defined.
(** ** Row-major offsets *)

Lemma ravel_acc_shift : forall s idx acc,
  length idx = length s ->
  ravel_acc acc s idx = acc * prod s + ravel_acc 0 s idx.
Proof.
  induction s as [|d s IH]; intros idx acc Hl; destruct idx as [|i idx];
    cbn in *; try lia.
  rewrite (IH idx (acc * d + i)) by lia.
  rewrite (IH idx i) by lia. fold (prod s). ring.
Qed.

Lemma ravel_lt : forall s idx, in_range s idx -> ravel s idx < prod s.
Proof.
  unfold in_range, ravel. intros s idx H.
  induction H as [|i d idx s Hi H IH]; cbn; [lia|].
  rewrite ravel_acc_shift by (eapply Forall2_length; eauto).
  fold (prod s). nia.
Qed.

Lemma unravel_ravel : forall s idx,
  in_range s idx -> unravel s (ravel s idx) = idx.
Proof.
  unfold ravel. intros s idx H.
  induction H as [|i d idx s Hi H IH]; cbn; [reflexivity|].
  pose proof (ravel_lt s idx H) as Hlt. unfold ravel in Hlt.
  rewrite ravel_acc_shift by (eapply Forall2_length; eauto).
  fold (prod s).
  assert (Hp : prod s <> 0) by lia.
  f_equal.
  - rewrite Nat.div_add_l by assumption.
    rewrite Nat.div_small by assumption. lia.
  - rewrite Nat.add_comm, Nat.Div0.mod_add.
    rewrite Nat.mod_small by assumption. exact IH.
Qed.

Section Kernels.
Context {F : Type} {SF : Scalar F}.

Lemma fwd_sub_length : forall (l : nat -> nat -> F) b k,
  length (tf.fwd_sub l b k) = k.
Proof.
  induction k; cbn; [reflexivity|].
  rewrite length_app, IHk. cbn. lia.
Qed.

Lemma fwd_sub_ext : forall (l l' : nat -> nat -> F) b b' k,
  (forall i c, i < k -> c <= i -> l i c = l' i c) ->
  (forall i, i < k -> b i = b' i) ->
  tf.fwd_sub l b k = tf.fwd_sub l' b' k.
Proof.
  induction k; intros Hl Hb; cbn; [reflexivity|].
  rewrite IHk by (intros; first [apply Hl | apply Hb]; lia).
  rewrite (Hb k) by lia. rewrite (Hl k k) by lia.
  f_equal. f_equal. f_equal. f_equal.
  apply big_sum_ext. intros c Hc. rewrite (Hl k c) by lia. reflexivity.
Qed.

Lemma solve_lower_ext : forall n (m m' : nat -> nat -> F) b b' i,
  (forall r c, r < n -> c <= r -> m r c = m' r c) ->
  (forall r, r < n -> b r = b' r) ->
  tf.solve_mat true n m b i = tf.solve_mat true n m' b' i.
Proof.
  intros. unfold tf.solve_mat. now rewrite (fwd_sub_ext m m' b b' n).
Qed.

Lemma chol_row_ext : forall (a a' : nat -> nat -> F) rows i j,
  (forall c, c < j -> a i c = a' i c) ->
  tf.chol_row a rows i j = tf.chol_row a' rows i j.
Proof.
  induction j; intros H; cbn; [reflexivity|].
  rewrite IHj by (intros; apply H; lia).
  rewrite (H j) by lia. reflexivity.
Qed.

Lemma chol_rows_ext : forall (a a' : nat -> nat -> F) k,
  (forall i j, i < k -> j <= i -> a i j = a' i j) ->
  tf.chol_rows a k = tf.chol_rows a' k.
Proof.
  induction k; intros H; cbn; [reflexivity|].
  rewrite IHk by (intros; apply H; lia).
  rewrite (chol_row_ext a a' (tf.chol_rows a' k) k k)
    by (intros; apply H; lia).
  rewrite (H k k) by lia. reflexivity.
Qed.

Lemma chol_mat_ext : forall n (a a' : nat -> nat -> F) i j,
  (forall r c, r < n -> c <= r -> a r c = a' r c) ->
  tf.chol_mat n a i j = tf.chol_mat n a' i j.
Proof.
  intros. unfold tf.chol_mat. now rewrite (chol_rows_ext a a' n).
Qed.

End Kernels.

(** ** More operations: when they succeed *)

Section MoreOps.
Context {F : Type} {SF : Scalar F}.

Lemma transpose_ok : forall (a : tensor F) perm,
  is_perm (rank a) perm = true ->
  tf.transpose a perm
  = Ok (mkT (map (fun p => nth p (shape a) 0) perm)
            (fun idx => data a (assemble (seq 0 (rank a)) perm idx []))).
Proof. intros a perm H. unfold tf.transpose. rewrite H. reflexivity. Qed.

Lemma reshape_ok : forall (a : tensor F) s,
  prod (shape a) = prod s ->
  tf.reshape a s
  = Ok (mkT s (fun idx => data a (unravel (shape a) (ravel s idx)))).
Proof.
  intros a s H. unfold tf.reshape. rewrite H, Nat.eqb_refl. reflexivity.
Qed.

Lemma reduce_sum_01_ok : forall (a : tensor F) d0 d1 s,
  shape a = d0 :: d1 :: s ->
  tf.reduce_sum_01 a
  = Ok (mkT s (fun idx => tf.sum_idx [d0; d1] (fun c => data a (c ++ idx)))).
Proof. intros a d0 d1 s H. unfold tf.reduce_sum_01. rewrite H. reflexivity. Qed.

Lemma matmul_nt_ok : forall (a b : tensor F) l m k n,
  shape a = l ++ [m; k] -> shape b = l ++ [n; k] ->
  tf.matmul a b false true
  = Ok (mkT (l ++ [m; n])
            (fun idx => tf.big_sum k (fun c =>
               smul (data a (batch idx ++ [row_of idx; c]))
                    (data b (batch idx ++ [col_of idx; c]))))).
Proof.
  intros a b l m k n Ha Hb. unfold tf.matmul, rank. rewrite Ha, Hb.
  rewrite leb_2_app2, !rank_app2, Nat.eqb_refl, !batch_app2, list_eqb_refl,
    !row_of_app2, !col_of_app2, Nat.eqb_refl.
  reflexivity.
Qed.

Lemma tensordot_ok : forall (a b : tensor F) axes_a axes_b,
  forallb (fun k => k <? rank a) axes_a
  && forallb (fun k => k <? rank b) axes_b
  && list_eqb (map (fun k => nth k (shape a) 0) axes_a)
              (map (fun k => nth k (shape b) 0) axes_b) = true ->
  tf.tensordot a b axes_a axes_b
  = Ok (mkT (map (fun k => nth k (shape a) 0) (free_axes (rank a) axes_a)
               ++ map (fun k => nth k (shape b) 0) (free_axes (rank b) axes_b))
            (fun idx =>
               tf.sum_idx (map (fun k => nth k (shape a) 0) axes_a) (fun c =>
                 smul (data a (assemble (seq 0 (rank a)) axes_a c
                                 (firstn (length (free_axes (rank a) axes_a)) idx)))
                      (data b (assemble (seq 0 (rank b)) axes_b c
                                 (skipn (length (free_axes (rank a) axes_a)) idx)))))).
Proof. intros a b axa axb H. unfold tf.tensordot. rewrite H. reflexivity. Qed.

Lemma matrix_band_part_ok : forall (a : tensor F) lo up,
  2 <= rank a ->
  tf.matrix_band_part a lo up
  = Ok (mkT (shape a)
            (fun idx => if tf.in_band lo up (row_of idx) (col_of idx)
                        then data a idx else s0)).
Proof.
  intros a lo up H. unfold tf.matrix_band_part.
  apply Nat.leb_le in H. rewrite H. reflexivity.
Qed.

Lemma index0_ok : forall (a : tensor F) n s,
  shape a = S n :: s ->
  tf.index0 a = Ok (mkT s (fun idx => data a (0 :: idx))).
Proof. intros a n s H. unfold tf.index0. rewrite H. reflexivity. Qed.

Lemma tile_ok : forall (a : tensor F) multiples,
  length multiples = rank a ->
  tf.tile a multiples
  = Ok (mkT (map (fun p => fst p * snd p) (combine (shape a) multiples))
            (fun idx => data a (map (fun p => fst p mod snd p)
                                     (combine idx (shape a))))).
Proof.
  intros a m H. unfold tf.tile. rewrite H, Nat.eqb_refl. reflexivity.
Qed.

Lemma newaxis0_slices_ok : forall (a : tensor F) n,
  n <= rank a -> tf.newaxis0_slices n a = Ok (tf.newaxis0 a).
Proof.
  intros a n H. unfold tf.newaxis0_slices. apply Nat.leb_le in H.
  rewrite H. reflexivity.
Qed.

Lemma big_sum_1 : forall g : nat -> F, tf.big_sum 1 g = sadd s0 (g 0).
Proof. reflexivity. Qed.

End MoreOps.

(** ** The interdomain routine with one latent process and one output *)

Section Interdomain.
Context {F : Type} {SF : Scalar F}.
Variables (Kmn4 Kmm3 : tensor F) (M N : nat).
Hypothesis HKmn4 : shape Kmn4 = [M; 1; N; 1].
Hypothesis HKmm3 : shape Kmm3 = [1; M; M].

Lemma interdomain_prefix :
  exists Lm Kt Kr A Ar,
    tf.cholesky Kmm3 = Ok Lm /\
    tf.transpose Kmn4 [1; 0; 2; 3] = Ok Kt /\
    tf.reshape Kt [1; M; N * 1] = Ok Kr /\
    tf.triangular_solve Lm Kr true = Ok A /\
    tf.reshape A [1; M; N; 1] = Ok Ar /\
    shape A = [1; M; N * 1] /\
    shape Ar = [1; M; N; 1] /\
    (forall m n, m < M -> n < N ->
       data A [0; m; n]
       = projection_entry (fun i j => data Kmm3 [0; i; j])
                          (fun i => data Kmn4 [i; 0; n; 0]) M m) /\
    (forall m n, m < M -> n < N -> data Ar [0; m; n; 0] = data A [0; m; n]).
Proof.
  pose proof (cholesky_ok Kmm3 [1] M HKmm3) as ELm.
  set (Lm := mkT _ _) in ELm.
  assert (Hperm : is_perm (rank Kmn4) [1; 0; 2; 3] = true)
    by (unfold rank; rewrite HKmn4; reflexivity).
  pose proof (transpose_ok Kmn4 [1; 0; 2; 3] Hperm) as EKt.
  rewrite HKmn4 in EKt. cbn [map nth] in EKt.
  set (Kt := mkT _ _) in EKt.
  assert (Hp1 : prod (shape Kt) = prod [1; M; N * 1]) by (cbn; ring).
  pose proof (reshape_ok Kt [1; M; N * 1] Hp1) as EKr.
  set (Kr := mkT _ _) in EKr.
  pose proof (triangular_solve_ok Lm Kr [1] M (N * 1) true eq_refl eq_refl) as EA.
  set (A := mkT _ _) in EA.
  assert (Hp2 : prod (shape A) = prod [1; M; N; 1]) by (cbn; ring).
  pose proof (reshape_ok A [1; M; N; 1] Hp2) as EAr.
  set (Ar := mkT _ _) in EAr.
  exists Lm, Kt, Kr, A, Ar.
  repeat (split; [assumption || reflexivity|]).
  split.
  - intros m n Hm Hn. unfold projection_entry, A. cbn [data]. simpl_idx.
    apply solve_lower_ext.
    + intros r c Hr Hc. reflexivity.
    + intros r Hr. unfold Kr, Kt. cbn [data shape].
      replace (ravel [1; M; N * 1] [0; r; n])
        with (ravel [1; M; N; 1] [0; r; n; 0]) by (cbn; ring).
      rewrite unravel_ravel by in_range_solve.
      unfold rank. rewrite HKmn4. reflexivity.
  - intros m n Hm Hn. unfold Ar, A. cbn [data shape].
    replace (ravel [1; M; N; 1] [0; m; n; 0])
      with (ravel [1; M; N * 1] [0; m; n]) by (cbn; ring).
    rewrite unravel_ravel by in_range_solve. reflexivity.
Qed.


Lemma zip_dims_unit_cols : forall c,
  zip_dims [1; M; c] [1; M; 1] = Some [1; M; c].
Proof.
  intros c. cbn -[Nat.eqb].
  destruct (Nat.eqb_spec c 1); subst; rewrite ?Nat.eqb_refl; reflexivity.
Qed.

(** The sum-of-squares stage of the diagonal branches: used for the base
    variance ([op] is subtraction from [Knn]) and for the variational term
    ([op] is addition to the variance). *)
Lemma interdomain_sumsq : forall name (op : F -> F -> F) (X0 T : tensor F),
  shape T = [1; M; N * 1] ->
  shape X0 = [N; 1] ->
  exists ssq t X,
    tf.reduce_sum_01 (tf.square T) = Ok ssq /\
    tf.reshape ssq [N; 1] = Ok t /\
    tf.binop name op X0 t = Ok X /\
    shape X = [N; 1] /\
    forall n, n < N ->
      data X [n; 0]
      = op (data X0 [n; 0])
           (sadd s0 (tf.big_sum M (fun j => smul (data T [0; j; n])
                                                 (data T [0; j; n])))).
Proof.
  intros name op X0 T HT HX0.
  pose proof (reduce_sum_01_ok (tf.square T) 1 M [N * 1] HT) as E1.
  set (ssq := mkT _ _) in E1.
  assert (Hp : prod (shape ssq) = prod [N; 1]) by (cbn; ring).
  pose proof (reshape_ok ssq [N; 1] Hp) as E2.
  set (t := mkT _ _) in E2.
  assert (Hb : broadcast_shapes (shape X0) (shape t) = Some [N; 1])
    by (rewrite HX0; apply (broadcast_shapes_suffix_l [] [N; 1])).
  pose proof (binop_ok name op X0 t [N; 1] Hb) as E3.
  set (X := mkT _ _) in E3.
  exists ssq, t, X.
  repeat (split; [assumption || reflexivity|]).
  intros n Hn. unfold X. cbn [data shape]. rewrite HX0.
  rewrite !bidx_in_range by in_range_solve.
  f_equal. unfold t. cbn [data shape].
  replace (ravel [N; 1] [n; 0]) with (ravel [N * 1] [n]) by (cbn; ring).
  rewrite unravel_ravel by in_range_solve.
  reflexivity.
Qed.


Lemma transpose_all_4_ok : forall (a : tensor F) d0 d1 d2 d3,
  shape a = [d0; d1; d2; d3] ->
  tf.transpose_all a
  = Ok (mkT [d3; d2; d1; d0]
            (fun idx => data a (assemble [0; 1; 2; 3] [3; 2; 1; 0] idx []))).
Proof.
  intros a d0 d1 d2 d3 H. unfold tf.transpose_all, tf.transpose, rank.
  rewrite H. reflexivity.
Qed.

(** The full-covariance base variance of the interdomain routine. *)
Lemma interdomain_var_full : forall (Ar Knn' : tensor F),
  shape Ar = [1; M; N; 1] ->
  shape Knn' = [1; N; N] ->
  exists tr At t X,
    tf.transpose_all Ar = Ok tr /\
    tf.reshape tr [1; N; M * 1] = Ok At /\
    tf.matmul At At false true = Ok t /\
    tf.binop "sub" ssub Knn' t = Ok X /\
    shape X = [1; N; N] /\
    forall i j, i < N -> j < N ->
      data X [0; i; j]
      = ssub (data Knn' [0; i; j])
             (tf.big_sum M (fun k => smul (data Ar [0; k; i; 0])
                                          (data Ar [0; k; j; 0]))).
Proof.
  intros Ar Knn' HAr HKnn.
  pose proof (transpose_all_4_ok Ar 1 M N 1 HAr) as E1.
  set (tr := mkT _ _) in E1.
  assert (Hp : prod (shape tr) = prod [1; N; M * 1]) by (cbn; ring).
  pose proof (reshape_ok tr [1; N; M * 1] Hp) as E2.
  set (At := mkT _ _) in E2.
  pose proof (matmul_nt_ok At At [1] N (M * 1) N eq_refl eq_refl) as E3.
  set (t := mkT _ _) in E3.
  assert (Hb : broadcast_shapes (shape Knn') (shape t) = Some [1; N; N])
    by (rewrite HKnn; apply (broadcast_shapes_suffix_l [] [1; N; N])).
  pose proof (binop_ok "sub"%string ssub Knn' t [1; N; N] Hb) as E4.
  set (X := mkT _ _) in E4.
  exists tr, At, t, X.
  repeat (split; [assumption || reflexivity|]).
  intros i j Hi Hj. unfold X. cbn [data shape]. rewrite HKnn.
  rewrite !bidx_in_range by in_range_solve.
  f_equal. unfold t. cbn [data]. simpl_idx.
  rewrite Nat.mul_1_r.
  apply big_sum_ext. intros k Hk.
  assert (HAt : forall a, a < N ->
            data At [0; a; k] = data Ar [0; k; a; 0]).
  { intros a Ha. unfold At. cbn [data shape].
    replace (ravel [1; N; M * 1] [0; a; k])
      with (ravel [1; N; M; 1] [0; a; k; 0]) by (cbn; ring).
    rewrite unravel_ravel by in_range_solve. reflexivity. }
  rewrite !HAt by assumption. reflexivity.
Qed.

(** The mean of the interdomain routine. *)
Lemma interdomain_mean : forall (Ar f : tensor F),
  shape Ar = [1; M; N; 1] ->
  shape f = [M; 1] ->
  exists fmean,
    tf.tensordot Ar f [1; 0] [0; 1] = Ok fmean /\
    shape fmean = [N; 1] /\
    forall n,
      data fmean [n; 0]
      = tf.big_sum M (fun c => sadd s0 (smul (data Ar [0; c; n; 0])
                                             (data f [c; 0]))).
Proof.
  intros Ar f HAr Hf.
  assert (Hc : forallb (fun k => k <? rank Ar) [1; 0]
               && forallb (fun k => k <? rank f) [0; 1]
               && list_eqb (map (fun k => nth k (shape Ar) 0) [1; 0])
                           (map (fun k => nth k (shape f) 0) [0; 1]) = true).
  { unfold rank. rewrite HAr, Hf. cbn -[Nat.eqb].
    rewrite !Nat.eqb_refl. reflexivity. }
  pose proof (tensordot_ok Ar f [1; 0] [0; 1] Hc) as E.
  unfold rank in E. rewrite HAr, Hf in E.
  cbn [map nth free_axes seq filter existsb negb Nat.eqb orb length app] in E.
  set (fmean := mkT _ _) in E.
  exists fmean. split; [exact E|]. split; [reflexivity|].
  intros n. reflexivity.
Qed.

Lemma in_band_lower : forall c i, tf.in_band (-1) 0 c i = (i <=? c).
Proof.
  intros c i. unfold tf.in_band. cbn [Z.ltb Z.compare orb andb].
  destruct (Nat.leb_spec i c).
  - apply Z.leb_le. lia.
  - apply Z.leb_gt. lia.
Qed.

(** [q_sqrt^T A] for a rank-3 factor, upper triangle masked. *)
Lemma interdomain_lta_full_factor : forall (q A : tensor F),
  shape q = [1; M; M] ->
  shape A = [1; M; N * 1] ->
  exists Lf LTA,
    tf.matrix_band_part q (-1) 0 = Ok Lf /\
    tf.matmul Lf A true false = Ok LTA /\
    shape LTA = [1; M; N * 1] /\
    forall i n,
      data LTA [0; i; n]
      = tf.big_sum M (fun c => smul (if i <=? c then data q [0; c; i] else s0)
                                    (data A [0; c; n])).
Proof.
  intros q A Hq HA.
  assert (H2 : 2 <= rank q) by (unfold rank; rewrite Hq; cbn; lia).
  pose proof (matrix_band_part_ok q (-1) 0 H2) as E1.
  rewrite Hq in E1. set (Lf := mkT _ _) in E1.
  pose proof (matmul_tn_ok Lf A [1] M M (N * 1) eq_refl HA) as E2.
  set (LTA := mkT _ _) in E2.
  exists Lf, LTA.
  repeat (split; [assumption || reflexivity|]).
  intros i n. unfold LTA. cbn [data]. simpl_idx.
  apply big_sum_ext. intros c Hc.
  unfold Lf. cbn [data]. simpl_idx. rewrite in_band_lower. reflexivity.
Qed.

(** [q_sqrt^T A] for a diagonal (rank-2) factor. *)
Lemma interdomain_lta_diag_factor : forall (q A : tensor F),
  shape q = [M; 1] ->
  shape A = [1; M; N * 1] ->
  exists qT LTA,
    tf.transpose_all q = Ok qT /\
    tf.binop "mul" smul A (tf.newaxis_last qT) = Ok LTA /\
    shape LTA = [1; M; N * 1] /\
    forall m n, m < M -> n < N ->
      data LTA [0; m; n] = smul (data A [0; m; n]) (data q [m; 0]).
Proof.
  intros q A Hq HA.
  pose proof (transpose_all_2_ok q M 1 Hq) as E1.
  set (qT := mkT _ _) in E1.
  assert (Hb : broadcast_shapes (shape A) (shape (tf.newaxis_last qT))
               = Some [1; M; N * 1]).
  { rewrite HA. cbn [tf.newaxis_last shape qT app].
    rewrite broadcast_shapes_same_length by reflexivity.
    apply zip_dims_unit_cols. }
  pose proof (binop_ok "mul"%string smul A (tf.newaxis_last qT)
                [1; M; N * 1] Hb) as E2.
  set (LTA := mkT _ _) in E2.
  exists qT, LTA.
  repeat (split; [assumption || reflexivity|]).
  intros m n Hm Hn. unfold LTA. cbn [data]. rewrite HA.
  rewrite bidx_in_range by in_range_solve.
  f_equal.
  cbn [tf.newaxis_last shape data qT app].
  rewrite bidx_same_length by reflexivity.
  change (clamp [1; M; 1] [0; m; n])
    with (clamp ([1; M] ++ [1]) ([0; m] ++ [n])).
  rewrite clamp_app by reflexivity.
  rewrite clamp_in_range by in_range_solve.
  reflexivity.
Qed.

(** The full-covariance variational term of the interdomain routine. *)
Lemma interdomain_add_full : forall (LTA X : tensor F),
  shape LTA = [1; M; N * 1] ->
  shape X = [1; N; N] ->
  exists r LTAr c W,
    tf.reshape LTA [1 * M; N; 1] = Ok r /\
    tf.transpose r [2; 0; 1] = Ok LTAr /\
    tf.matmul LTAr LTAr true false = Ok c /\
    tf.binop "add" sadd X c = Ok W /\
    shape W = [1; N; N] /\
    forall i j, i < N -> j < N ->
      data W [0; i; j]
      = sadd (data X [0; i; j])
             (tf.big_sum M (fun k => smul (data LTA [0; k; i])
                                          (data LTA [0; k; j]))).
Proof.
  intros LTA X HLTA HX.
  assert (Hp : prod (shape LTA) = prod [1 * M; N; 1])
    by (rewrite HLTA; cbn; ring).
  pose proof (reshape_ok LTA [1 * M; N; 1] Hp) as E1.
  set (r := mkT _ _) in E1.
  assert (Hperm : is_perm (rank r) [2; 0; 1] = true) by reflexivity.
  pose proof (transpose_ok r [2; 0; 1] Hperm) as E2.
  cbn [shape r map nth] in E2.
  set (LTAr := mkT _ _) in E2.
  pose proof (matmul_tn_ok LTAr LTAr [1] (1 * M) N N eq_refl eq_refl) as E3.
  set (c := mkT _ _) in E3.
  assert (Hb : broadcast_shapes (shape X) (shape c) = Some [1; N; N])
    by (rewrite HX; apply (broadcast_shapes_suffix_l [] [1; N; N])).
  pose proof (binop_ok "add"%string sadd X c [1; N; N] Hb) as E4.
  set (W := mkT _ _) in E4.
  exists r, LTAr, c, W.
  repeat (split; [assumption || reflexivity|]).
  intros i j Hi Hj. unfold W. cbn [data shape]. rewrite HX.
  rewrite !bidx_in_range by in_range_solve.
  f_equal. unfold c. cbn [data]. simpl_idx.
  rewrite Nat.mul_1_l.
  apply big_sum_ext. intros k Hk.
  assert (Hr : forall a, a < N -> data LTAr [0; k; a] = data LTA [0; k; a]).
  { intros a Ha. unfold LTAr, r. cbn [data shape]. rewrite HLTA.
    cbn [rank shape length seq assemble find_pos Nat.eqb option_map nth].
    replace (ravel [1 * M; N; 1] [k; a; 0])
      with (ravel [1; M; N * 1] [0; k; a]) by (cbn; ring).
    rewrite unravel_ravel by in_range_solve. reflexivity. }
  rewrite !Hr by assumption. reflexivity.
Qed.

End Interdomain.


(** * Reduction to the single-output conditional

    With one latent process and one output the multi-output routines take
    the data of [base_conditional] with axes of size 1 added.  For the
    whitened representation their results are compared with the result of
    [base_conditional], element by element. *)

Section Reduction.
Context {F : Type} {SF : Scalar F}.

Hypothesis sadd_0_l : forall x : F, sadd s0 x = x.

Variables (Kmn Kmm f Kmn4 Kmm3 : tensor F) (M N : nat).
Hypothesis HKmn : shape Kmn = [M; N].
Hypothesis HKmm : shape Kmm = [M; M].
Hypothesis Hf : shape f = [M; 1].
Hypothesis HKmn4 : with_unit_axes Kmn4 Kmn [M; 1; N; 1] [0; 2].
Hypothesis HKmm3 : with_unit_axes Kmm3 Kmm [1; M; M] [1; 2].

Lemma q_sqrt_single_documented : forall q_sqrt,
  q_sqrt_single M q_sqrt -> q_sqrt_documented [] M 1 q_sqrt.
Proof.
  intros [q|] H; cbn in *; [|exact I].
  destruct H as [[H _] | H]; [left | right]; auto.
Qed.

(** The projection matrix of [base_conditional] for a rank-2 [Kmn], entry
    by entry. *)
Lemma base_projection_rank2 : forall A,
  base_projection Kmn Kmm = Ok A ->
  forall m n, m < M -> n < N ->
    data A [m; n]
    = projection_entry (fun i j => data Kmm [i; j])
                       (fun i => data Kmn [i; n]) M m.
Proof.
  intros A. unfold base_projection, rank. rewrite HKmn.
  cbn [length Nat.sub seq app].
  pose proof (transpose_move_ok Kmn M [] N HKmn) as EKt.
  cbn [seq length app Nat.add] in EKt. rewrite EKt. clear EKt.
  cbn [bind shape app length].
  rewrite (cholesky_ok Kmm [] M HKmm). cbn [bind shape app].
  rewrite broadcast_to_ok
    by (cbn [shape]; apply (broadcast_shapes_suffix_l [] [M; M])).
  cbn [bind]. unfold batch at 1. cbn [length Nat.sub firstn app].
  erewrite (triangular_solve_ok _ _ [] M N true) by reflexivity.
  intros E m n Hm Hn. injection E as <-. cbn [data]. simpl_idx.
  unfold projection_entry. apply solve_lower_ext.
  - intros r c Hr Hc. rewrite bidx_in_range by in_range_solve.
    simpl_idx. reflexivity.
  - intros r Hr. reflexivity.
Qed.

Lemma interdomain_projection_matches : forall Ab A,
  base_projection Kmn Kmm = Ok Ab ->
  (forall m n, m < M -> n < N ->
     data A [0; m; n]
     = projection_entry (fun i j => data Kmm3 [0; i; j])
                        (fun i => data Kmn4 [i; 0; n; 0]) M m) ->
  forall m n, m < M -> n < N -> data A [0; m; n] = data Ab [m; n].
Proof.
  intros Ab A EAb HA m n Hm Hn.
  rewrite HA by assumption.
  rewrite (base_projection_rank2 Ab EAb m n Hm Hn).
  unfold projection_entry. apply solve_lower_ext.
  - intros r c Hr Hc. apply chol_mat_ext. intros i j Hi Hj.
    destruct HKmm3 as [_ H]. rewrite H by in_range_solve. reflexivity.
  - intros r Hr. destruct HKmn4 as [_ H].
    rewrite H by in_range_solve. reflexivity.
Qed.


Ltac use_stage H :=
  rewrite H; cbn [bind].

Lemma in_range_2_inv : forall a b idx,
  in_range [a; b] idx -> exists i j, idx = [i; j] /\ i < a /\ j < b.
Proof.
  intros a b idx H.
  inversion H as [|i ? idx1 ? Hi H1]; subst.
  inversion H1 as [|j ? idx2 ? Hj H2]; subst.
  inversion H2; subst. exists i, j. auto.
Qed.

Lemma in_range_3_inv : forall a b c idx,
  in_range [a; b; c] idx ->
  exists i j k, idx = [i; j; k] /\ i < a /\ j < b /\ k < c.
Proof.
  intros a b c idx H.
  inversion H as [|i ? idx1 ? Hi H1]; subst.
  apply in_range_2_inv in H1. destruct H1 as (j & k & -> & Hj & Hk).
  exists i, j, k. auto.
Qed.

Lemma interdomain_matches_base_diag : forall (Knn Knn' : tensor F) q_sqrt,
  shape Knn = [N] ->
  with_unit_axes Knn' Knn [N; 1] [0] ->
  q_sqrt_single M q_sqrt ->
  same_result
    (independent_interdomain_conditional Kmn4 Kmm3 Knn' f
       false false q_sqrt true)
    (base_conditional Kmn Kmm Knn f false q_sqrt true).
Proof.
  intros Knn Knn' q_sqrt HKnn [HsKnn' HdKnn'] Hq.
  destruct (base_whitened_diag Kmn Kmm Knn f M N 1 [] true
              HKmn HKmm Hf q_sqrt eq_refl HKnn
              (q_sqrt_single_documented q_sqrt Hq))
    as (Ab & fmean & fvar & EAb & HsAb & Eb & Hsm & Hdm & Hsv & Hdv).
  rewrite Eb. clear Eb.
  assert (Hdm' : forall n, n < N ->
    data fmean [n; 0]
    = tf.big_sum M (fun c => smul (data Ab [c; n]) (data f [c; 0])))
    by (intros n Hn; apply (Hdm [] n 0); in_range_solve).
  assert (Hdv' : forall n, n < N ->
    data fvar [n; 0]
    = let V := ssub (data Knn [n])
                 (tf.big_sum M (fun m => smul (data Ab [m; n])
                                              (data Ab [m; n]))) in
      match q_sqrt with
      | None => V
      | Some q =>
          sadd V (tf.big_sum M (fun c => smul (base_lta Ab q M [] 0 c n)
                                              (base_lta Ab q M [] 0 c n)))
      end)
    by (intros n Hn; apply (Hdv [] n 0); in_range_solve).
  clear Hdm Hdv.
  destruct HKmn4 as [Hs4 _]. destruct HKmm3 as [Hs3 _].
  destruct (interdomain_prefix Kmn4 Kmm3 M N Hs4 Hs3)
    as (Lm & Kt & Kr & A & Ar & ELm & EKt & EKr & EA & EAr
        & HsA & HsAr & HdA & HdAr).
  pose proof (interdomain_projection_matches Ab A EAb HdA) as K1.
  unfold independent_interdomain_conditional, tf.sub, tf.add, tf.mul.
  rewrite Hs4. cbn [unpack4 bind].
  use_stage ELm. use_stage EKt. use_stage EKr. use_stage EA. use_stage EAr.
  destruct (interdomain_sumsq M N "sub"%string ssub Knn' A HsA HsKnn')
    as (ssq & t & X & E1 & E2 & E3 & HsX & HdX).
  use_stage E1. use_stage E2. use_stage E3.
  cbn [negb bind].
  destruct (interdomain_mean M N Ar f HsAr Hf) as (m & Em & Hsmi & Hdmi).
  use_stage Em.
  assert (Hmean : teq m fmean).
  { split; [rewrite Hsmi, Hsm; reflexivity|].
    intros idx Hr. rewrite Hsmi in Hr.
    apply in_range_2_inv in Hr. destruct Hr as (n & r & -> & Hn & Hr).
    assert (r = 0) by lia. subst r.
    rewrite Hdmi. rewrite Hdm' by assumption.
    apply big_sum_ext. intros c Hc.
    rewrite sadd_0_l, HdAr, K1 by assumption. reflexivity. }
  assert (HV : forall n, n < N ->
    data X [n; 0]
    = ssub (data Knn [n])
           (tf.big_sum M (fun j => smul (data Ab [j; n])
                                        (data Ab [j; n])))).
  { intros n Hn. rewrite HdX by assumption. rewrite sadd_0_l.
    rewrite HdKnn' by in_range_solve. cbn [map nth app].
    f_equal. apply big_sum_ext. intros j Hj.
    rewrite K1 by assumption. reflexivity. }
  destruct q_sqrt as [q|]; [destruct Hq as [[Hq3 Hlow] | Hq2]|].
  - (* lower-triangular rank-3 factor *)
    unfold rank; rewrite Hq3; cbn [length Nat.eqb].
    destruct (interdomain_lta_full_factor M N q A Hq3 HsA)
      as (Lf & LTA & E4 & E5 & HsLTA & HdLTA).
    use_stage E4. use_stage E5.
    destruct (interdomain_sumsq M N "add"%string sadd X LTA HsLTA HsX)
      as (ssq2 & t2 & W & E6 & E7 & E8 & HsW & HdW).
    use_stage E6. use_stage E7. use_stage E8.
    cbn [same_result]. split; [exact Hmean|].
    split; [rewrite HsW, Hsv; reflexivity|].
    intros idx Hr. rewrite HsW in Hr.
    apply in_range_2_inv in Hr. destruct Hr as (n & r & -> & Hn & Hr).
    assert (r = 0) by lia. subst r.
    rewrite HdW by assumption. rewrite Hdv' by assumption.
    cbv zeta. rewrite HV by assumption. rewrite sadd_0_l.
    f_equal. apply big_sum_ext. intros c Hc.
    assert (HL : data LTA [0; c; n] = base_lta Ab q M [] 0 c n).
    { rewrite HdLTA. unfold base_lta, rank. rewrite Hq3.
      cbn [length Nat.eqb app].
      apply big_sum_ext. intros k Hk. rewrite K1 by assumption.
      f_equal. destruct (Nat.leb_spec c k); [reflexivity|].
      symmetry. apply (Hlow [0] k c); [rewrite Hq3; in_range_solve | lia]. }
    rewrite HL. reflexivity.
  - (* diagonal factor *)
    unfold rank; rewrite Hq2; cbn [length Nat.eqb].
    destruct (interdomain_lta_diag_factor M N q A Hq2 HsA)
      as (qT & LTA & E4 & E5 & HsLTA & HdLTA).
    use_stage E4. use_stage E5.
    destruct (interdomain_sumsq M N "add"%string sadd X LTA HsLTA HsX)
      as (ssq2 & t2 & W & E6 & E7 & E8 & HsW & HdW).
    use_stage E6. use_stage E7. use_stage E8.
    cbn [same_result]. split; [exact Hmean|].
    split; [rewrite HsW, Hsv; reflexivity|].
    intros idx Hr. rewrite HsW in Hr.
    apply in_range_2_inv in Hr. destruct Hr as (n & r & -> & Hn & Hr).
    assert (r = 0) by lia. subst r.
    rewrite HdW by assumption. rewrite Hdv' by assumption.
    cbv zeta. rewrite HV by assumption. rewrite sadd_0_l.
    f_equal. apply big_sum_ext. intros c Hc.
    assert (HL : data LTA [0; c; n] = base_lta Ab q M [] 0 c n).
    { rewrite HdLTA by assumption. unfold base_lta, rank. rewrite Hq2.
      cbn [length Nat.eqb app]. rewrite K1 by assumption. reflexivity. }
    rewrite HL. reflexivity.
  - cbn [same_result]. split; [exact Hmean|].
    split; [rewrite HsX, Hsv; reflexivity|].
    intros idx Hr. rewrite HsX in Hr.
    apply in_range_2_inv in Hr. destruct Hr as (n & r & -> & Hn & Hr).
    assert (r = 0) by lia. subst r.
    rewrite Hdv' by assumption. cbv zeta.
    apply HV. assumption.
Qed.


Lemma interdomain_matches_base_full : forall (Knn Knn' : tensor F) q_sqrt,
  shape Knn = [N; N] ->
  with_unit_axes Knn' Knn [1; N; N] [1; 2] ->
  q_sqrt_single M q_sqrt ->
  same_result
    (independent_interdomain_conditional Kmn4 Kmm3 Knn' f
       true false q_sqrt true)
    (base_conditional Kmn Kmm Knn f true q_sqrt true).
Proof.
  intros Knn Knn' q_sqrt HKnn [HsKnn' HdKnn'] Hq.
  destruct (base_whitened_full Kmn Kmm Knn f M N 1 [] true
              HKmn HKmm Hf q_sqrt eq_refl HKnn
              (q_sqrt_single_documented q_sqrt Hq))
    as (Ab & fmean & fvar & EAb & HsAb & Eb & Hsm & Hdm & Hsv & Hdv).
  rewrite Eb. clear Eb.
  assert (Hdm' : forall n, n < N ->
    data fmean [n; 0]
    = tf.big_sum M (fun c => smul (data Ab [c; n]) (data f [c; 0])))
    by (intros n Hn; apply (Hdm [] n 0); in_range_solve).
  assert (Hdv' : forall i j, i < N -> j < N ->
    data fvar [0; i; j]
    = let V := ssub (data Knn [i; j])
                 (tf.big_sum M (fun m => smul (data Ab [m; i])
                                              (data Ab [m; j]))) in
      match q_sqrt with
      | None => V
      | Some q =>
          sadd V (tf.big_sum M (fun c => smul (base_lta Ab q M [] 0 c i)
                                              (base_lta Ab q M [] 0 c j)))
      end)
    by (intros i j Hi Hj; apply (Hdv [] 0 i j); in_range_solve).
  clear Hdm Hdv.
  destruct HKmn4 as [Hs4 _]. destruct HKmm3 as [Hs3 _].
  destruct (interdomain_prefix Kmn4 Kmm3 M N Hs4 Hs3)
    as (Lm & Kt & Kr & A & Ar & ELm & EKt & EKr & EA & EAr
        & HsA & HsAr & HdA & HdAr).
  pose proof (interdomain_projection_matches Ab A EAb HdA) as K1.
  unfold independent_interdomain_conditional, tf.sub, tf.add, tf.mul.
  rewrite Hs4. cbn [unpack4 bind].
  use_stage ELm. use_stage EKt. use_stage EKr. use_stage EA. use_stage EAr.
  destruct (interdomain_var_full M N Ar Knn' HsAr HsKnn')
    as (tr & At & t & X & E1 & E2 & E3 & E4 & HsX & HdX).
  use_stage E1. use_stage E2. use_stage E3. use_stage E4.
  cbn [negb bind].
  destruct (interdomain_mean M N Ar f HsAr Hf) as (m & Em & Hsmi & Hdmi).
  use_stage Em.
  assert (Hmean : teq m fmean).
  { split; [rewrite Hsmi, Hsm; reflexivity|].
    intros idx Hr. rewrite Hsmi in Hr.
    apply in_range_2_inv in Hr. destruct Hr as (n & r & -> & Hn & Hr).
    assert (r = 0) by lia. subst r.
    rewrite Hdmi. rewrite Hdm' by assumption.
    apply big_sum_ext. intros c Hc.
    rewrite sadd_0_l, HdAr, K1 by assumption. reflexivity. }
  assert (HV : forall i j, i < N -> j < N ->
    data X [0; i; j]
    = ssub (data Knn [i; j])
           (tf.big_sum M (fun k => smul (data Ab [k; i]) (data Ab [k; j])))).
  { intros i j Hi Hj. rewrite HdX by assumption.
    rewrite HdKnn' by in_range_solve. cbn [map nth].
    f_equal. apply big_sum_ext. intros k Hk.
    rewrite !HdAr, !K1 by assumption. reflexivity. }
  assert (Hfin : forall (LTA W : tensor F) q,
    q_sqrt = Some q ->
    shape W = [1; N; N] ->
    (forall c n, c < M -> n < N ->
       data LTA [0; c; n] = base_lta Ab q M [] 0 c n) ->
    (forall i j, i < N -> j < N ->
       data W [0; i; j]
       = sadd (data X [0; i; j])
              (tf.big_sum M (fun k => smul (data LTA [0; k; i])
                                           (data LTA [0; k; j])))) ->
    teq W fvar).
  { intros LTA W q Eq HsW HL HdW.
    split; [rewrite HsW, Hsv; reflexivity|].
    intros idx Hr. rewrite HsW in Hr.
    apply in_range_3_inv in Hr.
    destruct Hr as (r & i & j & -> & Hr & Hi & Hj).
    assert (r = 0) by lia. subst r.
    rewrite HdW, Hdv' by assumption. rewrite Eq. cbv zeta.
    rewrite HV by assumption.
    f_equal. apply big_sum_ext. intros c Hc.
    rewrite !HL by assumption. reflexivity. }
  destruct q_sqrt as [q|]; [destruct Hq as [[Hq3 Hlow] | Hq2]|].
  - unfold rank; rewrite Hq3; cbn [length Nat.eqb].
    destruct (interdomain_lta_full_factor M N q A Hq3 HsA)
      as (Lf & LTA & E5 & E6 & HsLTA & HdLTA).
    use_stage E5. use_stage E6.
    destruct (interdomain_add_full M N LTA X HsLTA HsX)
      as (r & LTAr & c & W & E7 & E8 & E9 & E10 & HsW & HdW).
    use_stage E7. use_stage E8. use_stage E9. use_stage E10.
    cbn [same_result]. split; [exact Hmean|].
    apply (Hfin LTA W q eq_refl HsW); [|exact HdW].
    intros c0 n Hc Hn.
    rewrite HdLTA. unfold base_lta, rank. rewrite Hq3.
    cbn [length Nat.eqb app].
    apply big_sum_ext. intros k Hk. rewrite K1 by assumption.
    f_equal. destruct (Nat.leb_spec c0 k); [reflexivity|].
    symmetry. apply (Hlow [0] k c0); [rewrite Hq3; in_range_solve | lia].
  - unfold rank; rewrite Hq2; cbn [length Nat.eqb].
    destruct (interdomain_lta_diag_factor M N q A Hq2 HsA)
      as (qT & LTA & E5 & E6 & HsLTA & HdLTA).
    use_stage E5. use_stage E6.
    destruct (interdomain_add_full M N LTA X HsLTA HsX)
      as (r & LTAr & c & W & E7 & E8 & E9 & E10 & HsW & HdW).
    use_stage E7. use_stage E8. use_stage E9. use_stage E10.
    cbn [same_result]. split; [exact Hmean|].
    apply (Hfin LTA W q eq_refl HsW); [|exact HdW].
    intros c0 n Hc Hn.
    rewrite HdLTA by assumption. unfold base_lta, rank. rewrite Hq2.
    cbn [length Nat.eqb app]. rewrite K1 by assumption. reflexivity.
  - cbn [same_result]. split; [exact Hmean|].
    split; [rewrite HsX, Hsv; reflexivity|].
    intros idx Hr. rewrite HsX in Hr.
    apply in_range_3_inv in Hr.
    destruct Hr as (r & i & j & -> & Hr & Hi & Hj).
    assert (r = 0) by lia. subst r.
    rewrite Hdv' by assumption. cbv zeta.
    apply HV; assumption.
Qed.


Hypothesis smul_comm : forall x y : F, smul x y = smul y x.

Lemma fully_correlated_matches_base :
  forall (Kmn3 Knn Knn' q : tensor F),
    with_unit_axes Kmn3 Kmn [M; N; 1] [0; 1] ->
    shape Knn = [N; N] ->
    with_unit_axes Knn' Knn [1; N; N] [1; 2] ->
    shape q = [1; M; M] ->
    lower_triangular q ->
    same_result
      (fully_correlated_conditional Kmn3 Kmm Knn' f true false (Some q) true)
      (base_conditional Kmn Kmm Knn f true (Some q) true).
Proof.
  intros Kmn3 Knn Knn' q [Hs3 Hd3] HKnn [HsKnn' HdKnn'] Hq3 Hlow.
  destruct (base_whitened_full Kmn Kmm Knn f M N 1 [] true
              HKmn HKmm Hf (Some q) eq_refl HKnn (or_introl Hq3))
    as (Ab & fmean & fvar & EAb & HsAb & Eb & Hsm & Hdm & Hsv & Hdv).
  rewrite Eb. clear Eb.
  assert (Hdm' : forall n, n < N ->
    data fmean [n; 0]
    = tf.big_sum M (fun c => smul (data Ab [c; n]) (data f [c; 0])))
    by (intros n Hn; apply (Hdm [] n 0); in_range_solve).
  assert (Hdv' : forall i j, i < N -> j < N ->
    data fvar [0; i; j]
    = sadd (ssub (data Knn [i; j])
              (tf.big_sum M (fun m => smul (data Ab [m; i])
                                           (data Ab [m; j]))))
           (tf.big_sum M (fun c => smul (base_lta Ab q M [] 0 c i)
                                        (base_lta Ab q M [] 0 c j))))
    by (intros i j Hi Hj; apply (Hdv [] 0 i j); in_range_solve).
  clear Hdm Hdv.
  pose proof (base_projection_rank2 Ab EAb) as HAb.
  unfold fully_correlated_conditional, fully_correlated_conditional_repeat,
    tf.sub, tf.add, tf.mul.
  unfold shape_at. rewrite Hf. cbn [nth_error bind].
  rewrite Hs3. cbn [unpack3 bind].
  run (cholesky_ok Kmm [] M HKmm) Lm HsLm.
  assert (Hp1 : prod (shape Kmn3) = prod [M; N * 1])
    by (rewrite Hs3; cbn; ring).
  run (reshape_ok Kmn3 [M; N * 1] Hp1) Kr HsKr.
  run (triangular_solve_ok Lm Kr [] M (N * 1) true HsLm HsKr) A HsA.
  cbn [app] in HsA.
  assert (K1 : forall m n, m < M -> n < N -> data A [m; n] = data Ab [m; n]).
  { intros m n Hm Hn. rewrite HAb by assumption.
    unfold projection_entry, A. cbn [data]. simpl_idx.
    apply solve_lower_ext.
    - intros r c Hr Hc. reflexivity.
    - intros r Hr. unfold Kr. cbn [data]. rewrite Hs3.
      replace (ravel [M; N * 1] [r; n]) with (ravel [M; N; 1] [r; n; 0])
        by (cbn; ring).
      rewrite unravel_ravel by in_range_solve.
      rewrite Hd3 by in_range_solve. reflexivity. }
  assert (Hp2 : prod (shape A) = prod [M; N; 1])
    by (rewrite HsA; cbn; ring).
  run (reshape_ok A [M; N; 1] Hp2) Ar HsAr.
  assert (HAr : forall m n, m < M -> n < N ->
            data Ar [m; n; 0] = data A [m; n]).
  { intros m n Hm Hn. unfold Ar. cbn [data]. rewrite HsA.
    replace (ravel [M; N; 1] [m; n; 0]) with (ravel [M; N * 1] [m; n])
      by (cbn; ring).
    rewrite unravel_ravel by in_range_solve. reflexivity. }
  assert (Hperm : is_perm (rank Ar) (rev (seq 0 (rank Ar))) = true)
    by reflexivity.
  pose proof (transpose_ok Ar (rev (seq 0 (rank Ar))) Hperm) as EAt.
  change (tf.transpose Ar (rev (seq 0 (rank Ar)))) with (tf.transpose_all Ar)
    in EAt.
  cbn [rank shape Ar length seq rev app map nth] in EAt.
  set (At := mkT _ _) in EAt. rewrite EAt. cbn [bind]. clear EAt.
  run (matmul_nt_ok At At [1] N M N eq_refl eq_refl) t Hst.
  assert (Hb1 : broadcast_shapes (shape Knn') (shape t) = Some [1; N; N])
    by (rewrite HsKnn', Hst; apply (broadcast_shapes_suffix_l [] [1; N; N])).
  run (binop_ok "sub"%string ssub Knn' t [1; N; N] Hb1) X HsX.
  assert (HV : forall i j, i < N -> j < N ->
    data X [0; i; j]
    = ssub (data Knn [i; j])
           (tf.big_sum M (fun k => smul (data Ab [k; i]) (data Ab [k; j])))).
  { intros i j Hi Hj. unfold X. cbn [data]. rewrite HsKnn', Hst.
    rewrite !bidx_in_range by in_range_solve.
    rewrite HdKnn' by in_range_solve. cbn [map nth].
    f_equal. unfold t. cbn [data]. simpl_idx.
    apply big_sum_ext. intros k Hk.
    unfold At. cbn [data assemble find_pos Nat.eqb option_map nth hd tl].
    rewrite !HAr, !K1 by assumption. reflexivity. }
  cbn [negb bind].
  run (matmul_tn_ok f A [] M 1 (N * 1) Hf HsA) fm Hsfm.
  assert (Hp3 : prod (shape fm) = prod [1; N; 1])
    by (rewrite Hsfm; cbn; ring).
  run (reshape_ok fm [1; N; 1] Hp3) fmn Hsfmn.
  assert (H2 : 2 <= rank q) by (unfold rank; rewrite Hq3; cbn; lia).
  run (matrix_band_part_ok q (-1) 0 H2) Lf HsLf.
  unfold rank at 1; rewrite Hq3; cbn [length Nat.eqb].
  assert (Hna : 2 <= rank A) by (unfold rank; rewrite HsA; cbn; lia).
  rewrite (newaxis0_slices_ok A 2 Hna). cbn [bind].
  assert (Hti : length [1; 1; 1] = rank (tf.newaxis0 A))
    by (unfold rank; cbn [tf.newaxis0 shape]; rewrite HsA; reflexivity).
  run (tile_ok (tf.newaxis0 A) [1; 1; 1] Hti) Atl HsAtl.
  cbn [tf.newaxis0 shape] in HsAtl. rewrite HsA in HsAtl.
  cbn [combine map fst snd] in HsAtl.
  rewrite !Nat.mul_1_r in HsAtl.
  rewrite Hq3 in HsLf.
  run (matmul_tn_ok Lf Atl [1] M M N HsLf HsAtl) LTA HsLTA.
  assert (HL : forall c n, c < M -> n < N ->
            data LTA [0; c; n] = base_lta Ab q M [] 0 c n).
  { intros c n Hc Hn. unfold base_lta, rank. rewrite Hq3.
    cbn [length Nat.eqb app].
    unfold LTA. cbn [data]. simpl_idx.
    apply big_sum_ext. intros k Hk. f_equal.
    - unfold Lf. cbn [data]. simpl_idx. rewrite in_band_lower.
      destruct (Nat.leb_spec c k); [reflexivity|].
      symmetry. apply (Hlow [0] k c); [rewrite Hq3; in_range_solve | lia].
    - unfold Atl. cbn [data tf.newaxis0 shape]. rewrite HsA.
      cbn [combine map fst snd tl].
      rewrite !Nat.mod_small by lia. apply K1; assumption. }
  assert (Hp4 : prod (shape LTA) = prod [1; M; N; 1])
    by (rewrite HsLTA; cbn; ring).
  run (reshape_ok LTA [1; M; N; 1] Hp4) r4 Hsr4.
  assert (Hperm2 : is_perm (rank r4) [0; 3; 1; 2] = true) by reflexivity.
  run (transpose_ok r4 [0; 3; 1; 2] Hperm2) LTAr HsLTAr.
  rewrite Hsr4 in HsLTAr. cbn [map nth] in HsLTAr.
  run (matmul_tn_ok LTAr LTAr [1; 1] M N N HsLTAr HsLTAr) addvar Hsadd.
  assert (Hb2 : broadcast_shapes (shape (tf.newaxis0 X)) (shape addvar)
                = Some [1; 1; N; N]).
  { cbn [tf.newaxis0 shape]. rewrite HsX, Hsadd.
    apply (broadcast_shapes_suffix_l [] [1; 1; N; N]). }
  run (binop_ok "add"%string sadd (tf.newaxis0 X) addvar [1; 1; N; N] Hb2)
      W HsW.
  run (index0_ok fmn 0 [N; 1] Hsfmn) m0 Hsm0.
  run (index0_ok W 0 [1; N; N] HsW) v0 Hsv0.
  cbn [same_result]. split.
  - split; [rewrite Hsm0, Hsm; reflexivity|].
    intros idx Hr. rewrite Hsm0 in Hr.
    apply in_range_2_inv in Hr. destruct Hr as (n & r & -> & Hn & Hr).
    assert (r = 0) by lia. subst r.
    rewrite Hdm' by assumption.
    unfold m0, fmn. cbn [data]. rewrite Hsfm.
    replace (ravel [1; N; 1] [0; n; 0]) with (ravel ([] ++ [1; N * 1]) [0; n])
      by (cbn; ring).
    rewrite unravel_ravel by in_range_solve.
    unfold fm. cbn [data]. simpl_idx.
    apply big_sum_ext. intros c Hc.
    rewrite smul_comm, K1 by assumption. reflexivity.
  - split; [rewrite Hsv0, Hsv; reflexivity|].
    intros idx Hr. rewrite Hsv0 in Hr.
    apply in_range_3_inv in Hr.
    destruct Hr as (r & i & j & -> & Hr & Hi & Hj).
    assert (r = 0) by lia. subst r.
    rewrite Hdv' by assumption.
    unfold v0, W. cbn [data tf.newaxis0 shape]. rewrite HsX, Hsadd.
    rewrite !bidx_in_range by in_range_solve.
    cbn [tl]. rewrite HV by assumption. f_equal.
    unfold addvar. cbn [data]. simpl_idx.
    apply big_sum_ext. intros k Hk.
    assert (Hr4 : forall a, a < N ->
              data LTAr [0; 0; k; a] = data LTA [0; k; a]).
    { intros a Ha. unfold LTAr, r4. cbn [data]. rewrite HsLTA.
      cbn [rank shape length seq assemble find_pos Nat.eqb option_map nth].
      replace (ravel [1; M; N; 1] [0; k; a; 0])
        with (ravel [1; M; N] [0; k; a]) by (cbn; ring).
      rewrite unravel_ravel by in_range_solve. reflexivity. }
    rewrite !Hr4, !HL by assumption. reflexivity.
Qed.


(** X26.  Where the multi-output routines are free of the slips recorded
    for claim C5, they reduce to [base_conditional].  Let [Kmn] be M x N,
    [Kmm] M x M and the function M x 1, and let the multi-output routines
    receive the same data with unit axes added (L = 1, P = 1).  With
    [white = True] and [full_output_cov = False]:
    - [independent_interdomain_conditional] returns the mean and the
      variance of [base_conditional], for the marginal variances and for
      the full covariance, with [q_sqrt] omitted, a diagonal factor M x 1,
      or a lower-triangular factor 1 x M x M;
    - [fully_correlated_conditional] returns the mean and the variance of
      [base_conditional] for the full covariance with a lower-triangular
      factor 1 x M x M.
    Shapes and all elements agree. *)
Theorem X26_whitened_single_output_reduction :
  forall Kmn3 : tensor F,
    with_unit_axes Kmn3 Kmn [M; N; 1] [0; 1] ->
    (forall (Knn Knn' : tensor F) q_sqrt,
        shape Knn = [N] ->
        with_unit_axes Knn' Knn [N; 1] [0] ->
        q_sqrt_single M q_sqrt ->
        same_result
          (independent_interdomain_conditional Kmn4 Kmm3 Knn' f
             false false q_sqrt true)
          (base_conditional Kmn Kmm Knn f false q_sqrt true))
    /\
    (forall (Knn Knn' : tensor F) q_sqrt,
        shape Knn = [N; N] ->
        with_unit_axes Knn' Knn [1; N; N] [1; 2] ->
        q_sqrt_single M q_sqrt ->
        same_result
          (independent_interdomain_conditional Kmn4 Kmm3 Knn' f
             true false q_sqrt true)
          (base_conditional Kmn Kmm Knn f true q_sqrt true))
    /\
    (forall (Knn Knn' q : tensor F),
        shape Knn = [N; N] ->
        with_unit_axes Knn' Knn [1; N; N] [1; 2] ->
        shape q = [1; M; M] ->
        lower_triangular q ->
        same_result
          (fully_correlated_conditional Kmn3 Kmm Knn' f
             true false (Some q) true)
          (base_conditional Kmn Kmm Knn f true (Some q) true)).
Proof.
  intros Kmn3 H3. split; [|split].
  - intros Knn Knn' q_sqrt HKnn HKnn' Hq.
    exact (interdomain_matches_base_diag Knn Knn' q_sqrt HKnn HKnn' Hq).
  - intros Knn Knn' q_sqrt HKnn HKnn' Hq.
    exact (interdomain_matches_base_full Knn Knn' q_sqrt HKnn HKnn' Hq).
  - intros Knn Knn' q HKnn HKnn' Hq Hlow.
    exact (fully_correlated_matches_base Kmn3 Knn Knn' q H3 HKnn HKnn'
             Hq Hlow).
Qed.

End Reduction.

(** ** The reduction on the example inputs *)

Ltac enum_lt :=
  repeat match goal with
         | H : ?i < S ?n |- _ =>
             is_var i; destruct i; [clear H | apply PeanoNat.lt_S_n in H]
         | H : _ < 0 |- _ => inversion H
         end.

Ltac unit_axes_by_cases :=
  split; [reflexivity|];
  let idx := fresh "idx" in
  let H := fresh "H" in
  intros idx H;
  repeat match goal with
         | H : in_range _ _ |- _ => unfold in_range in H
         | H : Forall2 lt _ _ |- _ => inversion H; subst; clear H
         end;
  enum_lt; reflexivity.

Lemma Kmn_MLNP_unit_axes :
  with_unit_axes Ex.Kmn_MLNP Ex.Kmn [2; 1; 3; 1] [0; 2].
Proof. unit_axes_by_cases. Qed.

Lemma Kmm_L_unit_axes : with_unit_axes Ex.Kmm_L Ex.Kmm [1; 2; 2] [1; 2].
Proof. unit_axes_by_cases. Qed.

Lemma Kmn_MLNP_fc_unit_axes :
  with_unit_axes Ex.Kmn_MLNP_fc Ex.Kmn [2; 3; 1] [0; 1].
Proof. unit_axes_by_cases. Qed.

Lemma Knn_NP_unit_axes : with_unit_axes Ex.Knn_NP Ex.Knn_diag [3; 1] [0].
Proof. unit_axes_by_cases. Qed.

Lemma Knn_PNN_unit_axes :
  with_unit_axes Ex.Knn_PNN Ex.Knn_full [1; 3; 3] [1; 2].
Proof. unit_axes_by_cases. Qed.

Lemma q_tril_lower_triangular : lower_triangular Ex.q_tril.
Proof.
  intros pre i j H Hij.
  pose proof (in_range_length _ _ H) as Hlen.
  rewrite length_app in Hlen. cbn in Hlen.
  destruct pre as [|p [|? ?]]; cbn in Hlen; try lia.
  cbn in H. unfold in_range in H.
  repeat match goal with
         | H : Forall2 lt _ _ |- _ => inversion H; subst; clear H
         end.
  enum_lt; try lia; reflexivity.
Qed.

(** The unwhitened fully correlated call, which is rejected by design:
    [base_conditional] returns a mean and a variance,
    [fully_correlated_conditional] on the same data (L = 1, P = 1) raises
    [NotImplementedError]. *)
Lemma unwhitened_fully_correlated_returns_nothing :
  is_ok (base_conditional Ex.Kmn Ex.Kmm Ex.Knn_full Ex.f1
           true (Some Ex.q_tril) false) = true
  /\ fully_correlated_conditional Ex.Kmn_MLNP_fc Ex.Kmm Ex.Knn_PNN Ex.f1
       true false (Some Ex.q_tril) false
     = Raise (NotImplementedError "Need to verify this.")
  /\ ~ same_result
         (fully_correlated_conditional Ex.Kmn_MLNP_fc Ex.Kmm Ex.Knn_PNN Ex.f1
            true false (Some Ex.q_tril) false)
         (base_conditional Ex.Kmn Ex.Kmm Ex.Knn_full Ex.f1
            true (Some Ex.q_tril) false).
Proof.
  repeat apply conj.
  - vm_compute; reflexivity.
  - vm_compute; reflexivity.
  - intros H.
    assert (E : fully_correlated_conditional Ex.Kmn_MLNP_fc Ex.Kmm Ex.Knn_PNN
                  Ex.f1 true false (Some Ex.q_tril) false
                = Raise (NotImplementedError "Need to verify this."))
      by (vm_compute; reflexivity).
    rewrite E in H. exact H.
Qed.

Lemma X26_whitened_single_output_witness :
  same_result
    (independent_interdomain_conditional Ex.Kmn_MLNP Ex.Kmm_L Ex.Knn_NP Ex.f1
       false false None true)
    (base_conditional Ex.Kmn Ex.Kmm Ex.Knn_diag Ex.f1 false None true)
  /\ same_result
       (independent_interdomain_conditional Ex.Kmn_MLNP Ex.Kmm_L Ex.Knn_PNN
          Ex.f1 true false (Some Ex.q_tril) true)
       (base_conditional Ex.Kmn Ex.Kmm Ex.Knn_full Ex.f1
          true (Some Ex.q_tril) true)
  /\ same_result
       (fully_correlated_conditional Ex.Kmn_MLNP_fc Ex.Kmm Ex.Knn_PNN Ex.f1
          true false (Some Ex.q_tril) true)
       (base_conditional Ex.Kmn Ex.Kmm Ex.Knn_full Ex.f1
          true (Some Ex.q_tril) true).
Proof.
  destruct (@X26_whitened_single_output_reduction Qc Qc_scalar Qcplus_0_l
              Ex.Kmn Ex.Kmm Ex.f1 Ex.Kmn_MLNP Ex.Kmm_L 2 3
              eq_refl eq_refl eq_refl Kmn_MLNP_unit_axes Kmm_L_unit_axes
              Qcmult_comm Ex.Kmn_MLNP_fc Kmn_MLNP_fc_unit_axes)
    as (Hdiag & Hfull & Hfc).
  split; [|split].
  - exact (Hdiag Ex.Knn_diag Ex.Knn_NP None eq_refl Knn_NP_unit_axes I).
  - exact (Hfull Ex.Knn_full Ex.Knn_PNN (Some Ex.q_tril) eq_refl
             Knn_PNN_unit_axes
             (or_introl (conj eq_refl q_tril_lower_triangular))).
  - exact (Hfc Ex.Knn_full Ex.Knn_PNN Ex.q_tril eq_refl Knn_PNN_unit_axes
             eq_refl q_tril_lower_triangular).
Defined.

(** C5 (the code departs from the claim).  With one latent process and one
    output the multi-output routines do not reduce to [base_conditional] on
    calls that the design supports, because of three slips.  On the same
    data, M = 2 and N = 3, laid out for each routine:
    - the default call ([full_cov] and [full_output_cov] false, no
      [q_sqrt], whitened): [base_conditional] returns a mean and a variance
      N x 1, [fully_correlated_conditional] raises on reshaping a scalar to
      (N, K) (line 282);
    - [full_cov = True] without [q_sqrt], whitened: [base_conditional]
      returns the variance 1 x N x N, [fully_correlated_conditional] returns
      it as N x N, the repeated routine having added no replica axis for
      the final [v[0, ...]] to remove (lines 233 and 293);
    - the default call in the unwhitened representation:
      [base_conditional] returns, [independent_interdomain_conditional]
      raises in the solve of line 190, which is given the untransposed
      factor and the rank-4 [Ar], whose matrices have N = 3 rows against
      the M = 2 of the factor.
    In none of the three do the results agree. *)
Theorem C5_single_output_reduction_broken_by_slips :
  (shapes2 (base_conditional Ex.Kmn Ex.Kmm Ex.Knn_diag Ex.f1 false None true)
   = Ok ([3; 1], [3; 1])
   /\ fully_correlated_conditional Ex.Kmn_MLNP_fc Ex.Kmm Ex.Knn_NP Ex.f1
        false false None true
      = Raise (InvalidArgument "reshape")
   /\ ~ same_result
          (fully_correlated_conditional Ex.Kmn_MLNP_fc Ex.Kmm Ex.Knn_NP Ex.f1
             false false None true)
          (base_conditional Ex.Kmn Ex.Kmm Ex.Knn_diag Ex.f1 false None true))
  /\
  (shapes2 (base_conditional Ex.Kmn Ex.Kmm Ex.Knn_full Ex.f1 true None true)
   = Ok ([3; 1], [1; 3; 3])
   /\ shapes2 (fully_correlated_conditional Ex.Kmn_MLNP_fc Ex.Kmm Ex.Knn_PNN
                 Ex.f1 true false None true)
      = Ok ([3; 1], [3; 3])
   /\ ~ same_result
          (fully_correlated_conditional Ex.Kmn_MLNP_fc Ex.Kmm Ex.Knn_PNN
             Ex.f1 true false None true)
          (base_conditional Ex.Kmn Ex.Kmm Ex.Knn_full Ex.f1 true None true))
  /\
  (shapes2 (base_conditional Ex.Kmn Ex.Kmm Ex.Knn_diag Ex.f1 false None false)
   = Ok ([3; 1], [3; 1])
   /\ independent_interdomain_conditional Ex.Kmn_MLNP Ex.Kmm_L Ex.Knn_NP
        Ex.f1 false false None false
      = Raise (InvalidArgument "triangular_solve")
   /\ ~ same_result
          (independent_interdomain_conditional Ex.Kmn_MLNP Ex.Kmm_L Ex.Knn_NP
             Ex.f1 false false None false)
          (base_conditional Ex.Kmn Ex.Kmm Ex.Knn_diag Ex.f1
             false None false)).
Proof.
  assert (E1 : fully_correlated_conditional Ex.Kmn_MLNP_fc Ex.Kmm Ex.Knn_NP
                 Ex.f1 false false None true
               = Raise (InvalidArgument "reshape"))
    by (vm_compute; reflexivity).
  assert (E3 : independent_interdomain_conditional Ex.Kmn_MLNP Ex.Kmm_L
                 Ex.Knn_NP Ex.f1 false false None false
               = Raise (InvalidArgument "triangular_solve"))
    by (vm_compute; reflexivity).
  assert (S2 : shapes2 (fully_correlated_conditional Ex.Kmn_MLNP_fc Ex.Kmm
                          Ex.Knn_PNN Ex.f1 true false None true)
               = Ok ([3; 1], [3; 3]))
    by (vm_compute; reflexivity).
  assert (S2' : shapes2 (base_conditional Ex.Kmn Ex.Kmm Ex.Knn_full Ex.f1
                           true None true)
                = Ok ([3; 1], [1; 3; 3]))
    by (vm_compute; reflexivity).
  split; [|split].
  - split; [vm_compute; reflexivity|]. split; [exact E1|].
    intros H. rewrite E1 in H. exact H.
  - split; [exact S2'|]. split; [exact S2|].
    intros H.
    destruct (fully_correlated_conditional Ex.Kmn_MLNP_fc Ex.Kmm Ex.Knn_PNN
                Ex.f1 true false None true) as [[m v]|e]; [|exact H].
    destruct (base_conditional Ex.Kmn Ex.Kmm Ex.Knn_full Ex.f1 true None true)
      as [[m' v']|e']; [|exact H].
    destruct H as [_ [Hs _]].
    cbn [shapes2 bind] in S2, S2'.
    injection S2 as _ Hv. injection S2' as _ Hv'.
    rewrite Hv, Hv' in Hs. discriminate Hs.
  - split; [vm_compute; reflexivity|]. split; [exact E3|].
    intros H. rewrite E3 in H. exact H.
Qed.

(** * Sampling: [sample_mvn] *)

Section SampleMvn.
Context {F : Type} {SF : Scalar F}.

Lemma matmul_nn_ok : forall (a b : tensor F) l m k n,
  shape a = l ++ [m; k] -> shape b = l ++ [k; n] ->
  tf.matmul a b false false
  = Ok (mkT (l ++ [m; n])
            (fun idx => tf.big_sum k (fun c =>
               smul (data a (batch idx ++ [row_of idx; c]))
                    (data b (batch idx ++ [c; col_of idx]))))).
Proof.
  intros a b l m k n Ha Hb. unfold tf.matmul, rank. rewrite Ha, Hb.
  rewrite leb_2_app2, !rank_app2, Nat.eqb_refl, !batch_app2, list_eqb_refl,
    !row_of_app2, !col_of_app2, Nat.eqb_refl.
  reflexivity.
Qed.

Lemma index_last0_ok : forall (a : tensor F) l d,
  shape a = l ++ [S d] ->
  tf.index_last0 a = Ok (mkT l (fun idx => data a (idx ++ [0]))).
Proof.
  intros a l d H. unfold tf.index_last0, rank. rewrite H.
  rewrite length_app, Nat.add_comm. cbn [length Nat.add].
  rewrite app_nth2, Nat.sub_diag by lia. cbn [nth Nat.ltb Nat.leb].
  rewrite firstn_length_app. reflexivity.
Qed.

Lemma big_sum_zero : forall n (g : nat -> F),
  sadd s0 s0 = s0 -> (forall c, c < n -> g c = s0) -> tf.big_sum n g = s0.
Proof.
  intros n g H0. induction n; intros Hg; cbn; [reflexivity|].
  rewrite IHn by (intros; apply Hg; lia). rewrite Hg by lia. exact H0.
Qed.

(** The diagonal structure: the sample has the shape of the mean, and each
    element is the mean plus the root of the variance times the draw. *)
Lemma sample_mvn_diag_spec : forall (mean cov : tensor F) noise jitter,
  shape cov = shape mean ->
  exists t,
    sample_mvn mean cov "diag" noise jitter = Ok t /\
    shape t = shape mean /\
    forall idx, in_range (shape mean) idx ->
      data t idx
      = sadd (data mean idx) (smul (ssqrt (data cov idx)) (noise idx)).
Proof.
  intros mean cov noise jitter Hc.
  unfold sample_mvn. cbn [String.eqb Ascii.eqb Bool.eqb].
  unfold tf.mul, tf.add.
  assert (Hb : broadcast_shapes (shape (tf.sqrt cov))
                 (shape (mkT (shape mean) noise)) = Some (shape mean))
    by (cbn [tf.sqrt shape]; rewrite Hc;
        apply (broadcast_shapes_suffix_l [] (shape mean))).
  run (binop_ok "mul"%string smul (tf.sqrt cov) (mkT (shape mean) noise)
         (shape mean) Hb) se Hse.
  assert (Hb2 : broadcast_shapes (shape mean) (shape se) = Some (shape mean))
    by (rewrite Hse; apply (broadcast_shapes_suffix_l [] (shape mean))).
  run (binop_ok "add"%string sadd mean se (shape mean) Hb2) t Hst.
  exists t. split; [reflexivity|]. split; [assumption|].
  intros idx Hr. unfold t, se. cbn [data shape tf.sqrt].
  rewrite Hc, !bidx_in_range by assumption. reflexivity.
Qed.

(** The full structure: with [L n] the Cholesky factor of the [n]-th
    covariance matrix plus [jitter] on its diagonal, the sample is the mean
    plus [L n] applied to the [n]-th row of the draw. *)
Lemma sample_mvn_full_spec : forall (mean cov : tensor F) noise jitter N D,
  shape mean = [N; D] ->
  shape cov = [N; D; D] ->
  exists t,
    sample_mvn mean cov "full" noise jitter = Ok t /\
    shape t = [N; D] /\
    forall n d, n < N -> d < D ->
      data t [n; d]
      = sadd (data mean [n; d])
             (tf.big_sum D (fun k =>
                smul (tf.chol_mat D
                        (fun i j => sadd (data cov [n; i; j])
                                         (smul (if i =? j then s1 else s0)
                                               jitter))
                        d k)
                     (noise [n; k]))).
Proof.
  intros mean cov noise jitter N D Hm Hc.
  unfold sample_mvn. cbn [String.eqb Ascii.eqb Bool.eqb].
  unfold shape_at. rewrite Hm. cbn [nth_error bind].
  unfold tf.add.
  set (J := tf.newaxis0 (tf.scale (tf.eye D) jitter)).
  assert (Hb : broadcast_shapes (shape cov) (shape J) = Some [N; D; D]).
  { rewrite Hc. unfold J. cbn [shape tf.newaxis0 tf.scale tf.eye].
    rewrite broadcast_shapes_same_length by reflexivity.
    assert (H1 : zip_dims [N] [1] = Some [N])
      by (cbn [zip_dims]; destruct (N =? 1); reflexivity).
    exact (zip_dims_app [N] [1] [D; D] [D; D] [N] [D; D] H1
             (zip_dims_refl [D; D])). }
  run (binop_ok "add"%string sadd cov J [N; D; D] Hb) covj Hscov.
  run (cholesky_ok covj [N] D Hscov) chol Hschol.
  set (eps := mkT [N; D] noise).
  assert (He : shape (tf.newaxis_last eps) = [N] ++ [D; 1]) by reflexivity.
  run (matmul_nn_ok chol (tf.newaxis_last eps) [N] D D 1 Hschol He) p Hsp.
  run (index_last0_ok p [N; D] 0 Hsp) p0 Hsp0.
  assert (Hb2 : broadcast_shapes (shape mean) (shape p0) = Some [N; D])
    by (rewrite Hm, Hsp0; apply (broadcast_shapes_suffix_l [] [N; D])).
  run (binop_ok "add"%string sadd mean p0 [N; D] Hb2) t Hst.
  exists t. split; [reflexivity|]. split; [assumption|].
  intros n d Hn Hd. unfold t. cbn [data]. rewrite Hm, Hsp0.
  rewrite !bidx_in_range by in_range_solve. f_equal.
  unfold p0, p. cbn [data app]. simpl_idx.
  apply big_sum_ext. intros k Hk. f_equal.
  unfold chol. cbn [data]. simpl_idx.
  apply chol_mat_ext. intros r c Hr Hcr.
  unfold covj. cbn [data]. rewrite Hc.
  rewrite bidx_in_range by in_range_solve.
  unfold J. cbn [shape data tf.newaxis0 tf.scale tf.eye].
  rewrite bidx_same_length by reflexivity.
  cbn [clamp Nat.eqb]. 
  assert (Hcl : clamp [D; D] [r; c] = [r; c])
    by (apply clamp_in_range; in_range_solve).
  cbn [clamp] in Hcl. rewrite Hcl. cbn [tl]. simpl_idx. reflexivity.
Qed.

(** X1.  [sample_mvn] rejects every covariance structure other than
    'diag' and 'full' with [NotImplementedError], whatever the
    tensors. *)
Theorem X1_sample_mvn_unknown_structure_raises :
  forall (mean cov : tensor F) (cov_structure : string) noise jitter,
    cov_structure <> "diag"%string ->
    cov_structure <> "full"%string ->
    sample_mvn mean cov cov_structure noise jitter
    = Raise (NotImplementedError EmptyString).
Proof.
  intros mean cov cs noise jitter Hd Hf. unfold sample_mvn.
  apply String.eqb_neq in Hd. apply String.eqb_neq in Hf.
  rewrite Hd, Hf. reflexivity.
Qed.

(** X2.  With the diagonal structure and a variance tensor of the shape of
    the mean, the sample has the shape of the mean and equals
    [mean + sqrt(cov) * eps] element by element. *)
Theorem X2_sample_mvn_diag_elements :
  forall (mean cov : tensor F) noise jitter,
    shape cov = shape mean ->
    exists t,
      sample_mvn mean cov "diag" noise jitter = Ok t /\
      shape t = shape mean /\
      forall idx, in_range (shape mean) idx ->
        data t idx
        = sadd (data mean idx) (smul (ssqrt (data cov idx)) (noise idx)).
Proof. exact sample_mvn_diag_spec. Qed.

(** X3.  With the full structure, a mean [N, D] and covariances [N, D, D], the
    sample is [N, D] and row [n] is the mean plus the Cholesky factor of
    [cov[n] + jitter * I] applied to row [n] of the draw. *)
Theorem X3_sample_mvn_full_elements :
  forall (mean cov : tensor F) noise jitter N D,
    shape mean = [N; D] ->
    shape cov = [N; D; D] ->
    exists t,
      sample_mvn mean cov "full" noise jitter = Ok t /\
      shape t = [N; D] /\
      forall n d, n < N -> d < D ->
        data t [n; d]
        = sadd (data mean [n; d])
               (tf.big_sum D (fun k =>
                  smul (tf.chol_mat D
                          (fun i j => sadd (data cov [n; i; j])
                                           (smul (if i =? j then s1 else s0)
                                                 jitter))
                          d k)
                       (noise [n; k]))).
Proof. exact sample_mvn_full_spec. Qed.

(** X4.  A draw that is zero everywhere returns the mean, for both
    structures, on inputs whose factor is finite: every entry of the factor
    that multiplies the draw ([sqrt(cov)], or the Cholesky factor of
    [cov + jitter * I]) must give 0 when multiplied by 0, and adding 0 to
    an element of the mean must give that element.  A factor with a NaN or
    an infinite entry, as from a negative variance or a covariance that is
    not positive definite, is excluded by these conditions. *)
Theorem X4_sample_mvn_zero_noise_returns_mean :
  forall (mean cov : tensor F) (cov_structure : string) jitter N D,
    sadd s0 s0 = s0 ->
    shape mean = [N; D] ->
    (forall n d, n < N -> d < D ->
       sadd (data mean [n; d]) s0 = data mean [n; d]) ->
    (cov_structure = "diag"%string /\ shape cov = [N; D] /\
     forall n d, n < N -> d < D ->
       smul (ssqrt (data cov [n; d])) s0 = s0) \/
    (cov_structure = "full"%string /\ shape cov = [N; D; D] /\
     forall n d k, n < N -> d < D -> k < D ->
       smul (tf.chol_mat D
               (fun i j => sadd (data cov [n; i; j])
                                (smul (if i =? j then s1 else s0) jitter))
               d k) s0 = s0) ->
    exists t,
      sample_mvn mean cov cov_structure (fun _ => s0) jitter = Ok t /\
      teq t mean.
Proof.
  intros mean cov cs jitter N D H00 Hm Hadd [[-> [Hc Hmul]] | [-> [Hc Hmul]]].
  - destruct (sample_mvn_diag_spec mean cov (fun _ => s0) jitter)
      as (t & E & Hs & Hd); [congruence|].
    exists t. split; [assumption|]. split; [assumption|].
    intros idx Hr. rewrite Hs, Hm in Hr.
    inversion Hr as [|n ? idx1 ? Hn H1]; subst.
    inversion H1 as [|d ? idx2 ? Hdd H2]; subst.
    inversion H2; subst.
    rewrite Hd by (rewrite Hm; in_range_solve).
    rewrite Hmul, Hadd by assumption. reflexivity.
  - destruct (sample_mvn_full_spec mean cov (fun _ => s0) jitter N D Hm Hc)
      as (t & E & Hs & Hd).
    exists t. split; [assumption|]. split; [congruence|].
    intros idx Hr. rewrite Hs in Hr.
    inversion Hr as [|n ? idx1 ? Hn H1]; subst.
    inversion H1 as [|d ? idx2 ? Hdd H2]; subst.
    inversion H2; subst.
    rewrite Hd by assumption.
    rewrite big_sum_zero; [apply Hadd; assumption | exact H00 |].
    intros c Hcl. apply Hmul; assumption.
Qed.

End SampleMvn.

(** ** [sample_mvn] on the example inputs *)

Lemma X1_sample_mvn_unknown_structure_witness :
  sample_mvn Ex.mu Ex.var_diag "tril" Ex.draw 0%Qc
  = Raise (NotImplementedError EmptyString).
Proof.
  apply (X1_sample_mvn_unknown_structure_raises
           Ex.mu Ex.var_diag "tril"%string Ex.draw 0%Qc);
    discriminate.
Defined.

Lemma X2_sample_mvn_diag_witness :
  shape Ex.var_diag = shape Ex.mu
  /\ exists t,
       sample_mvn Ex.mu Ex.var_diag "diag" Ex.draw 0%Qc = Ok t /\
       shape t = shape Ex.mu /\
       forall idx, in_range (shape Ex.mu) idx ->
         data t idx
         = sadd (data Ex.mu idx)
                (smul (ssqrt (data Ex.var_diag idx)) (Ex.draw idx)).
Proof.
  split; [reflexivity|].
  exact (X2_sample_mvn_diag_elements Ex.mu Ex.var_diag Ex.draw 0%Qc eq_refl).
Defined.

Lemma X3_sample_mvn_full_witness :
  shape Ex.mu = [2; 2]
  /\ shape Ex.cov_full = [2; 2; 2]
  /\ exists t,
       sample_mvn Ex.mu Ex.cov_full "full" Ex.draw 0%Qc = Ok t /\
       shape t = [2; 2] /\
       forall n d, n < 2 -> d < 2 ->
         data t [n; d]
         = sadd (data Ex.mu [n; d])
                (tf.big_sum 2 (fun k =>
                   smul (tf.chol_mat 2
                           (fun i j => sadd (data Ex.cov_full [n; i; j])
                                            (smul (if i =? j then s1 else s0)
                                                  0%Qc))
                           d k)
                        (Ex.draw [n; k]))).
Proof.
  split; [reflexivity|]. split; [reflexivity|].
  exact (X3_sample_mvn_full_elements Ex.mu Ex.cov_full Ex.draw 0%Qc 2 2
           eq_refl eq_refl).
Defined.

Lemma Qc_scalar_mul_0_r : forall x : Qc, smul x s0 = s0.
Proof. exact Qcmult_0_r. Qed.

Lemma Qc_scalar_add_0_r : forall x : Qc, sadd x s0 = x.
Proof. exact Qcplus_0_r. Qed.

Lemma X4_sample_mvn_zero_noise_witness :
  exists t,
    sample_mvn Ex.mu Ex.cov_full "full" (fun _ => 0%Qc) 0%Qc = Ok t /\
    teq t Ex.mu.
Proof.
  refine (X4_sample_mvn_zero_noise_returns_mean
            Ex.mu Ex.cov_full "full"%string 0%Qc 2 2
            (Qc_scalar_add_0_r s0) eq_refl
            (fun n d _ _ => Qc_scalar_add_0_r _)
            (or_intror (conj eq_refl (conj eq_refl
               (fun n d k _ _ _ => Qc_scalar_mul_0_r _))))).
Defined.

(** * What the results do not depend on *)

Lemma bind_ok_inv : forall (A B : Type) (r : result A) (k : A -> result B) y,
  bind r k = Ok y -> exists x, r = Ok x /\ k x = Ok y.
Proof.
  intros A B r k y H. destruct r as [x|e]; [|discriminate].
  exists x. split; [reflexivity | exact H].
Qed.

(** Splits the outcome [H] of a routine into one equation per statement of
    its top-level sequence. *)
Ltac spine H :=
  cbv beta iota zeta in H;
  repeat (apply bind_ok_inv in H;
          let x := fresh "x" in
          let E := fresh "E" in
          destruct H as (x & E & H);
          cbv beta iota zeta delta [bind] in E;
          split_pairs;
          cbv beta iota zeta in H).

(** Identifies the values two runs computed by the same statement. *)
Ltac same_steps :=
  repeat match goal with
         | E1 : ?r = Ok _, E2 : ?r = Ok _ |- _ =>
             rewrite E1 in E2; inversion E2; subst; try clear E2
         end.

(** Replays in the goal the statements whose outcome is recorded. *)
Ltac replay :=
  repeat match goal with
         | E : ?r = Ok _ |- _ =>
             rewrite E; cbv beta iota zeta delta [bind]
         end.

Section Independence.
Context {F : Type} {SF : Scalar F}.

Lemma base_conditional_mean_independent :
  forall (Kmn Kmm f Knn Knn' : tensor F) white full_cov full_cov' q_sqrt q_sqrt'
         m v m' v',
    base_conditional Kmn Kmm Knn f full_cov q_sqrt white = Ok (m, v) ->
    base_conditional Kmn Kmm Knn' f full_cov' q_sqrt' white = Ok (m', v') ->
    m = m'.
Proof.
  intros Kmn Kmm f Knn Knn' white full_cov full_cov' q_sqrt q_sqrt' m v m' v'
    H1 H2.
  unfold base_conditional in H1, H2.
  spine H1. spine H2. same_steps.
  congruence.
Qed.

Lemma interdomain_mean_independent :
  forall (Kmn Kmm f Knn Knn' : tensor F) white full_cov full_cov'
         full_output_cov full_output_cov' q_sqrt q_sqrt' m v m' v',
    independent_interdomain_conditional Kmn Kmm Knn f
      full_cov full_output_cov q_sqrt white = Ok (m, v) ->
    independent_interdomain_conditional Kmn Kmm Knn' f
      full_cov' full_output_cov' q_sqrt' white = Ok (m', v') ->
    m = m'.
Proof.
  intros until v'. intros H1 H2.
  unfold independent_interdomain_conditional in H1, H2.
  spine H1. spine H2. same_steps.
  congruence.
Qed.

(** X12.  The mean of [fully_correlated_conditional_repeat] is fixed by
    [Kmn], [Kmm], [f] and [white]: two calls that return, whatever [Knn],
    [q_sqrt] and the covariance flags of each, return the same mean. *)
Theorem X12_fully_correlated_mean_ignores_covariance_arguments :
  forall (Kmn Kmm f Knn Knn' : tensor F) white full_cov full_cov'
         full_output_cov full_output_cov' q_sqrt q_sqrt' m v m' v',
    fully_correlated_conditional_repeat Kmn Kmm Knn f
      full_cov full_output_cov q_sqrt white = Ok (m, v) ->
    fully_correlated_conditional_repeat Kmn Kmm Knn' f
      full_cov' full_output_cov' q_sqrt' white = Ok (m', v') ->
    m = m'.
Proof.
  intros until v'. intros H1 H2.
  unfold fully_correlated_conditional_repeat in H1, H2.
  spine H1. spine H2. same_steps.
  congruence.
Qed.

(** Whether an operation accepts its operands, and the shape of its result,
    are determined by the operands' shapes. *)
Lemma broadcast_to_same_shape : forall (a a' : tensor F) s t,
  shape a' = shape a -> tf.broadcast_to a s = Ok t ->
  exists t', tf.broadcast_to a' s = Ok t' /\ shape t' = shape t.
Proof.
  intros a a' s t Hs H. unfold tf.broadcast_to in *. rewrite Hs.
  destruct (broadcast_shapes (shape a) s); [|discriminate].
  destruct (list_eqb l s); [|discriminate].
  inversion H; subst. eexists. split; reflexivity.
Qed.

Lemma matmul_same_shape : forall (a a' b b' : tensor F) ta tb t,
  shape a' = shape a -> shape b' = shape b ->
  tf.matmul a b ta tb = Ok t ->
  exists t', tf.matmul a' b' ta tb = Ok t' /\ shape t' = shape t.
Proof.
  intros a a' b b' ta tb t Ha Hb H. unfold tf.matmul, rank in *.
  rewrite Ha, Hb.
  match type of H with
  | (if ?c then _ else _) = _ => destruct c; [|discriminate]
  end.
  inversion H; subst. eexists. split; reflexivity.
Qed.

Lemma tensordot_same_shape : forall (a a' b b' : tensor F) xa xb t,
  shape a' = shape a -> shape b' = shape b ->
  tf.tensordot a b xa xb = Ok t ->
  exists t', tf.tensordot a' b' xa xb = Ok t' /\ shape t' = shape t.
Proof.
  intros a a' b b' xa xb t Ha Hb H. unfold tf.tensordot, rank in *.
  rewrite Ha, Hb.
  match type of H with
  | (if ?c then _ else _) = _ => destruct c; [|discriminate]
  end.
  inversion H; subst. eexists. split; reflexivity.
Qed.

Lemma reshape_same_shape : forall (a a' : tensor F) s t,
  shape a' = shape a -> tf.reshape a s = Ok t ->
  exists t', tf.reshape a' s = Ok t' /\ shape t' = shape t.
Proof.
  intros a a' s t Hs H. unfold tf.reshape in *. rewrite Hs.
  destruct (prod (shape a) =? prod s); [|discriminate].
  inversion H; subst. eexists. split; reflexivity.
Qed.

Lemma shape_at_same_shape : forall (a a' : tensor F) i,
  shape a' = shape a -> shape_at a' i = shape_at a i.
Proof. intros a a' i H. unfold shape_at. rewrite H. reflexivity. Qed.

(** X9.  The variance of [base_conditional] depends on the function values
    only through their shape: when a call returns, the call with any other
    [function] of the same shape returns the same variance. *)
Theorem X9_base_conditional_variance_ignores_function_values :
  forall (Kmn Kmm Knn f f' : tensor F) full_cov q_sqrt white m v,
    shape f' = shape f ->
    base_conditional Kmn Kmm Knn f full_cov q_sqrt white = Ok (m, v) ->
    exists m', base_conditional Kmn Kmm Knn f' full_cov q_sqrt white
               = Ok (m', v).
Proof.
  intros Kmn Kmm Knn f f' full_cov q_sqrt white m v Hs H.
  unfold base_conditional in H |- *.
  rewrite !(shape_at_same_shape f f' _ Hs).
  spine H. cbv beta iota zeta delta [bind]. replay.
  match goal with
  | E : tf.broadcast_to f _ = Ok _ |- _ =>
      destruct (broadcast_to_same_shape _ f' _ _ Hs E) as (fb & Eb & Hsb)
  end.
  rewrite Eb. cbv beta iota zeta delta [bind].
  match goal with
  | E : tf.matmul _ _ true false = Ok _ |- context [tf.matmul ?a fb _ _] =>
      destruct (matmul_same_shape _ a _ fb _ _ _ eq_refl Hsb E)
        as (fm & Em & _)
  end.
  rewrite Em. cbv beta iota zeta delta [bind]. replay.
  inversion H; subst. eexists. reflexivity.
Qed.

(** X11.  The variance of [independent_interdomain_conditional] depends on
    [f] only through its shape: when a call returns, the call with any
    other [f] of the same shape returns the same variance. *)
Theorem X11_interdomain_variance_ignores_function_values :
  forall (Kmn Kmm Knn f f' : tensor F) full_cov full_output_cov q_sqrt white
         m v,
    shape f' = shape f ->
    independent_interdomain_conditional Kmn Kmm Knn f
      full_cov full_output_cov q_sqrt white = Ok (m, v) ->
    exists m', independent_interdomain_conditional Kmn Kmm Knn f'
                 full_cov full_output_cov q_sqrt white = Ok (m', v).
Proof.
  intros Kmn Kmm Knn f f' full_cov full_output_cov q_sqrt white m v Hs H.
  unfold independent_interdomain_conditional in H |- *.
  spine H. cbv beta iota zeta delta [bind]. replay.
  match goal with
  | E : tf.tensordot ?a f _ _ = Ok _ |- _ =>
      destruct (tensordot_same_shape _ a _ f' _ _ _ eq_refl Hs E)
        as (fm & Em & _)
  end.
  rewrite Em. cbv beta iota zeta delta [bind]. replay.
  inversion H; subst. eexists. reflexivity.
Qed.

(** X13.  The variance of [fully_correlated_conditional_repeat] depends on
    [f] only through its shape: when a call returns, the call with any
    other [f] of the same shape returns the same variance. *)
Theorem X13_fully_correlated_variance_ignores_function_values :
  forall (Kmn Kmm Knn f f' : tensor F) full_cov full_output_cov q_sqrt white
         m v,
    shape f' = shape f ->
    fully_correlated_conditional_repeat Kmn Kmm Knn f
      full_cov full_output_cov q_sqrt white = Ok (m, v) ->
    exists m', fully_correlated_conditional_repeat Kmn Kmm Knn f'
                 full_cov full_output_cov q_sqrt white = Ok (m', v).
Proof.
  intros Kmn Kmm Knn f f' full_cov full_output_cov q_sqrt white m v Hs H.
  unfold fully_correlated_conditional_repeat in H |- *.
  rewrite !(shape_at_same_shape f f' _ Hs).
  spine H. cbv beta iota zeta delta [bind]. replay.
  match goal with
  | E : tf.matmul f ?a true false = Ok _ |- _ =>
      destruct (matmul_same_shape _ f' _ a _ _ _ Hs eq_refl E)
        as (fm & Em & Hsm)
  end.
  rewrite Em. cbv beta iota zeta delta [bind].
  match goal with
  | E : tf.reshape _ _ = Ok ?t |- context [tf.reshape fm ?s] =>
      destruct (reshape_same_shape _ fm s t Hsm E) as (fr & Er & _)
  end.
  rewrite Er. cbv beta iota zeta delta [bind]. replay.
  inversion H; subst. eexists. reflexivity.
Qed.

(** X10.  The mean of [independent_interdomain_conditional] is fixed by
    [Kmn], [Kmm], [f] and [white]: two calls that return, whatever [Knn],
    [q_sqrt] and the covariance flags of each, return the same mean. *)
Theorem X10_interdomain_mean_ignores_covariance_arguments :
  forall (Kmn Kmm f Knn Knn' : tensor F) white full_cov full_cov'
         full_output_cov full_output_cov' q_sqrt q_sqrt' m v m' v',
    independent_interdomain_conditional Kmn Kmm Knn f
      full_cov full_output_cov q_sqrt white = Ok (m, v) ->
    independent_interdomain_conditional Kmn Kmm Knn' f
      full_cov' full_output_cov' q_sqrt' white = Ok (m', v') ->
    m = m'.
Proof. exact interdomain_mean_independent. Qed.

(** X8.  The mean of [base_conditional] is fixed by [Kmn], [Kmm],
    [function] and [white]: two calls that return, whatever [Knn],
    [full_cov] and [q_sqrt] of each, return the same mean. *)
Theorem X8_base_conditional_mean_ignores_covariance_arguments :
  forall (Kmn Kmm f Knn Knn' : tensor F) white full_cov full_cov' q_sqrt q_sqrt'
         m v m' v',
    base_conditional Kmn Kmm Knn f full_cov q_sqrt white = Ok (m, v) ->
    base_conditional Kmn Kmm Knn' f full_cov' q_sqrt' white = Ok (m', v') ->
    m = m'.
Proof. exact base_conditional_mean_independent. Qed.

Lemma is_ok_inv : forall (A : Type) (r : result A),
  is_ok r = true -> exists x, r = Ok x.
Proof.
  intros A r H. destruct r as [x|e]; [|discriminate H].
  exists x. reflexivity.
Qed.

End Independence.

(** ** Independence on the example inputs *)

(** Names the mean and the variance of a call that returns. *)
Ltac returned r m v E :=
  let H := fresh "H" in
  assert (H : is_ok r = true) by (vm_compute; reflexivity);
  destruct (is_ok_inv _ r H) as ([m v] & E); clear H.

Lemma X8_base_conditional_mean_witness :
  exists m v m' v',
    base_conditional Ex.Kmn Ex.Kmm Ex.Knn_diag Ex.f1 false None false
    = Ok (m, v)
    /\ base_conditional Ex.Kmn Ex.Kmm Ex.Knn_full Ex.f1 true
         (Some Ex.q_tril) false = Ok (m', v')
    /\ m = m'.
Proof.
  returned (base_conditional Ex.Kmn Ex.Kmm Ex.Knn_diag Ex.f1 false None false)
    m v E1.
  returned (base_conditional Ex.Kmn Ex.Kmm Ex.Knn_full Ex.f1 true
              (Some Ex.q_tril) false) m' v' E2.
  exists m, v, m', v'. split; [exact E1|]. split; [exact E2|].
  exact (X8_base_conditional_mean_ignores_covariance_arguments
           _ _ _ _ _ _ _ _ _ _ _ _ _ _ E1 E2).
Defined.

Lemma X9_base_conditional_variance_witness :
  exists m v m',
    shape Ex.q_diag = shape Ex.f1
    /\ base_conditional Ex.Kmn Ex.Kmm Ex.Knn_full Ex.f1 true
         (Some Ex.q_tril) false = Ok (m, v)
    /\ base_conditional Ex.Kmn Ex.Kmm Ex.Knn_full Ex.q_diag true
         (Some Ex.q_tril) false = Ok (m', v).
Proof.
  returned (base_conditional Ex.Kmn Ex.Kmm Ex.Knn_full Ex.f1 true
              (Some Ex.q_tril) false) m v E1.
  destruct (X9_base_conditional_variance_ignores_function_values
              Ex.Kmn Ex.Kmm Ex.Knn_full Ex.f1 Ex.q_diag true
              (Some Ex.q_tril) false m v eq_refl E1) as (m' & E2).
  exists m, v, m'. split; [reflexivity|]. split; [exact E1 | exact E2].
Defined.

Lemma X10_interdomain_mean_witness :
  exists m v m' v',
    independent_interdomain_conditional Ex.Kmn_MLNP Ex.Kmm_L Ex.Knn_NP Ex.f1
      false false None true = Ok (m, v)
    /\ independent_interdomain_conditional Ex.Kmn_MLNP Ex.Kmm_L Ex.Knn_PNN
         Ex.f1 true false (Some Ex.q_tril) true = Ok (m', v')
    /\ m = m'.
Proof.
  returned (independent_interdomain_conditional Ex.Kmn_MLNP Ex.Kmm_L
              Ex.Knn_NP Ex.f1 false false None true) m v E1.
  returned (independent_interdomain_conditional Ex.Kmn_MLNP Ex.Kmm_L
              Ex.Knn_PNN Ex.f1 true false (Some Ex.q_tril) true) m' v' E2.
  exists m, v, m', v'. split; [exact E1|]. split; [exact E2|].
  exact (X10_interdomain_mean_ignores_covariance_arguments
           _ _ _ _ _ _ _ _ _ _ _ _ _ _ _ _ E1 E2).
Defined.

Lemma X11_interdomain_variance_witness :
  exists m v m',
    shape Ex.q_diag = shape Ex.f1
    /\ independent_interdomain_conditional Ex.Kmn_MLNP Ex.Kmm_L Ex.Knn_PNN
         Ex.f1 true false (Some Ex.q_tril) true = Ok (m, v)
    /\ independent_interdomain_conditional Ex.Kmn_MLNP Ex.Kmm_L Ex.Knn_PNN
         Ex.q_diag true false (Some Ex.q_tril) true = Ok (m', v).
Proof.
  returned (independent_interdomain_conditional Ex.Kmn_MLNP Ex.Kmm_L
              Ex.Knn_PNN Ex.f1 true false (Some Ex.q_tril) true) m v E1.
  destruct (X11_interdomain_variance_ignores_function_values
              Ex.Kmn_MLNP Ex.Kmm_L Ex.Knn_PNN Ex.f1 Ex.q_diag true false
              (Some Ex.q_tril) true m v eq_refl E1) as (m' & E2).
  exists m, v, m'. split; [reflexivity|]. split; [exact E1 | exact E2].
Defined.

Lemma X12_fully_correlated_mean_witness :
  exists m v m' v',
    fully_correlated_conditional_repeat Ex.Kmn_fc Ex.Kmm (Ex.ones [3; 2; 2])
      Ex.f2 false true None true = Ok (m, v)
    /\ fully_correlated_conditional_repeat Ex.Kmn_fc Ex.Kmm
         (Ex.ones [2; 3; 3]) Ex.f2 true false (Some Ex.q_sqrt_R2) true
       = Ok (m', v')
    /\ m = m'.
Proof.
  returned (fully_correlated_conditional_repeat Ex.Kmn_fc Ex.Kmm
              (Ex.ones [3; 2; 2]) Ex.f2 false true None true) m v E1.
  returned (fully_correlated_conditional_repeat Ex.Kmn_fc Ex.Kmm
              (Ex.ones [2; 3; 3]) Ex.f2 true false (Some Ex.q_sqrt_R2) true)
    m' v' E2.
  exists m, v, m', v'. split; [exact E1|]. split; [exact E2|].
  exact (X12_fully_correlated_mean_ignores_covariance_arguments
           _ _ _ _ _ _ _ _ _ _ _ _ _ _ _ _ E1 E2).
Defined.

Lemma X13_fully_correlated_variance_witness :
  exists m v m',
    shape Ex.Kmm = shape Ex.f2
    /\ fully_correlated_conditional_repeat Ex.Kmn_fc Ex.Kmm
         (Ex.ones [2; 3; 3]) Ex.f2 true false (Some Ex.q_sqrt_R2) true
       = Ok (m, v)
    /\ fully_correlated_conditional_repeat Ex.Kmn_fc Ex.Kmm
         (Ex.ones [2; 3; 3]) Ex.Kmm true false (Some Ex.q_sqrt_R2) true
       = Ok (m', v).
Proof.
  returned (fully_correlated_conditional_repeat Ex.Kmn_fc Ex.Kmm
              (Ex.ones [2; 3; 3]) Ex.f2 true false (Some Ex.q_sqrt_R2) true)
    m v E1.
  destruct (X13_fully_correlated_variance_ignores_function_values
              Ex.Kmn_fc Ex.Kmm (Ex.ones [2; 3; 3]) Ex.f2 Ex.Kmm true false
              (Some Ex.q_sqrt_R2) true m v eq_refl E1) as (m' & E2).
  exists m, v, m'. split; [reflexivity|]. split; [exact E1 | exact E2].
Defined.


(** * [base_conditional] in full: both representations, with and without
      [q_sqrt] *)

Section Kernels2.
Context {F : Type} {SF : Scalar F}.

Lemma solve_upper_ext : forall n (m m' : nat -> nat -> F) b b' i,
  (forall r c, r < n -> c < n -> m r c = m' r c) ->
  (forall r, r < n -> b r = b' r) ->
  tf.solve_mat false n m b i = tf.solve_mat false n m' b' i.
Proof.
  intros n m m' b b' i Hm Hb. unfold tf.solve_mat. f_equal.
  apply fwd_sub_ext.
  - intros r c Hr Hc. apply Hm; lia.
  - intros r Hr. apply Hb. lia.
Qed.

Lemma zip_dims_unit_ends : forall M N R,
  zip_dims [1; M; N] [R; M; 1] = Some [R; M; N].
Proof.
  intros M N R. cbn -[Nat.eqb].
  destruct (Nat.eqb_spec N 1) as [->|], (Nat.eqb_spec 1 R) as [<-|];
    rewrite ?Nat.eqb_refl; reflexivity.
Qed.

End Kernels2.

Section BaseGeneral.
Context {F : Type} {SF : Scalar F}.

Variables (Kmn Kmm Knn f : tensor F) (M N R : nat) (lead : list nat)
          (white : bool).
Hypothesis HKmn : shape Kmn = M :: lead ++ [N].
Hypothesis HKmm : shape Kmm = [M; M].
Hypothesis Hf : shape f = [M; R].

(** Runs the statements of [base_conditional] up to the projection
    matrix, naming the intermediate tensors. *)
Ltac base_prefix :=
  let Hrank := fresh "Hrank" in
  let Kt := fresh "Kt" in let HsKt := fresh "HsKt" in
  let Lm0 := fresh "Lm0" in let HsLm0 := fresh "HsLm0" in
  let Hb0 := fresh "Hb0" in
  let Lm := fresh "Lm" in let HsLm := fresh "HsLm" in
  let A := fresh "A" in let HsA := fresh "HsA" in
  assert (Hrank : rank Kmn = length lead + 2)
    by (unfold rank; rewrite HKmn; cbn [length]; rewrite length_app; cbn; lia);
  unfold base_projection, base_conditional, tf.sub, tf.add, tf.mul;
  unfold shape_at; rewrite Hf; cbn [nth_error bind];
  rewrite (shape_last_ok Kmn (M :: lead) N) by (now rewrite HKmn);
  cbn [bind]; rewrite Hrank;
  replace (length lead + 2 - 1 - 1) with (length lead) by lia;
  replace (length lead + 2 - 1) with (length lead + 1) by lia;
  cbn [app];
  run (transpose_move_ok Kmn M lead N HKmn) Kt HsKt;
  rewrite HsKt, batch_app2;
  run (cholesky_ok Kmm [] M HKmm) Lm0 HsLm0;
  rewrite HsLm0; cbn [app];
  assert (Hb0 : broadcast_shapes (shape Lm0) (lead ++ [M; M])
                = Some (lead ++ [M; M]))
    by (rewrite HsLm0; apply broadcast_shapes_suffix_l);
  run (broadcast_to_ok Lm0 (lead ++ [M; M]) Hb0) Lm HsLm;
  run (triangular_solve_ok Lm Kt lead M N true HsLm HsKt) A HsA.

(** Runs the whiteness branch and the mean for either representation;
    [Am] is the matrix that multiplies the function values and [q_sqrt]. *)
Ltac base_mean_any Lm0 HsLm0 Lm HsLm A HsA :=
  let Hb3 := fresh "Hb3" in
  let f' := fresh "f'" in let Hsf' := fresh "Hsf'" in
  let fmean := fresh "fmean" in let Hsfmean := fresh "Hsfmean" in
  let Lmt := fresh "Lmt" in
  let Am := fresh "Am" in let HsAm := fresh "HsAm" in
  let EAm := fresh "EAm" in let HAm := fresh "HAm" in
  assert (Hb3 : broadcast_shapes (shape f) (lead ++ [M; R])
                = Some (lead ++ [M; R]))
    by (rewrite Hf; apply broadcast_shapes_suffix_l);
  pose (Lmt := mkT (lead ++ [M; M])
                 (fun idx => data Lm (batch idx ++ [col_of idx; row_of idx])));
  pose (Am := mkT (lead ++ [M; N])
                (fun idx =>
                   if white then data A idx
                   else tf.solve_mat false M
                          (fun i j => data Lmt (batch idx ++ [i; j]))
                          (fun i => data A (batch idx ++ [i; col_of idx]))
                          (row_of idx)));
  assert (HsAm : shape Am = lead ++ [M; N]) by reflexivity;
  assert (EAm : (if negb white
                 then Lt <- tf.linalg_transpose Lm ;;
                      tf.triangular_solve Lt A false
                 else Ok A) = Ok Am)
    by (unfold Am; destruct white; cbn [negb];
        [ reflexivity
        | rewrite (linalg_transpose_ok Lm lead M M HsLm); cbn [bind];
          rewrite (triangular_solve_ok Lmt A lead M N false eq_refl HsA);
          reflexivity ]);
  assert (HAm : mean_projection white A Am Kmm M)
    by (split; [rewrite HsA; reflexivity|];
        let b := fresh "b" in let c := fresh "c" in let n := fresh "n" in
        let Hr := fresh "Hr" in
        intros b c n Hr; rewrite HsA in Hr;
        apply in_range_split in Hr; [|reflexivity];
        destruct Hr as (_ & Hr & _);
        unfold Am; cbn [data]; destruct white; [reflexivity|];
        rewrite batch_app2, row_of_app2, col_of_app2;
        apply solve_upper_ext; [|reflexivity];
        let i := fresh "i" in let j := fresh "j" in
        intros i j ? ?;
        unfold Lmt; cbn [data];
        rewrite batch_app2, row_of_app2, col_of_app2;
        unfold Lm; cbn [data]; rewrite HsLm0;
        rewrite bidx_suffix_in_range by in_range_solve;
        unfold Lm0; cbn [data]; simpl_idx; reflexivity);
  rewrite EAm; cbn [bind]; clear EAm;
  clearbody Am;
  run (broadcast_to_ok f (lead ++ [M; R]) Hb3) f' Hsf';
  run (matmul_tn_ok Am f' lead M N R HsAm Hsf') fmean Hsfmean.

(** Runs the full-covariance branch of the base variance; [V] is the
    variance before any variational term. *)
Ltac base_var_full HKnn A HsA :=
  let AtA := fresh "AtA" in let HsAtA := fresh "HsAtA" in
  let Hb1 := fresh "Hb1" in
  let X := fresh "X" in let HsX := fresh "HsX" in
  let Hn := fresh "Hn" in
  let E := fresh "E" in let HsE := fresh "HsE" in
  let Hb2 := fresh "Hb2" in
  let V := fresh "V" in let HsV := fresh "HsV" in
  let Hdata := fresh "Hdata" in
  run (matmul_tn_ok A A lead M N N HsA HsA) AtA HsAtA;
  assert (Hb1 : broadcast_shapes (shape Knn) (shape AtA)
                = Some (lead ++ [N; N]))
    by (rewrite HKnn, HsAtA; apply broadcast_shapes_suffix_l);
  run (binop_ok "sub"%string ssub Knn AtA (lead ++ [N; N]) Hb1) X HsX;
  assert (Hn : norm_axis (S (rank X)) (-3) = Some (length lead))
    by (unfold rank; rewrite HsX, rank_app2;
        change (-3)%Z with (- Z.of_nat 3)%Z; rewrite norm_axis_neg by lia;
        f_equal; lia);
  run (expand_dims_ok X (-3) (length lead) Hn) E HsE;
  rewrite HsX, firstn_length_app, skipn_length_app in HsE;
  assert (Hb2 : broadcast_shapes (shape E) (lead ++ [R; N; N])
                = Some (lead ++ [R; N; N]))
    by (rewrite HsE; apply broadcast_shapes_stretch);
  run (broadcast_to_ok E (lead ++ [R; N; N]) Hb2) V HsV;
  assert (Hdata : forall b r i j,
    in_range (lead ++ [R; N; N]) (b ++ [r; i; j]) ->
    data V (b ++ [r; i; j])
    = ssub (data Knn [i; j])
        (tf.big_sum M (fun m => smul (data A (b ++ [m; i]))
                                     (data A (b ++ [m; j])))))
    by (let b := fresh "b" in let r := fresh "r" in
        let i := fresh "i" in let j := fresh "j" in
        let Hr := fresh "Hr" in
        let Hlen := fresh "Hlen" in let Hrb := fresh "Hrb" in
        let Hr3 := fresh "Hr3" in let Hr2 := fresh "Hr2" in
        intros b r i j Hr;
        apply in_range_split in Hr; [|reflexivity];
        destruct Hr as (Hlen & Hrb & Hr3);
        inversion Hr3 as [|? ? ? ? _ Hr2]; subst;
        unfold V; cbn [data]; rewrite HsE;
        rewrite bidx_same_length by (rewrite !length_app; cbn; lia);
        rewrite clamp_app by lia; rewrite (clamp_in_range _ _ Hrb);
        change (clamp [1; N; N] [r; i; j]) with (0 :: clamp [N; N] [i; j]);
        rewrite (clamp_in_range _ _ Hr2);
        unfold E; cbn [data];
        rewrite <- Hlen at 1; rewrite firstn_length_app;
        replace (S (length lead)) with (length (b ++ [0]))
          by (rewrite length_app; cbn; lia);
        replace (b ++ [0; i; j]) with ((b ++ [0]) ++ [i; j])
          by (now rewrite <- app_assoc);
        rewrite skipn_length_app;
        unfold X; cbn [data]; rewrite HKnn, HsAtA;
        rewrite (bidx_suffix_in_range [N; N] b [i; j] Hr2);
        rewrite bidx_in_range by (now apply in_range_app_intro);
        unfold AtA; cbn [data];
        rewrite batch_app2, row_of_app2, col_of_app2; reflexivity).

Lemma base_general_full : forall q_sqrt,
  shape Knn = [N; N] ->
  q_sqrt_documented lead M R q_sqrt ->
  exists A Am fmean fvar,
    base_projection Kmn Kmm = Ok A /\
    shape A = lead ++ [M; N] /\
    mean_projection white A Am Kmm M /\
    base_conditional Kmn Kmm Knn f true q_sqrt white = Ok (fmean, fvar) /\
    shape fmean = lead ++ [N; R] /\
    (forall b n r,
       in_range (lead ++ [N; R]) (b ++ [n; r]) ->
       data fmean (b ++ [n; r])
       = tf.big_sum M (fun c => smul (data Am (b ++ [c; n])) (data f [c; r]))) /\
    shape fvar = lead ++ [R; N; N] /\
    (forall b r i j,
       in_range (lead ++ [R; N; N]) (b ++ [r; i; j]) ->
       data fvar (b ++ [r; i; j])
       = let V := ssub (data Knn [i; j])
                    (tf.big_sum M (fun m => smul (data A (b ++ [m; i]))
                                                 (data A (b ++ [m; j])))) in
         match q_sqrt with
         | None => V
         | Some q =>
             sadd V (tf.big_sum M (fun c => smul (base_lta Am q M b r c i)
                                                 (base_lta Am q M b r c j)))
         end).
Proof.
  intros q_sqrt HKnn Hq.
  base_prefix. exists A.
  base_var_full HKnn A HsA.
  base_mean_any Lm0 HsLm0 Lm HsLm A HsA.
  exists Am.
  assert (Hmean : forall b n r,
    in_range (lead ++ [N; R]) (b ++ [n; r]) ->
    data fmean (b ++ [n; r])
    = tf.big_sum M (fun c => smul (data Am (b ++ [c; n])) (data f [c; r]))).
  { intros b n r Hr.
    apply in_range_split in Hr; [|reflexivity].
    destruct Hr as (Hlen & Hrb & Hr2).
    inversion Hr2 as [|? ? ? ? Hnlt Hr1]; subst.
    inversion Hr1 as [|? ? ? ? Hr0 _]; subst.
    unfold fmean. cbn [data].
    rewrite batch_app2, row_of_app2, col_of_app2.
    apply big_sum_ext. intros c Hc.
    unfold f'. cbn [data]. rewrite Hf.
    rewrite bidx_suffix_in_range by in_range_solve. reflexivity. }
  destruct q_sqrt as [q|]; [destruct Hq as [Hq3 | [Hq2 Hlead]]|].
  - (* rank 3 *)
    cbn [bind negb].
    unfold rank at 1 2; rewrite Hq3; cbn [length Nat.eqb].
    assert (HbL : broadcast_shapes (shape q) (lead ++ [R; M; M])
                  = Some (lead ++ [R; M; M]))
      by (rewrite Hq3; apply broadcast_shapes_suffix_l).
    run (broadcast_to_ok q (lead ++ [R; M; M]) HbL) L HsL.
    assert (HnA : norm_axis (S (rank Am)) (-3) = Some (length lead))
      by (unfold rank; rewrite HsAm, rank_app2;
          change (-3)%Z with (- Z.of_nat 3)%Z;
          rewrite norm_axis_neg by lia; f_equal; lia).
    run (expand_dims_ok Am (-3) (length lead) HnA) Ae HsAe.
    rewrite HsAm, firstn_length_app, skipn_length_app in HsAe.
    assert (HbA : broadcast_shapes (shape Ae) (lead ++ [R; M; N])
                  = Some (lead ++ [R; M; N]))
      by (rewrite HsAe; apply broadcast_shapes_stretch).
    run (broadcast_to_ok Ae (lead ++ [R; M; N]) HbA) Ab HsAb.
    replace (lead ++ [R; M; M]) with ((lead ++ [R]) ++ [M; M]) in HsL
      by (now rewrite <- app_assoc).
    replace (lead ++ [R; M; N]) with ((lead ++ [R]) ++ [M; N]) in HsAb
      by (now rewrite <- app_assoc).
    run (matmul_tn_ok L Ab (lead ++ [R]) M M N HsL HsAb) LTA HsLTA.
    run (matmul_tn_ok LTA LTA (lead ++ [R]) M N N HsLTA HsLTA) C HsC.
    rewrite <- app_assoc in HsC; cbn [app] in HsC.
    assert (Hb4 : broadcast_shapes (shape V) (shape C)
                  = Some (lead ++ [R; N; N])).
    { rewrite HsV, HsC, broadcast_shapes_same_length by reflexivity.
      apply zip_dims_refl. }
    run (binop_ok "add"%string sadd V C (lead ++ [R; N; N]) Hb4) W HsW.
    assert (HLTA : forall b r c n,
      length b = length lead -> in_range lead b ->
      r < R -> c < M -> n < N ->
      data LTA ((b ++ [r]) ++ [c; n]) = base_lta Am q M b r c n).
    { intros b r c n Hlen Hrb Hr0 Hc Hnlt.
      unfold base_lta, rank. rewrite Hq3. cbn [length Nat.eqb].
      unfold LTA. cbn [data].
      rewrite batch_app2, row_of_app2, col_of_app2.
      apply big_sum_ext. intros k Hk. f_equal.
      - unfold L. cbn [data]. rewrite Hq3.
        rewrite <- app_assoc. cbn [app].
        rewrite bidx_suffix_in_range by in_range_solve. reflexivity.
      - unfold Ab. cbn [data]. rewrite HsAe.
        rewrite <- app_assoc. cbn [app].
        rewrite bidx_same_length by (rewrite !length_app; cbn; lia).
        rewrite clamp_app by lia. rewrite (clamp_in_range _ _ Hrb).
        change (clamp [1; M; N] [r; k; n]) with (0 :: clamp [M; N] [k; n]).
        rewrite clamp_in_range by in_range_solve.
        unfold Ae. cbn [data].
        rewrite <- Hlen at 1. rewrite firstn_length_app.
        replace (S (length lead)) with (length (b ++ [0]))
          by (rewrite length_app; cbn; lia).
        replace (b ++ [0; k; n]) with ((b ++ [0]) ++ [k; n])
          by (now rewrite <- app_assoc).
        rewrite skipn_length_app. reflexivity. }
    exists fmean, W.
    split; [reflexivity|]. split; [assumption|]. split; [exact HAm|].
    split; [reflexivity|].
    split; [assumption|]. split; [assumption|]. split; [assumption|].
    intros b r i j Hr. cbv zeta.
    pose proof Hr as Hr'.
    apply in_range_split in Hr'; [|reflexivity].
    destruct Hr' as (Hlen & Hrb & Hr3).
    inversion Hr3 as [|? ? ? ? Hr0 Hr2]; subst.
    inversion Hr2 as [|? ? ? ? Hi Hr1]; subst.
    inversion Hr1 as [|? ? ? ? Hj _]; subst.
    unfold W. cbn [data]. rewrite HsV, HsC.
    rewrite !(bidx_in_range _ _ Hr).
    rewrite (Hdata _ _ _ _ Hr). f_equal.
    unfold C. cbn [data].
    replace (b ++ [r; i; j]) with ((b ++ [r]) ++ [i; j])
      by (now rewrite <- app_assoc).
    rewrite batch_app2, row_of_app2, col_of_app2.
    apply big_sum_ext. intros c Hc.
    rewrite !HLTA by assumption. reflexivity.
  - (* rank 2 *)
    cbn [bind negb].
    unfold rank at 1; rewrite Hq2; cbn [length Nat.eqb].
    run (transpose_all_2_ok q M R Hq2) qT HsqT.
    assert (Hnq : norm_axis (S (rank qT)) 2 = Some 2)
      by (unfold rank; rewrite HsqT; reflexivity).
    run (expand_dims_ok qT 2 2 Hnq) qe Hsqe.
    rewrite HsqT in Hsqe; cbn [firstn skipn app] in Hsqe.
    assert (Hbm : broadcast_shapes (shape Am) (shape qe) = Some [R; M; N])
      by (rewrite HsAm, Hsqe, Hlead; apply zip_dims_unit_ends).
    run (binop_ok "mul"%string smul Am qe [R; M; N] Hbm) LTA HsLTA.
    run (matmul_tn_ok LTA LTA [R] M N N HsLTA HsLTA) C HsC.
    assert (Hb4 : broadcast_shapes (shape V) (shape C)
                  = Some (lead ++ [R; N; N])).
    { rewrite HsV, HsC, Hlead, broadcast_shapes_same_length by reflexivity.
      apply zip_dims_refl. }
    run (binop_ok "add"%string sadd V C (lead ++ [R; N; N]) Hb4) W HsW.
    assert (HLTA : forall r c n, r < R -> c < M -> n < N ->
      data LTA ([r] ++ [c; n]) = base_lta Am q M [] r c n).
    { intros r c n Hr0 Hc Hnlt.
      unfold base_lta, rank. rewrite Hq2. cbn [length Nat.eqb app].
      unfold LTA. cbn [data]. rewrite HsAm, Hsqe, Hlead. cbn [app].
      replace (bidx [M; N] [r; c; n]) with [c; n]
        by (symmetry; apply (bidx_suffix_in_range [M; N] [r] [c; n]);
            in_range_solve).
      rewrite bidx_same_length by reflexivity.
      change (clamp [R; M; 1] [r; c; n])
        with (clamp ([R; M] ++ [1]) ([r; c] ++ [n])).
      rewrite clamp_app by reflexivity.
      rewrite clamp_in_range by in_range_solve.
      cbn [clamp Nat.eqb app].
      unfold qe, qT. cbn [data firstn skipn app assemble find_pos Nat.eqb
                            option_map nth hd tl].
      reflexivity. }
    exists fmean, W.
    split; [reflexivity|]. split; [assumption|]. split; [exact HAm|].
    split; [reflexivity|].
    split; [assumption|]. split; [assumption|]. split; [assumption|].
    intros b r i j Hr. cbv zeta.
    pose proof Hr as Hr'.
    apply in_range_split in Hr'; [|reflexivity].
    destruct Hr' as (Hlen & Hrb & Hr3).
    inversion Hr3 as [|? ? ? ? Hr0 Hr2]; subst.
    inversion Hr2 as [|? ? ? ? Hi Hr1]; subst.
    inversion Hr1 as [|? ? ? ? Hj _]; subst.
    assert (Hb : b = []) by (destruct b; [reflexivity | discriminate]).
    unfold W. cbn [data]. rewrite HsV, HsC.
    rewrite (bidx_in_range _ _ Hr).
    rewrite (Hdata _ _ _ _ Hr). f_equal.
    subst b. cbn [app].
    rewrite bidx_in_range by in_range_solve.
    unfold C. cbn [data].
    change [r; i; j] with ([r] ++ [i; j]).
    rewrite batch_app2, row_of_app2, col_of_app2.
    apply big_sum_ext. intros c Hc.
    rewrite !HLTA by assumption. reflexivity.
  - cbn [bind negb].
    exists fmean, V.
    split; [reflexivity|]. split; [assumption|]. split; [exact HAm|].
    split; [reflexivity|].
    split; [assumption|]. split; [assumption|]. split; [assumption|].
    intros b r i j Hr. cbv zeta. apply Hdata. exact Hr.
Qed.


Lemma base_general_diag : forall q_sqrt,
  shape Knn = [N] ->
  q_sqrt_documented lead M R q_sqrt ->
  exists A Am fmean fvar,
    base_projection Kmn Kmm = Ok A /\
    shape A = lead ++ [M; N] /\
    mean_projection white A Am Kmm M /\
    base_conditional Kmn Kmm Knn f false q_sqrt white = Ok (fmean, fvar) /\
    shape fmean = lead ++ [N; R] /\
    (forall b n r,
       in_range (lead ++ [N; R]) (b ++ [n; r]) ->
       data fmean (b ++ [n; r])
       = tf.big_sum M (fun c => smul (data Am (b ++ [c; n])) (data f [c; r]))) /\
    shape fvar = lead ++ [N; R] /\
    (forall b n r,
       in_range (lead ++ [N; R]) (b ++ [n; r]) ->
       data fvar (b ++ [n; r])
       = let V := ssub (data Knn [n])
                    (tf.big_sum M (fun m => smul (data A (b ++ [m; n]))
                                                 (data A (b ++ [m; n])))) in
         match q_sqrt with
         | None => V
         | Some q =>
             sadd V (tf.big_sum M (fun c => smul (base_lta Am q M b r c n)
                                                 (base_lta Am q M b r c n)))
         end).
Proof.
  intros q_sqrt HKnn Hq.
  base_prefix. exists A.
  assert (Hn0 : norm_axis (rank (tf.square A)) (-2) = Some (length lead)).
  { unfold rank. cbn [tf.square shape]. rewrite HsA, rank_app2.
    change (-2)%Z with (- Z.of_nat 2)%Z. rewrite norm_axis_neg by lia.
    f_equal. lia. }
  run (reduce_sum_ok (tf.square A) (-2) (length lead) Hn0 ) Sq HsSq.
  unfold tf.square in HsSq. cbn [shape] in HsSq. rewrite HsA in HsSq.
  rewrite firstn_length_app in HsSq.
  replace (S (length lead)) with (length (lead ++ [M])) in HsSq
    by (rewrite length_app; cbn; lia).
  replace (lead ++ [M; N]) with ((lead ++ [M]) ++ [N]) in HsSq
    by (now rewrite <- app_assoc).
  rewrite skipn_length_app in HsSq.
  assert (Hb1 : broadcast_shapes (shape Knn) (shape Sq) = Some (lead ++ [N])).
  { rewrite HKnn, HsSq. apply broadcast_shapes_suffix_l. }
  run (binop_ok "sub"%string ssub Knn Sq (lead ++ [N]) Hb1) X HsX.
  assert (Hn : norm_axis (S (rank X)) (-2) = Some (length lead)).
  { unfold rank. rewrite HsX, length_app. cbn [length].
    change (-2)%Z with (- Z.of_nat 2)%Z. rewrite norm_axis_neg by lia.
    f_equal. lia. }
  run (expand_dims_ok X (-2) (length lead) Hn) E HsE.
  rewrite HsX, firstn_length_app, skipn_length_app in HsE.
  assert (Hb2 : broadcast_shapes (shape E) (lead ++ [R; N]) = Some (lead ++ [R; N])).
  { rewrite HsE. apply broadcast_shapes_stretch. }
  run (broadcast_to_ok E (lead ++ [R; N]) Hb2) V HsV.
  assert (Hdata : forall b r i,
    in_range (lead ++ [R; N]) (b ++ [r; i]) ->
    data V (b ++ [r; i])
    = ssub (data Knn [i])
        (tf.big_sum M (fun m => smul (data A (b ++ [m; i]))
                                     (data A (b ++ [m; i]))))).
  { intros b r i Hr.
    apply in_range_split in Hr; [|reflexivity].
    destruct Hr as (Hlen & Hrb & Hr2).
    inversion Hr2 as [|? ? ? ? _ Hr1]; subst.
    unfold V. cbn [data]. rewrite HsE.
    rewrite bidx_same_length by (rewrite !length_app; cbn; lia).
    rewrite clamp_app by lia. rewrite (clamp_in_range _ _ Hrb).
    change (clamp [1; N] [r; i]) with (0 :: clamp [N] [i]).
    rewrite (clamp_in_range _ _ Hr1).
    unfold E. cbn [data].
    rewrite <- Hlen at 1. rewrite firstn_length_app.
    replace (S (length lead)) with (length (b ++ [0])) by (rewrite length_app; cbn; lia).
    replace (b ++ [0; i]) with ((b ++ [0]) ++ [i]) by (now rewrite <- app_assoc).
    rewrite skipn_length_app.
    unfold X. cbn [data]. rewrite HKnn, HsSq.
    rewrite (bidx_suffix_in_range [N] b [i] Hr1).
    rewrite bidx_in_range by (now apply in_range_app_intro).
    unfold Sq. cbn [data shape tf.square]. rewrite HsA.
    rewrite nth_middle.
    rewrite <- Hlen. rewrite firstn_length_app, skipn_length_app.
    reflexivity. }
  base_mean_any Lm0 HsLm0 Lm HsLm A HsA.
  exists Am.
  assert (Hmean : forall b n r,
    in_range (lead ++ [N; R]) (b ++ [n; r]) ->
    data fmean (b ++ [n; r])
    = tf.big_sum M (fun c => smul (data Am (b ++ [c; n])) (data f [c; r]))).
  { intros b n r Hr.
    apply in_range_split in Hr; [|reflexivity].
    destruct Hr as (Hlen & Hrb & Hr2).
    inversion Hr2 as [|? ? ? ? Hnlt Hr1]; subst.
    inversion Hr1 as [|? ? ? ? Hr0 _]; subst.
    unfold fmean. cbn [data].
    rewrite batch_app2, row_of_app2, col_of_app2.
    apply big_sum_ext. intros c Hc.
    unfold f'. cbn [data]. rewrite Hf.
    rewrite bidx_suffix_in_range by in_range_solve. reflexivity. }
  (* the variance before the final transposition *)
  assert (Hfin : forall (W : tensor F),
    shape W = lead ++ [R; N] ->
    (forall b r n, in_range (lead ++ [R; N]) (b ++ [r; n]) ->
       data W (b ++ [r; n])
       = let V := ssub (data Knn [n])
                    (tf.big_sum M (fun m => smul (data A (b ++ [m; n]))
                                                 (data A (b ++ [m; n])))) in
         match q_sqrt with
         | None => V
         | Some q =>
             sadd V (tf.big_sum M (fun c => smul (base_lta Am q M b r c n)
                                                 (base_lta Am q M b r c n)))
         end) ->
    exists fmean0 fvar,
      Ok A = Ok A
      /\ shape A = lead ++ [M; N]
      /\ mean_projection white A Am Kmm M
      /\ (fvar0 <- tf.linalg_transpose W ;; Ok (fmean, fvar0)) = Ok (fmean0, fvar)
      /\ shape fmean0 = lead ++ [N; R]
      /\ (forall b n r,
            in_range (lead ++ [N; R]) (b ++ [n; r]) ->
            data fmean0 (b ++ [n; r])
            = tf.big_sum M (fun c => smul (data Am (b ++ [c; n]))
                                          (data f [c; r])))
      /\ shape fvar = lead ++ [N; R]
      /\ (forall b n r,
            in_range (lead ++ [N; R]) (b ++ [n; r]) ->
            data fvar (b ++ [n; r])
            = let V := ssub (data Knn [n])
                         (tf.big_sum M (fun m => smul (data A (b ++ [m; n]))
                                                      (data A (b ++ [m; n])))) in
              match q_sqrt with
              | None => V
              | Some q =>
                  sadd V (tf.big_sum M (fun c => smul (base_lta Am q M b r c n)
                                                      (base_lta Am q M b r c n)))
              end)).
  { intros W HsW HdW.
    run (linalg_transpose_ok W lead R N HsW) Wt HsWt.
    exists fmean, Wt.
    split; [reflexivity|]. split; [assumption|]. split; [exact HAm|].
    split; [reflexivity|]. split; [assumption|]. split; [assumption|].
    split; [assumption|].
    intros b n r Hr.
    apply in_range_split in Hr; [|reflexivity].
    destruct Hr as (Hlen & Hrb & Hr2).
    inversion Hr2 as [|? ? ? ? Hnlt Hr1]; subst.
    inversion Hr1 as [|? ? ? ? Hr0 _]; subst.
    unfold Wt. cbn [data].
    rewrite batch_app2, row_of_app2, col_of_app2.
    apply HdW.
    apply in_range_app_intro; [assumption|]. in_range_solve. }
  destruct q_sqrt as [q|]; [destruct Hq as [Hq3 | [Hq2 Hlead]]|].
  - (* rank 3 *)
    cbn [bind negb].
    unfold rank at 1 2; rewrite Hq3; cbn [length Nat.eqb].
    assert (HbL : broadcast_shapes (shape q) (lead ++ [R; M; M])
                  = Some (lead ++ [R; M; M]))
      by (rewrite Hq3; apply broadcast_shapes_suffix_l).
    run (broadcast_to_ok q (lead ++ [R; M; M]) HbL) L HsL.
    assert (HnA : norm_axis (S (rank Am)) (-3) = Some (length lead))
      by (unfold rank; rewrite HsAm, rank_app2;
          change (-3)%Z with (- Z.of_nat 3)%Z;
          rewrite norm_axis_neg by lia; f_equal; lia).
    run (expand_dims_ok Am (-3) (length lead) HnA) Ae HsAe.
    rewrite HsAm, firstn_length_app, skipn_length_app in HsAe.
    assert (HbA : broadcast_shapes (shape Ae) (lead ++ [R; M; N])
                  = Some (lead ++ [R; M; N]))
      by (rewrite HsAe; apply broadcast_shapes_stretch).
    run (broadcast_to_ok Ae (lead ++ [R; M; N]) HbA) Ab HsAb.
    replace (lead ++ [R; M; M]) with ((lead ++ [R]) ++ [M; M]) in HsL
      by (now rewrite <- app_assoc).
    replace (lead ++ [R; M; N]) with ((lead ++ [R]) ++ [M; N]) in HsAb
      by (now rewrite <- app_assoc).
    run (matmul_tn_ok L Ab (lead ++ [R]) M M N HsL HsAb) LTA HsLTA.
    assert (HLTA : forall b r c n,
      length b = length lead -> in_range lead b ->
      r < R -> c < M -> n < N ->
      data LTA ((b ++ [r]) ++ [c; n]) = base_lta Am q M b r c n).
    { intros b r c n Hlen Hrb Hr0 Hc Hnlt.
      unfold base_lta, rank. rewrite Hq3. cbn [length Nat.eqb].
      unfold LTA. cbn [data].
      rewrite batch_app2, row_of_app2, col_of_app2.
      apply big_sum_ext. intros k Hk. f_equal.
      - unfold L. cbn [data]. rewrite Hq3.
        rewrite <- app_assoc. cbn [app].
        rewrite bidx_suffix_in_range by in_range_solve. reflexivity.
      - unfold Ab. cbn [data]. rewrite HsAe.
        rewrite <- app_assoc. cbn [app].
        rewrite bidx_same_length by (rewrite !length_app; cbn; lia).
        rewrite clamp_app by lia. rewrite (clamp_in_range _ _ Hrb).
        change (clamp [1; M; N] [r; k; n]) with (0 :: clamp [M; N] [k; n]).
        rewrite clamp_in_range by in_range_solve.
        unfold Ae. cbn [data].
        rewrite <- Hlen at 1. rewrite firstn_length_app.
        replace (S (length lead)) with (length (b ++ [0]))
          by (rewrite length_app; cbn; lia).
        replace (b ++ [0; k; n]) with ((b ++ [0]) ++ [k; n])
          by (now rewrite <- app_assoc).
        rewrite skipn_length_app. reflexivity. }
    assert (HnL : norm_axis (rank (tf.square LTA)) (-2)
                  = Some (length (lead ++ [R]))).
    { unfold rank. cbn [tf.square shape]. rewrite HsLTA, rank_app2.
      change (-2)%Z with (- Z.of_nat 2)%Z. rewrite norm_axis_neg by lia.
      f_equal. lia. }
    run (reduce_sum_ok (tf.square LTA) (-2) (length (lead ++ [R])) HnL) C HsC.
    unfold tf.square in HsC. cbn [shape] in HsC. rewrite HsLTA in HsC.
    rewrite firstn_length_app in HsC.
    replace (S (length (lead ++ [R]))) with (length ((lead ++ [R]) ++ [M]))
      in HsC by (rewrite !length_app; cbn; lia).
    replace ((lead ++ [R]) ++ [M; N]) with (((lead ++ [R]) ++ [M]) ++ [N])
      in HsC by (now rewrite <- !app_assoc).
    rewrite skipn_length_app in HsC.
    rewrite <- app_assoc in HsC. cbn [app] in HsC.
    assert (Hb4 : broadcast_shapes (shape V) (shape C)
                  = Some (lead ++ [R; N])).
    { rewrite HsV, HsC, broadcast_shapes_same_length by reflexivity.
      apply zip_dims_refl. }
    run (binop_ok "add"%string sadd V C (lead ++ [R; N]) Hb4) W HsW.
    apply (Hfin W HsW).
    intros b r n Hr. cbv zeta.
    pose proof Hr as Hr'.
    apply in_range_split in Hr'; [|reflexivity].
    destruct Hr' as (Hlen & Hrb & Hr2).
    inversion Hr2 as [|? ? ? ? Hr0 Hr1]; subst.
    inversion Hr1 as [|? ? ? ? Hnlt _]; subst.
    unfold W. cbn [data]. rewrite HsV, HsC.
    rewrite !(bidx_in_range _ _ Hr).
    rewrite (Hdata _ _ _ Hr). f_equal.
    unfold C. cbn [data shape tf.square]. rewrite HsLTA.
    rewrite nth_middle.
    replace (b ++ [r; n]) with ((b ++ [r]) ++ [n])
      by (now rewrite <- app_assoc).
    replace (length (lead ++ [R])) with (length (b ++ [r]))
      by (rewrite !length_app; cbn [length]; lia).
    rewrite firstn_length_app, skipn_length_app.
    apply big_sum_ext. intros c Hc.
    change ((b ++ [r]) ++ [c; n]) with ((b ++ [r]) ++ c :: [n]).
    rewrite !HLTA by assumption. reflexivity.
  - (* rank 2 *)
    cbn [bind negb].
    unfold rank at 1; rewrite Hq2; cbn [length Nat.eqb].
    run (transpose_all_2_ok q M R Hq2) qT HsqT.
    assert (Hnq : norm_axis (S (rank qT)) 2 = Some 2)
      by (unfold rank; rewrite HsqT; reflexivity).
    run (expand_dims_ok qT 2 2 Hnq) qe Hsqe.
    rewrite HsqT in Hsqe; cbn [firstn skipn app] in Hsqe.
    assert (Hbm : broadcast_shapes (shape Am) (shape qe) = Some [R; M; N])
      by (rewrite HsAm, Hsqe, Hlead; apply zip_dims_unit_ends).
    run (binop_ok "mul"%string smul Am qe [R; M; N] Hbm) LTA HsLTA.
    assert (HLTA : forall r c n, r < R -> c < M -> n < N ->
      data LTA ([r] ++ [c; n]) = base_lta Am q M [] r c n).
    { intros r c n Hr0 Hc Hnlt.
      unfold base_lta, rank. rewrite Hq2. cbn [length Nat.eqb app].
      unfold LTA. cbn [data]. rewrite HsAm, Hsqe, Hlead. cbn [app].
      replace (bidx [M; N] [r; c; n]) with [c; n]
        by (symmetry; apply (bidx_suffix_in_range [M; N] [r] [c; n]);
            in_range_solve).
      rewrite bidx_same_length by reflexivity.
      change (clamp [R; M; 1] [r; c; n])
        with (clamp ([R; M] ++ [1]) ([r; c] ++ [n])).
      rewrite clamp_app by reflexivity.
      rewrite clamp_in_range by in_range_solve.
      cbn [clamp Nat.eqb app].
      unfold qe, qT. cbn [data firstn skipn app assemble find_pos Nat.eqb
                            option_map nth hd tl].
      reflexivity. }
    assert (HnL : norm_axis (rank (tf.square LTA)) (-2) = Some 1)
      by (unfold rank; cbn [tf.square shape]; rewrite HsLTA; reflexivity).
    run (reduce_sum_ok (tf.square LTA) (-2) 1 HnL) C HsC.
    unfold tf.square in HsC. cbn [shape] in HsC. rewrite HsLTA in HsC.
    cbn [firstn skipn app] in HsC.
    assert (Hb4 : broadcast_shapes (shape V) (shape C)
                  = Some (lead ++ [R; N])).
    { rewrite HsV, HsC, Hlead, broadcast_shapes_same_length by reflexivity.
      apply zip_dims_refl. }
    run (binop_ok "add"%string sadd V C (lead ++ [R; N]) Hb4) W HsW.
    apply (Hfin W HsW).
    intros b r n Hr. cbv zeta.
    pose proof Hr as Hr'.
    apply in_range_split in Hr'; [|reflexivity].
    destruct Hr' as (Hlen & Hrb & Hr2).
    inversion Hr2 as [|? ? ? ? Hr0 Hr1]; subst.
    inversion Hr1 as [|? ? ? ? Hnlt _]; subst.
    assert (Hb : b = []) by (destruct b; [reflexivity | discriminate]).
    unfold W. cbn [data]. rewrite HsV, HsC.
    rewrite (bidx_in_range _ _ Hr).
    rewrite (Hdata _ _ _ Hr). f_equal.
    subst b. cbn [app].
    rewrite bidx_in_range by in_range_solve.
    unfold C. cbn [data shape tf.square firstn skipn app]. rewrite HsLTA.
    cbn [nth].
    apply big_sum_ext. intros c Hc.
    change [r; c; n] with ([r] ++ [c; n]).
    rewrite !HLTA by assumption. reflexivity.
  - cbn [bind negb].
    apply (Hfin V HsV).
    intros b r n Hr. cbv zeta. apply Hdata. exact Hr.
Qed.


End BaseGeneral.

Section BaseElements.
Context {F : Type} {SF : Scalar F}.

Lemma base_lta_ext : forall (Am Am' q : tensor F) M b r c n,
  (forall k, k < M -> data Am (b ++ [k; n]) = data Am' (b ++ [k; n])) ->
  c < M ->
  base_lta Am q M b r c n = base_lta Am' q M b r c n.
Proof.
  intros Am Am' q M b r c n H Hc. unfold base_lta.
  destruct (rank q =? 2).
  - rewrite H by assumption. reflexivity.
  - apply big_sum_ext. intros k Hk. rewrite H by assumption. reflexivity.
Qed.

Lemma mean_projection_unique : forall white (A Am Am' Kmm : tensor F) M b c n,
  mean_projection white A Am Kmm M ->
  mean_projection white A Am' Kmm M ->
  in_range (shape A) (b ++ [c; n]) ->
  data Am (b ++ [c; n]) = data Am' (b ++ [c; n]).
Proof.
  intros white A Am Am' Kmm M b c n [_ H1] [_ H2] Hr.
  rewrite H1, H2 by assumption. reflexivity.
Qed.

(** X5.  The mean of [base_conditional], in both representations.  For
    inputs of the documented shapes (any leading axes on [Kmn]; [q_sqrt]
    omitted, [R, M, M] or [M, R]) the call returns, the mean has shape
    [..., N, R], and [fmean[..., n, r]] is the sum over [c] of
    [Am[..., c, n] * function[c, r]], where [Am] is the projection matrix
    [A] when [white] is true and [A] solved against the transposed
    Cholesky factor of [Kmm] otherwise. *)
Theorem X5_base_conditional_mean_elements :
  forall (Kmn Kmm Knn f : tensor F) (M N R : nat) (lead : list nat)
         (full_cov white : bool) (q_sqrt : option (tensor F)),
    shape Kmn = M :: lead ++ [N] ->
    shape Kmm = [M; M] ->
    shape f = [M; R] ->
    shape Knn = (if full_cov then [N; N] else [N]) ->
    q_sqrt_documented lead M R q_sqrt ->
    exists A Am fmean fvar,
      base_projection Kmn Kmm = Ok A /\
      mean_projection white A Am Kmm M /\
      base_conditional Kmn Kmm Knn f full_cov q_sqrt white
      = Ok (fmean, fvar) /\
      shape fmean = lead ++ [N; R] /\
      forall b n r,
        in_range (lead ++ [N; R]) (b ++ [n; r]) ->
        data fmean (b ++ [n; r])
        = tf.big_sum M (fun c => smul (data Am (b ++ [c; n]))
                                      (data f [c; r])).
Proof.
  intros Kmn Kmm Knn f M N R lead [|] white q_sqrt HKmn HKmm Hf HKnn Hq.
  - destruct (base_general_full Kmn Kmm Knn f M N R lead white
                HKmn HKmm Hf q_sqrt HKnn Hq)
      as (A & Am & fmean & fvar & HA & _ & HAm & E & Hsm & Hdm & _).
    exists A, Am, fmean, fvar. auto.
  - destruct (base_general_diag Kmn Kmm Knn f M N R lead white
                HKmn HKmm Hf q_sqrt HKnn Hq)
      as (A & Am & fmean & fvar & HA & _ & HAm & E & Hsm & Hdm & _).
    exists A, Am, fmean, fvar. auto.
Qed.

(** X6.  The variance of [base_conditional] when [q_sqrt] is given, in both
    representations: the prior-conditioned variance ([Knn] minus the
    products of the columns of [A]) plus the products of the columns of
    [q_sqrt^T Am], that is [fvar[..., r, i, j] = Knn[i, j] - sum_m A[m, i]
    A[m, j] + sum_c LTA[r, c, i] LTA[r, c, j]] for [full_cov] and the
    diagonal of it, as [fvar[..., n, r]], otherwise. *)
Theorem X6_base_conditional_variance_with_q_sqrt :
  forall (Kmn Kmm Knn f q : tensor F) (M N R : nat) (lead : list nat)
         (full_cov white : bool),
    shape Kmn = M :: lead ++ [N] ->
    shape Kmm = [M; M] ->
    shape f = [M; R] ->
    shape Knn = (if full_cov then [N; N] else [N]) ->
    q_sqrt_documented lead M R (Some q) ->
    exists A Am fmean fvar,
      base_projection Kmn Kmm = Ok A /\
      mean_projection white A Am Kmm M /\
      base_conditional Kmn Kmm Knn f full_cov (Some q) white
      = Ok (fmean, fvar) /\
      if full_cov
      then
        shape fvar = lead ++ [R; N; N] /\
        forall b r i j,
          in_range (lead ++ [R; N; N]) (b ++ [r; i; j]) ->
          data fvar (b ++ [r; i; j])
          = sadd (ssub (data Knn [i; j])
                       (tf.big_sum M (fun m => smul (data A (b ++ [m; i]))
                                                    (data A (b ++ [m; j])))))
                 (tf.big_sum M (fun c => smul (base_lta Am q M b r c i)
                                              (base_lta Am q M b r c j)))
      else
        shape fvar = lead ++ [N; R] /\
        forall b n r,
          in_range (lead ++ [N; R]) (b ++ [n; r]) ->
          data fvar (b ++ [n; r])
          = sadd (ssub (data Knn [n])
                       (tf.big_sum M (fun m => smul (data A (b ++ [m; n]))
                                                    (data A (b ++ [m; n])))))
                 (tf.big_sum M (fun c => smul (base_lta Am q M b r c n)
                                              (base_lta Am q M b r c n))).
Proof.
  intros Kmn Kmm Knn f q M N R lead [|] white HKmn HKmm Hf HKnn Hq.
  - destruct (base_general_full Kmn Kmm Knn f M N R lead white
                HKmn HKmm Hf (Some q) HKnn Hq)
      as (A & Am & fmean & fvar & HA & _ & HAm & E & _ & _ & Hsv & Hdv).
    exists A, Am, fmean, fvar. auto.
  - destruct (base_general_diag Kmn Kmm Knn f M N R lead white
                HKmn HKmm Hf (Some q) HKnn Hq)
      as (A & Am & fmean & fvar & HA & _ & HAm & E & _ & _ & Hsv & Hdv).
    exists A, Am, fmean, fvar. auto.
Qed.

(** X7.  The marginal variances are the diagonal of the full covariance.
    When [Knn_diag] holds the diagonal of [Knn_full], the call with
    [full_cov = False] returns the mean of the call with [full_cov = True],
    and [fvar_diag[..., n, r] = fvar_full[..., r, n, n]]; for both
    representations and every documented [q_sqrt]. *)
Theorem X7_base_conditional_marginals_are_the_diagonal :
  forall (Kmn Kmm Knn_full Knn_diag f : tensor F) (M N R : nat)
         (lead : list nat) (white : bool) (q_sqrt : option (tensor F)),
    shape Kmn = M :: lead ++ [N] ->
    shape Kmm = [M; M] ->
    shape f = [M; R] ->
    shape Knn_full = [N; N] ->
    shape Knn_diag = [N] ->
    (forall n, n < N -> data Knn_diag [n] = data Knn_full [n; n]) ->
    q_sqrt_documented lead M R q_sqrt ->
    exists fmean fvar_full fvar_diag,
      base_conditional Kmn Kmm Knn_full f true q_sqrt white
      = Ok (fmean, fvar_full) /\
      base_conditional Kmn Kmm Knn_diag f false q_sqrt white
      = Ok (fmean, fvar_diag) /\
      forall b n r,
        in_range (lead ++ [N; R]) (b ++ [n; r]) ->
        data fvar_diag (b ++ [n; r]) = data fvar_full (b ++ [r; n; n]).
Proof.
  intros Kmn Kmm Knn_full Knn_diag f M N R lead white q_sqrt
    HKmn HKmm Hf HF HD Hdiag Hq.
  destruct (base_general_full Kmn Kmm Knn_full f M N R lead white
              HKmn HKmm Hf q_sqrt HF Hq)
    as (A & Am & mF & vF & HA & HsA & HAm & EF & _ & _ & _ & HvF).
  destruct (base_general_diag Kmn Kmm Knn_diag f M N R lead white
              HKmn HKmm Hf q_sqrt HD Hq)
    as (A' & Am' & mD & vD & HA' & _ & HAm' & ED & _ & _ & _ & HvD).
  assert (A' = A) by congruence. subst A'.
  assert (mD = mF)
    by exact (base_conditional_mean_independent _ _ _ _ _ _ _ _ _ _ _ _ _ _
                ED EF).
  subst mD.
  exists mF, vF, vD. split; [exact EF|]. split; [exact ED|].
  intros b n r Hr.
  pose proof Hr as Hr'.
  apply in_range_split in Hr'; [|reflexivity].
  destruct Hr' as (Hlen & Hrb & Hr2).
  inversion Hr2 as [|? ? ? ? Hn Hr1]; subst.
  inversion Hr1 as [|? ? ? ? Hr0 _]; subst.
  assert (Hr3 : in_range (lead ++ [R; N; N]) (b ++ [r; n; n]))
    by (apply in_range_app_intro; [assumption | in_range_solve]).
  rewrite (HvD _ _ _ Hr), (HvF _ _ _ _ Hr3). cbv zeta.
  rewrite (Hdiag n Hn).
  destruct q_sqrt as [q|]; [|reflexivity].
  f_equal. apply big_sum_ext. intros c Hc.
  assert (Hext : base_lta Am' q M b r c n = base_lta Am q M b r c n).
  { apply base_lta_ext; [|assumption].
    intros k Hk.
    apply (mean_projection_unique white A Am' Am Kmm M b k n HAm' HAm).
    rewrite HsA. apply in_range_app_intro; [assumption | in_range_solve]. }
  rewrite Hext. reflexivity.
Qed.

End BaseElements.

(** ** The elements of [base_conditional] on the example inputs *)

Lemma X5_base_conditional_mean_witness :
  exists A Am fmean fvar,
    base_projection Ex.Kmn Ex.Kmm = Ok A /\
    mean_projection false A Am Ex.Kmm 2 /\
    base_conditional Ex.Kmn Ex.Kmm Ex.Knn_diag Ex.f1 false
      (Some Ex.q_diag) false = Ok (fmean, fvar) /\
    shape fmean = [3; 1] /\
    forall b n r,
      in_range [3; 1] (b ++ [n; r]) ->
      data fmean (b ++ [n; r])
      = tf.big_sum 2 (fun c => smul (data Am (b ++ [c; n]))
                                    (data Ex.f1 [c; r])).
Proof.
  exact (X5_base_conditional_mean_elements
           Ex.Kmn Ex.Kmm Ex.Knn_diag Ex.f1 2 3 1 [] false false
           (Some Ex.q_diag) eq_refl eq_refl eq_refl eq_refl
           (or_intror (conj eq_refl eq_refl))).
Defined.

Lemma X6_base_conditional_variance_witness :
  exists A Am fmean fvar,
    base_projection Ex.Kmn Ex.Kmm = Ok A /\
    mean_projection false A Am Ex.Kmm 2 /\
    base_conditional Ex.Kmn Ex.Kmm Ex.Knn_full Ex.f1 true
      (Some Ex.q_tril) false = Ok (fmean, fvar) /\
    shape fvar = [1; 3; 3] /\
    forall b r i j,
      in_range [1; 3; 3] (b ++ [r; i; j]) ->
      data fvar (b ++ [r; i; j])
      = sadd (ssub (data Ex.Knn_full [i; j])
                   (tf.big_sum 2 (fun m => smul (data A (b ++ [m; i]))
                                                (data A (b ++ [m; j])))))
             (tf.big_sum 2 (fun c => smul (base_lta Am Ex.q_tril 2 b r c i)
                                          (base_lta Am Ex.q_tril 2 b r c j))).
Proof.
  exact (X6_base_conditional_variance_with_q_sqrt
           Ex.Kmn Ex.Kmm Ex.Knn_full Ex.f1 Ex.q_tril 2 3 1 [] true false
           eq_refl eq_refl eq_refl eq_refl (or_introl eq_refl)).
Defined.

Lemma Knn_diag_is_diagonal :
  forall n, n < 3 -> data Ex.Knn_diag [n] = data Ex.Knn_full [n; n].
Proof.
  intros n Hn. destruct n as [|[|[|n]]]; try lia; reflexivity.
Qed.

Lemma X7_base_conditional_marginals_witness :
  exists fmean fvar_full fvar_diag,
    base_conditional Ex.Kmn Ex.Kmm Ex.Knn_full Ex.f1 true
      (Some Ex.q_tril) false = Ok (fmean, fvar_full) /\
    base_conditional Ex.Kmn Ex.Kmm Ex.Knn_diag Ex.f1 false
      (Some Ex.q_tril) false = Ok (fmean, fvar_diag) /\
    forall b n r,
      in_range [3; 1] (b ++ [n; r]) ->
      data fvar_diag (b ++ [n; r]) = data fvar_full (b ++ [r; n; n]).
Proof.
  exact (X7_base_conditional_marginals_are_the_diagonal
           Ex.Kmn Ex.Kmm Ex.Knn_full Ex.Knn_diag Ex.f1 2 3 1 [] false
           (Some Ex.q_tril) eq_refl eq_refl eq_refl eq_refl eq_refl
           Knn_diag_is_diagonal (or_introl eq_refl)).
Defined.

(** * Calls that cannot return *)

Section NeverReturns.
Context {F : Type} {SF : Scalar F}.

Lemma reshape_ok_shape : forall (a t : tensor F) s,
  tf.reshape a s = Ok t -> shape t = s.
Proof.
  intros a t s H. unfold tf.reshape in H.
  destruct (prod (shape a) =? prod s); [|discriminate].
  inversion H; subst. reflexivity.
Qed.




Lemma triangular_solve_ok_rows : forall (m r t : tensor F) lower,
  tf.triangular_solve m r lower = Ok t ->
  row_of (shape m) = row_of (shape r).
Proof.
  intros m r t lower H. unfold tf.triangular_solve in H.
  destruct (Nat.eqb_spec (row_of (shape m)) (row_of (shape r))) as [Hr|Hr];
    [exact Hr|].
  rewrite andb_false_r in H. discriminate.
Qed.

(** X14.  With [white = False], [independent_interdomain_conditional]
    returns for no input whose number of query points N differs from the
    number of inducing points M.  The first solve fixes the matrices of
    the factor [Lm] to M rows; the solve of the unwhitened branch hands the
    same factor the tensor [Ar], L x M x N x P, whose matrices have N rows,
    and a triangular solve requires the right-hand side to have as many
    rows as the matrix. *)
Theorem X14_interdomain_unwhitened_never_returns :
  forall (Kmn Kmm Knn f : tensor F) full_cov full_output_cov q_sqrt M L N P,
    shape Kmn = [M; L; N; P] ->
    N <> M ->
    is_ok (independent_interdomain_conditional Kmn Kmm Knn f
             full_cov full_output_cov q_sqrt false) = false.
Proof.
  intros Kmn Kmm Knn f full_cov full_output_cov q_sqrt M L N P HKmn Hne.
  destruct (independent_interdomain_conditional _ _ _ _ _ _ _ _)
    as [[m v]|e] eqn:H; [|reflexivity].
  exfalso. unfold independent_interdomain_conditional in H.
  rewrite HKmn in H. cbn [unpack4] in H.
  spine H.
  match goal with
  | E : Ok (_, _, _, _) = Ok _ |- _ => inversion E; subst; clear E
  end.
  lazymatch goal with
  | E1 : tf.triangular_solve ?Lm ?K true = Ok _,
    E2 : tf.reshape _ [_; _; _] = Ok ?K,
    E3 : tf.reshape _ [_; _; _; _] = Ok ?Ar,
    E4 : (if negb false then _ else _) = Ok _ |- _ =>
      cbn [negb] in E4;
      destruct (tf.triangular_solve Lm Ar true) as [A2|] eqn:Es;
        [|discriminate E4];
      apply triangular_solve_ok_rows in E1, Es;
      apply reshape_ok_shape in E2, E3;
      rewrite E2 in E1; rewrite E3 in Es;
      rewrite E1 in Es; cbn in Es; congruence
  end.
Qed.


(** X17.  The diagonal form of [q_sqrt] that the docstrings of the fully
    correlated routines list is not supported: whenever the whitened call
    without [q_sqrt] returns, the call with a rank-2 [q_sqrt] raises
    [NotImplementedError]. *)
Theorem X17_fully_correlated_diagonal_q_sqrt_not_implemented :
  forall (Kmn Kmm Knn f q : tensor F) full_cov full_output_cov,
    rank q = 2 ->
    is_ok (fully_correlated_conditional_repeat Kmn Kmm Knn f
             full_cov full_output_cov None true) = true ->
    fully_correlated_conditional_repeat Kmn Kmm Knn f
      full_cov full_output_cov (Some q) true
    = Raise (NotImplementedError "Does not support diagonal q_sqrt yet...").
Proof.
  intros Kmn Kmm Knn f q full_cov full_output_cov Hq Hok.
  destruct (fully_correlated_conditional_repeat Kmn Kmm Knn f
              full_cov full_output_cov None true) as [[m v]|e] eqn:H;
    [clear Hok | discriminate Hok].
  unfold fully_correlated_conditional_repeat in H |- *.
  spine H. cbv beta iota zeta delta [bind]. replay.
  unfold tf.matrix_band_part. rewrite Hq. reflexivity.
Qed.

End NeverReturns.

(** ** On the example inputs *)

Lemma X14_interdomain_unwhitened_witness :
  shape Ex.Kmn_MLNP = [2; 1; 3; 1]
  /\ 3 <> 2
  /\ is_ok (independent_interdomain_conditional Ex.Kmn_MLNP Ex.Kmm_L
              Ex.Knn_NP Ex.f1 false false None false) = false.
Proof.
  split; [reflexivity|]. split; [discriminate|].
  apply (X14_interdomain_unwhitened_never_returns
           Ex.Kmn_MLNP Ex.Kmm_L Ex.Knn_NP Ex.f1 false false None 2 1 3 1);
    [reflexivity | discriminate].
Defined.


Lemma X17_fully_correlated_diagonal_q_sqrt_witness :
  rank Ex.q_diag = 2
  /\ is_ok (fully_correlated_conditional_repeat Ex.Kmn_fc Ex.Kmm
              (Ex.ones [3; 2; 2]) Ex.f2 false true None true) = true
  /\ fully_correlated_conditional_repeat Ex.Kmn_fc Ex.Kmm
       (Ex.ones [3; 2; 2]) Ex.f2 false true (Some Ex.q_diag) true
     = Raise (NotImplementedError "Does not support diagonal q_sqrt yet...").
Proof.
  split; [reflexivity|]. split; [vm_compute; reflexivity|].
  apply (X17_fully_correlated_diagonal_q_sqrt_not_implemented
           Ex.Kmn_fc Ex.Kmm (Ex.ones [3; 2; 2]) Ex.f2 Ex.q_diag false true);
    [reflexivity | vm_compute; reflexivity].
Defined.

(** * The multi-output routines return tensors of the documented shapes *)

Section DocumentedShapes.
Context {F : Type} {SF : Scalar F}.

Lemma zip_dims_unit_last : forall l d, zip_dims (l ++ [d]) (l ++ [1]) = Some (l ++ [d]).
Proof.
  intros l d. apply zip_dims_app; [apply zip_dims_refl|].
  cbn [zip_dims]. destruct (d =? 1) eqn:E; [|reflexivity].
  apply Nat.eqb_eq in E. subst. reflexivity.
Qed.

Lemma broadcast_same : forall s, broadcast_shapes s s = Some s.
Proof. intros s. exact (broadcast_shapes_suffix_l [] s). Qed.

Lemma add_same_shape_ok : forall (a b : tensor F) s,
  shape a = s -> shape b = s ->
  exists t, tf.add a b = Ok t /\ shape t = s.
Proof.
  intros a b s Ha Hb. unfold tf.add, tf.binop.
  rewrite Ha, Hb, broadcast_same. eexists. split; reflexivity.
Qed.

Lemma sub_same_shape_ok : forall (a b : tensor F) s,
  shape a = s -> shape b = s ->
  exists t, tf.sub a b = Ok t /\ shape t = s.
Proof.
  intros a b s Ha Hb. unfold tf.sub, tf.binop.
  rewrite Ha, Hb, broadcast_same. eexists. split; reflexivity.
Qed.

(** Uses a statement that returns a tensor of a known shape. *)
Ltac use_ok lem T Hs :=
  let E := fresh "E" in
  destruct lem as (T & E & Hs); rewrite E; cbn [bind]; clear E.

Ltac prod_eq := cbn [prod fold_right app]; ring.

Lemma interdomain_whitened_shapes :
  forall (Kmn Kmm Knn f : tensor F) M L N P full_cov full_output_cov q_sqrt,
    shape Kmn = [M; L; N; P] ->
    shape Kmm = [L; M; M] ->
    shape f = [M; L] ->
    shape Knn = variance_shape full_cov full_output_cov N P ->
    match q_sqrt with
    | None => True
    | Some q => shape q = [L; M; M] \/ shape q = [M; L]
    end ->
    exists fmean fvar,
      independent_interdomain_conditional Kmn Kmm Knn f
        full_cov full_output_cov q_sqrt true = Ok (fmean, fvar) /\
      shape fmean = [N; P] /\
      shape fvar = variance_shape full_cov full_output_cov N P.
Proof.
  intros Kmn Kmm Knn f M L N P full_cov full_output_cov q_sqrt
    HKmn HKmm Hf HKnn Hq.
  unfold independent_interdomain_conditional.
  rewrite HKmn. cbn [unpack4 bind negb].
  run (cholesky_ok Kmm [L] M HKmm) Lm HsLm.
  assert (Hp0 : is_perm (rank Kmn) [1; 0; 2; 3] = true)
    by (unfold rank; rewrite HKmn; reflexivity).
  run (transpose_ok Kmn [1; 0; 2; 3] Hp0) Kt HsKt.
  rewrite HKmn in HsKt. cbn [map nth] in HsKt.
  assert (Hr0 : prod (shape Kt) = prod [L; M; N * P])
    by (rewrite HsKt; prod_eq).
  run (reshape_ok Kt [L; M; N * P] Hr0) Kr HsKr.
  run (triangular_solve_ok Lm Kr [L] M (N * P) true HsLm HsKr) A HsA.
  cbn [app] in HsA.
  assert (Hr1 : prod (shape A) = prod [L; M; N; P])
    by (rewrite HsA; prod_eq).
  run (reshape_ok A [L; M; N; P] Hr1) Ar HsAr.
  (* the mean *)
  assert (Htd : forallb (fun k => k <? rank Ar) [1; 0]
                && forallb (fun k => k <? rank f) [0; 1]
                && list_eqb (map (fun k => nth k (shape Ar) 0) [1; 0])
                            (map (fun k => nth k (shape f) 0) [0; 1]) = true)
    by (unfold rank; rewrite HsAr, Hf; cbn; rewrite !Nat.eqb_refl; reflexivity).
  run (tensordot_ok Ar f [1; 0] [0; 1] Htd) fmean Hsfmean.
  unfold rank in Hsfmean. rewrite HsAr, Hf in Hsfmean.
  cbn in Hsfmean.
  (* the variance of the prior conditioned on the inducing outputs *)
  assert (HV : exists V,
    match full_cov, full_output_cov with
    | true, true =>
        t <- tf.tensordot Ar Ar [0; 1] [0; 1] ;; tf.sub Knn t
    | true, false =>
        tr <- tf.transpose_all Ar ;;
        At <- tf.reshape tr [P; N; M * L] ;;
        t <- tf.matmul At At false true ;; tf.sub Knn t
    | false, true =>
        tr <- tf.transpose Ar [2; 3; 1; 0] ;;
        At <- tf.reshape tr [N; P; M * L] ;;
        t <- tf.matmul At At false true ;; tf.sub Knn t
    | false, false =>
        ssq <- tf.reduce_sum_01 (tf.square A) ;;
        t <- tf.reshape ssq [N; P] ;; tf.sub Knn t
    end = Ok V
    /\ shape V = variance_shape full_cov full_output_cov N P).
  { destruct full_cov, full_output_cov;
      cbn [variance_shape] in HKnn |- *.
    - assert (Ht : forallb (fun k => k <? rank Ar) [0; 1]
                   && forallb (fun k => k <? rank Ar) [0; 1]
                   && list_eqb (map (fun k => nth k (shape Ar) 0) [0; 1])
                               (map (fun k => nth k (shape Ar) 0) [0; 1])
                   = true)
        by (unfold rank; rewrite HsAr; cbn; rewrite !Nat.eqb_refl;
            reflexivity).
      run (tensordot_ok Ar Ar [0; 1] [0; 1] Ht) t Hst.
      unfold rank in Hst. rewrite HsAr in Hst. cbn in Hst.
      exact (sub_same_shape_ok Knn t [N; P; N; P] HKnn Hst).
    - assert (Hp : is_perm (rank Ar) (rev (seq 0 (rank Ar))) = true)
        by (unfold rank; rewrite HsAr; reflexivity).
      pose proof (transpose_ok Ar (rev (seq 0 (rank Ar))) Hp) as Et.
      change (tf.transpose Ar (rev (seq 0 (rank Ar))))
        with (tf.transpose_all Ar) in Et.
      unfold rank in Et. rewrite HsAr in Et. cbn [length seq rev app map nth] in Et.
      rewrite Et. cbn [bind]. clear Et.
      match goal with
      | |- context [tf.reshape ?x [P; N; M * L]] =>
          assert (Hr2 : prod (shape x) = prod [P; N; M * L])
            by (cbn [shape]; prod_eq);
          run (reshape_ok x [P; N; M * L] Hr2) At HsAt
      end.
      run (matmul_nt_ok At At [P] N (M * L) N HsAt HsAt) t Hst.
      exact (sub_same_shape_ok Knn t [P; N; N] HKnn Hst).
    - assert (Hp : is_perm (rank Ar) [2; 3; 1; 0] = true)
        by (unfold rank; rewrite HsAr; reflexivity).
      run (transpose_ok Ar [2; 3; 1; 0] Hp) tr Hstr.
      rewrite HsAr in Hstr. cbn [map nth] in Hstr.
      assert (Hr2 : prod (shape tr) = prod [N; P; M * L])
        by (rewrite Hstr; prod_eq).
      run (reshape_ok tr [N; P; M * L] Hr2) At HsAt.
      run (matmul_nt_ok At At [N] P (M * L) P HsAt HsAt) t Hst.
      exact (sub_same_shape_ok Knn t [N; P; P] HKnn Hst).
    - assert (Hsq : shape (tf.square A) = L :: M :: [N * P])
        by (cbn [tf.square shape]; exact HsA).
      run (reduce_sum_01_ok (tf.square A) L M [N * P] Hsq) ssq Hssq.
      assert (Hr2 : prod (shape ssq) = prod [N; P])
        by (rewrite Hssq; prod_eq).
      run (reshape_ok ssq [N; P] Hr2) t Hst.
      exact (sub_same_shape_ok Knn t [N; P] HKnn Hst). }
  destruct HV as (V & EV & HsV). rewrite EV. cbn [bind]. clear EV.
  destruct q_sqrt as [q|]; [|cbn [bind]; exists fmean, V; auto].
  (* the variational term *)
  assert (HLTA : exists LTA,
    (if rank q =? 3
     then Lf <- tf.matrix_band_part q (-1) 0 ;; tf.matmul Lf A true false
     else qt <- tf.transpose_all q ;; tf.mul A (tf.newaxis_last qt)) = Ok LTA
    /\ shape LTA = [L; M; N * P]).
  { destruct Hq as [Hq | Hq]; unfold rank; rewrite Hq; cbn [length Nat.eqb].
    - assert (H2 : 2 <= rank q) by (unfold rank; rewrite Hq; cbn; lia).
      run (matrix_band_part_ok q (-1) 0 H2) Lf HsLf.
      rewrite Hq in HsLf.
      run (matmul_tn_ok Lf A [L] M M (N * P) HsLf HsA) LTA HsLTA.
      exists LTA. split; reflexivity.
    - run (transpose_all_2_ok q M L Hq) qT HsqT.
      unfold tf.mul.
      assert (Hb : broadcast_shapes (shape A) (shape (tf.newaxis_last qT))
                   = Some [L; M; N * P]).
      { cbn [tf.newaxis_last shape]. rewrite HsA, HsqT.
        rewrite broadcast_shapes_same_length by reflexivity.
        exact (zip_dims_unit_last [L; M] (N * P)). }
      run (binop_ok "mul"%string smul A (tf.newaxis_last qT)
             [L; M; N * P] Hb) LTA HsLTA.
      exists LTA. split; reflexivity. }
  destruct HLTA as (LTA & EL & HsLTA). rewrite EL. cbn [bind]. clear EL.
  destruct full_cov, full_output_cov;
    cbn [variance_shape] in HsV |- *.
  - assert (Hr3 : prod (shape LTA) = prod [L * M; N * P])
      by (rewrite HsLTA; prod_eq).
    run (reshape_ok LTA [L * M; N * P] Hr3) LTAr HsLTAr.
    run (matmul_tn_ok LTAr LTAr [] (L * M) (N * P) (N * P) HsLTAr HsLTAr)
        t Hst.
    assert (Hr4 : prod (shape t) = prod [N; P; N; P])
      by (rewrite Hst; prod_eq).
    run (reshape_ok t [N; P; N; P] Hr4) c Hsc.
    use_ok (add_same_shape_ok V c [N; P; N; P] HsV Hsc) W HsW.
    exists fmean, W. auto.
  - assert (Hr3 : prod (shape LTA) = prod [L * M; N; P])
      by (rewrite HsLTA; prod_eq).
    run (reshape_ok LTA [L * M; N; P] Hr3) r HsR.
    assert (Hp : is_perm (rank r) [2; 0; 1] = true) by reflexivity.
    run (transpose_ok r [2; 0; 1] Hp) LTAr HsLTAr.
    cbn [map nth] in HsLTAr.
    run (matmul_tn_ok LTAr LTAr [P] (L * M) N N HsLTAr HsLTAr) c Hsc.
    use_ok (add_same_shape_ok V c [P; N; N] HsV Hsc) W HsW.
    exists fmean, W. auto.
  - assert (Hr3 : prod (shape LTA) = prod [L * M; N; P])
      by (rewrite HsLTA; prod_eq).
    run (reshape_ok LTA [L * M; N; P] Hr3) r HsR.
    assert (Hp : is_perm (rank r) [1; 0; 2] = true) by reflexivity.
    run (transpose_ok r [1; 0; 2] Hp) LTAr HsLTAr.
    cbn [map nth] in HsLTAr.
    run (matmul_tn_ok LTAr LTAr [N] (L * M) P P HsLTAr HsLTAr) c Hsc.
    use_ok (add_same_shape_ok V c [N; P; P] HsV Hsc) W HsW.
    exists fmean, W. auto.
  - assert (Hsq : shape (tf.square LTA) = L :: M :: [N * P])
      by (cbn [tf.square shape]; exact HsLTA).
    run (reduce_sum_01_ok (tf.square LTA) L M [N * P] Hsq) ssq Hssq.
    assert (Hr3 : prod (shape ssq) = prod [N; P])
      by (rewrite Hssq; prod_eq).
    run (reshape_ok ssq [N; P] Hr3) c Hsc.
    use_ok (add_same_shape_ok V c [N; P] HsV Hsc) W HsW.
    exists fmean, W. auto.
Qed.

(** X15.  In the whitened representation
    [independent_interdomain_conditional] returns for all inputs of the
    documented shapes ([Kmn] M x L x N x P, [Kmm] L x M x M, [f] M x L,
    [q_sqrt] omitted, L x M x M or M x L, [Knn] of the shape of the
    variance), with a mean N x P and a variance N x P, N x P x P,
    P x N x N or N x P x N x P according to the flags. *)
Theorem X15_interdomain_whitened_returns_documented_shapes :
  forall (Kmn Kmm Knn f : tensor F) M L N P full_cov full_output_cov q_sqrt,
    shape Kmn = [M; L; N; P] ->
    shape Kmm = [L; M; M] ->
    shape f = [M; L] ->
    shape Knn = variance_shape full_cov full_output_cov N P ->
    match q_sqrt with
    | None => True
    | Some q => shape q = [L; M; M] \/ shape q = [M; L]
    end ->
    exists fmean fvar,
      independent_interdomain_conditional Kmn Kmm Knn f
        full_cov full_output_cov q_sqrt true = Ok (fmean, fvar) /\
      shape fmean = [N; P] /\
      shape fvar = variance_shape full_cov full_output_cov N P.
Proof. exact interdomain_whitened_shapes. Qed.

Lemma add_stretch_ok : forall (a b : tensor F) R s,
  shape a = 1 :: s -> shape b = R :: s ->
  exists t, tf.add a b = Ok t /\ shape t = R :: s.
Proof.
  intros a b R s Ha Hb. unfold tf.add, tf.binop.
  rewrite Ha, Hb.
  pose proof (broadcast_shapes_stretch [] R s) as Hb2. cbn [app] in Hb2.
  rewrite Hb2.
  eexists. split; reflexivity.
Qed.

(** With [q_sqrt] of shape R x M x M, [white = True] and at least one
    covariance flag on, the repeated routine returns a mean R x N x K,
    given element by element, and a variance with the leading replica
    axis. *)
Lemma fully_correlated_repeat_whitened_shapes :
  forall (Kmn Kmm Knn f q : tensor F) M N K R full_cov full_output_cov,
    shape Kmn = [M; N; K] ->
    shape Kmm = [M; M] ->
    shape f = [M; R] ->
    shape q = [R; M; M] ->
    full_cov || full_output_cov = true ->
    shape Knn = variance_shape full_cov full_output_cov N K ->
    exists fmean fvar,
      fully_correlated_conditional_repeat Kmn Kmm Knn f
        full_cov full_output_cov (Some q) true = Ok (fmean, fvar) /\
      shape fmean = [R; N; K] /\
      shape fvar = R :: variance_shape full_cov full_output_cov N K /\
      forall r n k, r < R -> n < N -> k < K ->
        data fmean [r; n; k]
        = tf.big_sum M (fun c =>
            smul (data f [c; r]) (fully_correlated_projection Kmn Kmm M c n k)).
Proof.
  intros Kmn Kmm Knn f q M N K R full_cov full_output_cov
    HKmn HKmm Hf Hq Hflags HKnn.
  unfold fully_correlated_conditional_repeat.
  unfold shape_at. rewrite Hf. cbn [nth_error bind].
  rewrite HKmn. cbn [unpack3 bind negb].
  run (cholesky_ok Kmm [] M HKmm) Lm HsLm.
  assert (Hr0 : prod (shape Kmn) = prod [M; N * K])
    by (rewrite HKmn; prod_eq).
  run (reshape_ok Kmn [M; N * K] Hr0) Kr HsKr.
  run (triangular_solve_ok Lm Kr [] M (N * K) true HsLm HsKr) A HsA.
  assert (Hr1 : prod (shape A) = prod [M; N; K])
    by (rewrite HsA; prod_eq).
  run (reshape_ok A [M; N; K] Hr1) Ar HsAr.
  (* the mean *)
  run (matmul_tn_ok f A [] M R (N * K) Hf HsA) fm Hsfm.
  assert (Hr2 : prod (shape fm) = prod [R; N; K])
    by (rewrite Hsfm; prod_eq).
  run (reshape_ok fm [R; N; K] Hr2) fmean Hsfmean.
  assert (Hmean : forall r n k, r < R -> n < N -> k < K ->
    data fmean [r; n; k]
    = tf.big_sum M (fun c =>
        smul (data f [c; r]) (fully_correlated_projection Kmn Kmm M c n k))).
  { intros r n k Hr Hn Hk.
    assert (Hx : n * K + k < N * K) by nia.
    unfold fmean. cbn [data]. rewrite Hsfm.
    replace (ravel [R; N; K] [r; n; k])
      with (ravel ([] ++ [R; N * K]) [r; n * K + k])
      by (cbn [app ravel ravel_acc]; ring).
    rewrite unravel_ravel by in_range_solve.
    unfold fm. cbn [data]. simpl_idx.
    apply big_sum_ext. intros c Hc. f_equal.
    unfold fully_correlated_projection, projection_entry, A.
    cbn [data]. simpl_idx.
    apply solve_lower_ext.
    - intros i j Hi Hj. reflexivity.
    - intros i Hi. unfold Kr. cbn [data]. rewrite HKmn.
      replace (ravel [M; N * K] [i; n * K + k])
        with (ravel [M; N; K] [i; n; k])
        by (cbn [ravel ravel_acc]; ring).
      rewrite unravel_ravel by in_range_solve. reflexivity. }
  (* the variational factor *)
  assert (H2 : 2 <= rank q) by (unfold rank; rewrite Hq; cbn; lia).
  run (matrix_band_part_ok q (-1) 0 H2) Lf HsLf.
  rewrite Hq in HsLf.
  unfold rank at 1. rewrite Hq. cbn [length Nat.eqb].
  assert (Hna : 2 <= rank A) by (unfold rank; rewrite HsA; cbn; lia).
  rewrite (newaxis0_slices_ok A 2 Hna). cbn [bind].
  assert (Hti : length [R; 1; 1] = rank (tf.newaxis0 A))
    by (unfold rank; cbn [tf.newaxis0 shape]; rewrite HsA; reflexivity).
  run (tile_ok (tf.newaxis0 A) [R; 1; 1] Hti) Atl HsAtl.
  cbn [tf.newaxis0 shape] in HsAtl. rewrite HsA in HsAtl.
  cbn [app combine map fst snd] in HsAtl.
  rewrite Nat.mul_1_l, !Nat.mul_1_r in HsAtl.
  run (matmul_tn_ok Lf Atl [R] M M (N * K) HsLf HsAtl) LTA HsLTA.
  cbn [app] in HsLTA.
  destruct full_cov, full_output_cov; try discriminate Hflags;
    cbn [variance_shape] in HKnn |- *.
  - assert (Ht : forallb (fun k => k <? rank Ar) [0]
                 && forallb (fun k => k <? rank Ar) [0]
                 && list_eqb (map (fun k => nth k (shape Ar) 0) [0])
                             (map (fun k => nth k (shape Ar) 0) [0]) = true)
      by (unfold rank; rewrite HsAr; cbn; rewrite !Nat.eqb_refl; reflexivity).
    run (tensordot_ok Ar Ar [0] [0] Ht) t Hst.
    unfold rank in Hst. rewrite HsAr in Hst. cbn in Hst.
    use_ok (sub_same_shape_ok Knn t [N; K; N; K] HKnn Hst) V HsV.
    run (matmul_tn_ok LTA LTA [R] M (N * K) (N * K) HsLTA HsLTA) addvar Hsadd.
    assert (H4 : 4 <= rank V) by (unfold rank; rewrite HsV; cbn; lia).
    rewrite (newaxis0_slices_ok V 4 H4). cbn [bind].
    assert (Hr3 : prod (shape addvar) = prod [R; N; K; N; K])
      by (rewrite Hsadd; prod_eq).
    run (reshape_ok addvar [R; N; K; N; K] Hr3) c Hsc.
    assert (HsV1 : shape (tf.newaxis0 V) = 1 :: [N; K; N; K])
      by (cbn [tf.newaxis0 shape]; rewrite HsV; reflexivity).
    use_ok (add_stretch_ok (tf.newaxis0 V) c R [N; K; N; K] HsV1 Hsc) W HsW.
    exists fmean, W. auto.
  - assert (Hp : is_perm (rank Ar) (rev (seq 0 (rank Ar))) = true)
      by (unfold rank; rewrite HsAr; reflexivity).
    pose proof (transpose_ok Ar (rev (seq 0 (rank Ar))) Hp) as Et.
    change (tf.transpose Ar (rev (seq 0 (rank Ar))))
      with (tf.transpose_all Ar) in Et.
    unfold rank in Et. rewrite HsAr in Et.
    cbn [length seq rev app map nth] in Et.
    rewrite Et. cbn [bind]. clear Et.
    match goal with
    | |- context [tf.matmul ?x ?x false true] =>
        run (matmul_nt_ok x x [K] N M N eq_refl eq_refl) t Hst
    end.
    use_ok (sub_same_shape_ok Knn t [K; N; N] HKnn Hst) V HsV.
    assert (Hr3 : prod (shape LTA) = prod [R; M; N; K])
      by (rewrite HsLTA; prod_eq).
    run (reshape_ok LTA [R; M; N; K] Hr3) r HsR.
    assert (Hp2 : is_perm (rank r) [0; 3; 1; 2] = true) by reflexivity.
    run (transpose_ok r [0; 3; 1; 2] Hp2) LTAr HsLTAr.
    cbn [map nth] in HsLTAr.
    run (matmul_tn_ok LTAr LTAr [R; K] M N N HsLTAr HsLTAr) addvar Hsadd.
    assert (HsV1 : shape (tf.newaxis0 V) = 1 :: [K; N; N])
      by (cbn [tf.newaxis0 shape]; rewrite HsV; reflexivity).
    use_ok (add_stretch_ok (tf.newaxis0 V) addvar R [K; N; N] HsV1 Hsadd)
      W HsW.
    exists fmean, W. auto.
  - assert (Hp : is_perm (rank Ar) [1; 0; 2] = true)
      by (unfold rank; rewrite HsAr; reflexivity).
    run (transpose_ok Ar [1; 0; 2] Hp) At HsAt.
    rewrite HsAr in HsAt. cbn [map nth] in HsAt.
    run (matmul_tn_ok At At [N] M K K HsAt HsAt) t Hst.
    use_ok (sub_same_shape_ok Knn t [N; K; K] HKnn Hst) V HsV.
    assert (Hr3 : prod (shape LTA) = prod [R; M; N; K])
      by (rewrite HsLTA; prod_eq).
    run (reshape_ok LTA [R; M; N; K] Hr3) r HsR.
    assert (Hp2 : is_perm (rank r) [0; 2; 3; 1] = true) by reflexivity.
    run (transpose_ok r [0; 2; 3; 1] Hp2) LTAr HsLTAr.
    cbn [map nth] in HsLTAr.
    run (matmul_nt_ok LTAr LTAr [R; N] K M K HsLTAr HsLTAr) c Hsc.
    assert (HsV1 : shape (tf.newaxis0 V) = 1 :: [N; K; K])
      by (cbn [tf.newaxis0 shape]; rewrite HsV; reflexivity).
    use_ok (add_stretch_ok (tf.newaxis0 V) c R [N; K; K] HsV1 Hsc) W HsW.
    exists fmean, W. auto.
Qed.

(** X18.  With a [q_sqrt] of shape R x LM x LM, [white = True] and at least
    one covariance flag on, [fully_correlated_conditional_repeat] returns
    for all inputs of the documented shapes, with a mean R x N x P and a
    variance R x N x P x P, R x P x N x N or R x N x P x N x P. *)
Theorem X18_fully_correlated_repeat_returns_documented_shapes :
  forall (Kmn Kmm Knn f q : tensor F) M N K R full_cov full_output_cov,
    shape Kmn = [M; N; K] ->
    shape Kmm = [M; M] ->
    shape f = [M; R] ->
    shape q = [R; M; M] ->
    full_cov || full_output_cov = true ->
    shape Knn = variance_shape full_cov full_output_cov N K ->
    exists fmean fvar,
      fully_correlated_conditional_repeat Kmn Kmm Knn f
        full_cov full_output_cov (Some q) true = Ok (fmean, fvar) /\
      shape fmean = [R; N; K] /\
      shape fvar = R :: variance_shape full_cov full_output_cov N K.
Proof.
  intros Kmn Kmm Knn f q M N K R full_cov full_output_cov
    HKmn HKmm Hf Hq Hflags HKnn.
  destruct (fully_correlated_repeat_whitened_shapes Kmn Kmm Knn f q M N K R
              full_cov full_output_cov HKmn HKmm Hf Hq Hflags HKnn)
    as (m & v & E & Hsm & Hsv & _).
  exists m, v. auto.
Qed.

(** X19.  Under the same conditions, with at least one replica,
    [fully_correlated_conditional] returns the first replica of what
    [fully_correlated_conditional_repeat] returns on the same arguments,
    without the replica axis: every element of its mean is the element of
    the repeated mean at replica 0 and the same remaining indices, every
    element of its variance the element of the repeated variance at
    replica 0; the mean is N x P and the variance N x P x P, P x N x N or
    N x P x N x P. *)
Theorem X19_fully_correlated_returns_documented_shapes :
  forall (Kmn Kmm Knn f q : tensor F) M N K R full_cov full_output_cov,
    shape Kmn = [M; N; K] ->
    shape Kmm = [M; M] ->
    shape f = [M; S R] ->
    shape q = [S R; M; M] ->
    full_cov || full_output_cov = true ->
    shape Knn = variance_shape full_cov full_output_cov N K ->
    exists m v fmean fvar,
      fully_correlated_conditional_repeat Kmn Kmm Knn f
        full_cov full_output_cov (Some q) true = Ok (m, v) /\
      fully_correlated_conditional Kmn Kmm Knn f
        full_cov full_output_cov (Some q) true = Ok (fmean, fvar) /\
      shape m = S R :: shape fmean /\
      shape v = S R :: shape fvar /\
      shape fmean = [N; K] /\
      shape fvar = variance_shape full_cov full_output_cov N K /\
      (forall idx, data fmean idx = data m (0 :: idx)) /\
      (forall idx, data fvar idx = data v (0 :: idx)).
Proof.
  intros Kmn Kmm Knn f q M N K R full_cov full_output_cov
    HKmn HKmm Hf Hq Hflags HKnn.
  destruct (fully_correlated_repeat_whitened_shapes Kmn Kmm Knn f q M N K
              (S R) full_cov full_output_cov HKmn HKmm Hf Hq Hflags HKnn)
    as (m & v & E & Hsm & Hsv & _).
  exists m, v.
  unfold fully_correlated_conditional. rewrite E. cbn [bind].
  rewrite (index0_ok m R [N; K] Hsm). cbn [bind].
  rewrite (index0_ok v R _ Hsv). cbn [bind].
  eexists. eexists. split; [reflexivity|]. split; [reflexivity|].
  cbn [shape data]. repeat split; assumption || reflexivity.
Qed.

End DocumentedShapes.

(** ** On the example inputs *)

Lemma X15_interdomain_whitened_shapes_witness :
  exists fmean fvar,
    independent_interdomain_conditional Ex.Kmn_MLNP Ex.Kmm_L Ex.Knn_PNN Ex.f1
      true false (Some Ex.q_diag) true = Ok (fmean, fvar) /\
    shape fmean = [3; 1] /\
    shape fvar = [1; 3; 3].
Proof.
  exact (X15_interdomain_whitened_returns_documented_shapes
           Ex.Kmn_MLNP Ex.Kmm_L Ex.Knn_PNN Ex.f1 2 1 3 1 true false
           (Some Ex.q_diag) eq_refl eq_refl eq_refl eq_refl
           (or_intror eq_refl)).
Defined.

Lemma X18_fully_correlated_repeat_shapes_witness :
  exists fmean fvar,
    fully_correlated_conditional_repeat Ex.Kmn_fc Ex.Kmm (Ex.ones [3; 2; 2])
      Ex.f2 false true (Some Ex.q_sqrt_R2) true = Ok (fmean, fvar) /\
    shape fmean = [2; 3; 2] /\
    shape fvar = [2; 3; 2; 2].
Proof.
  exact (X18_fully_correlated_repeat_returns_documented_shapes
           Ex.Kmn_fc Ex.Kmm (Ex.ones [3; 2; 2]) Ex.f2 Ex.q_sqrt_R2 2 3 2 2
           false true eq_refl eq_refl eq_refl eq_refl eq_refl eq_refl).
Defined.

Lemma X19_fully_correlated_shapes_witness :
  exists m v fmean fvar,
    fully_correlated_conditional_repeat Ex.Kmn_MLNP_fc Ex.Kmm Ex.Knn_PNN Ex.f1
      true false (Some Ex.q_tril) true = Ok (m, v) /\
    fully_correlated_conditional Ex.Kmn_MLNP_fc Ex.Kmm Ex.Knn_PNN Ex.f1
      true false (Some Ex.q_tril) true = Ok (fmean, fvar) /\
    shape m = 1 :: shape fmean /\
    shape v = 1 :: shape fvar /\
    shape fmean = [3; 1] /\
    shape fvar = [1; 3; 3] /\
    (forall idx, data fmean idx = data m (0 :: idx)) /\
    (forall idx, data fvar idx = data v (0 :: idx)).
Proof.
  exact (X19_fully_correlated_returns_documented_shapes
           Ex.Kmn_MLNP_fc Ex.Kmm Ex.Knn_PNN Ex.f1 Ex.q_tril 2 3 1 0
           true false eq_refl eq_refl eq_refl eq_refl eq_refl eq_refl).
Defined.

(** * The elements of the multi-output results *)

Section InterdomainElements.
Context {F : Type} {SF : Scalar F}.
Variables (Kmn Kmm : tensor F) (M L N P : nat).
Hypothesis HKmn : shape Kmn = [M; L; N; P].
Hypothesis HKmm : shape Kmm = [L; M; M].

Lemma flat_lt : forall n p, n < N -> p < P -> n * P + p < N * P.
Proof. intros n p Hn Hp. nia. Qed.

Lemma interdomain_prefix_general :
  exists Lm Kt Kr A Ar,
    tf.cholesky Kmm = Ok Lm /\
    tf.transpose Kmn [1; 0; 2; 3] = Ok Kt /\
    tf.reshape Kt [L; M; N * P] = Ok Kr /\
    tf.triangular_solve Lm Kr true = Ok A /\
    tf.reshape A [L; M; N; P] = Ok Ar /\
    shape A = [L; M; N * P] /\
    shape Ar = [L; M; N; P] /\
    (forall l m n p, l < L -> m < M -> n < N -> p < P ->
       data A [l; m; n * P + p] = interdomain_projection Kmn Kmm M l m n p) /\
    (forall l m n p, l < L -> m < M -> n < N -> p < P ->
       data Ar [l; m; n; p] = data A [l; m; n * P + p]).
Proof.
  pose proof (cholesky_ok Kmm [L] M HKmm) as ELm.
  set (Lm := mkT _ _) in ELm.
  assert (Hperm : is_perm (rank Kmn) [1; 0; 2; 3] = true)
    by (unfold rank; rewrite HKmn; reflexivity).
  pose proof (transpose_ok Kmn [1; 0; 2; 3] Hperm) as EKt.
  rewrite HKmn in EKt. cbn [map nth] in EKt.
  set (Kt := mkT _ _) in EKt.
  assert (Hp1 : prod (shape Kt) = prod [L; M; N * P])
    by (cbn [Kt shape prod fold_right]; ring).
  pose proof (reshape_ok Kt [L; M; N * P] Hp1) as EKr.
  set (Kr := mkT _ _) in EKr.
  pose proof (triangular_solve_ok Lm Kr [L] M (N * P) true eq_refl eq_refl)
    as EA.
  set (A := mkT _ _) in EA.
  assert (Hp2 : prod (shape A) = prod [L; M; N; P])
    by (cbn [A shape app prod fold_right]; ring).
  pose proof (reshape_ok A [L; M; N; P] Hp2) as EAr.
  set (Ar := mkT _ _) in EAr.
  exists Lm, Kt, Kr, A, Ar.
  repeat (split; [assumption || reflexivity|]).
  split.
  - intros l m n p Hl Hm Hn Hp.
    pose proof (flat_lt n p Hn Hp) as Hx.
    unfold interdomain_projection, projection_entry, A. cbn [data]. simpl_idx.
    apply solve_lower_ext.
    + intros r c Hr Hc. reflexivity.
    + intros r Hr. unfold Kr, Kt. cbn [data shape].
      replace (ravel [L; M; N * P] [l; r; n * P + p])
        with (ravel [L; M; N; P] [l; r; n; p])
        by (cbn [ravel ravel_acc]; ring).
      rewrite unravel_ravel by in_range_solve.
      unfold rank. rewrite HKmn. reflexivity.
  - intros l m n p Hl Hm Hn Hp.
    pose proof (flat_lt n p Hn Hp) as Hx.
    unfold Ar, A. cbn [data shape app].
    replace (ravel [L; M; N; P] [l; m; n; p])
      with (ravel [L; M; N * P] [l; m; n * P + p])
      by (cbn [ravel ravel_acc]; ring).
    rewrite unravel_ravel by in_range_solve. reflexivity.
Qed.

Lemma interdomain_mean_general : forall (Ar f : tensor F),
  shape Ar = [L; M; N; P] ->
  shape f = [M; L] ->
  exists m,
    tf.tensordot Ar f [1; 0] [0; 1] = Ok m /\
    shape m = [N; P] /\
    forall n p,
      data m [n; p]
      = tf.big_sum M (fun i => tf.big_sum L (fun l =>
          smul (data Ar [l; i; n; p]) (data f [i; l]))).
Proof.
  intros Ar f HsAr Hf.
  assert (Htd : forallb (fun k => k <? rank Ar) [1; 0]
                && forallb (fun k => k <? rank f) [0; 1]
                && list_eqb (map (fun k => nth k (shape Ar) 0) [1; 0])
                            (map (fun k => nth k (shape f) 0) [0; 1]) = true)
    by (unfold rank; rewrite HsAr, Hf; cbn; rewrite !Nat.eqb_refl; reflexivity).
  pose proof (tensordot_ok Ar f [1; 0] [0; 1] Htd) as E.
  unfold rank in E. rewrite HsAr, Hf in E.
  cbn [length seq free_axes filter existsb Nat.eqb negb orb map nth app] in E.
  set (m := mkT _ _) in E.
  exists m. split; [exact E|]. split; [reflexivity|].
  intros n p. unfold m. cbn [data tf.sum_idx].
  apply big_sum_ext. intros i Hi. apply big_sum_ext. intros l Hl.
  reflexivity.
Qed.

Lemma interdomain_sumsq_general :
  forall name (op : F -> F -> F) (X0 T : tensor F),
    shape T = [L; M; N * P] ->
    shape X0 = [N; P] ->
    exists ssq t X,
      tf.reduce_sum_01 (tf.square T) = Ok ssq /\
      tf.reshape ssq [N; P] = Ok t /\
      tf.binop name op X0 t = Ok X /\
      shape X = [N; P] /\
      forall n p, n < N -> p < P ->
        data X [n; p]
        = op (data X0 [n; p])
             (tf.big_sum L (fun l => tf.big_sum M (fun m =>
                smul (data T [l; m; n * P + p])
                     (data T [l; m; n * P + p])))).
Proof.
  intros name op X0 T HT HX0.
  pose proof (reduce_sum_01_ok (tf.square T) L M [N * P] HT) as E1.
  set (ssq := mkT _ _) in E1.
  assert (Hp : prod (shape ssq) = prod [N; P])
    by (cbn [ssq shape prod fold_right]; ring).
  pose proof (reshape_ok ssq [N; P] Hp) as E2.
  set (t := mkT _ _) in E2.
  assert (Hb : broadcast_shapes (shape X0) (shape t) = Some [N; P])
    by (rewrite HX0; apply (broadcast_shapes_suffix_l [] [N; P])).
  pose proof (binop_ok name op X0 t [N; P] Hb) as E3.
  set (X := mkT _ _) in E3.
  exists ssq, t, X.
  repeat (split; [assumption || reflexivity|]).
  intros n p Hn Hp'.
  pose proof (flat_lt n p Hn Hp') as Hx.
  unfold X. cbn [data shape]. rewrite HX0.
  rewrite !bidx_in_range by in_range_solve.
  f_equal. unfold t. cbn [data shape].
  replace (ravel [N; P] [n; p]) with (ravel [N * P] [n * P + p])
    by (cbn [ravel ravel_acc]; ring).
  rewrite unravel_ravel by in_range_solve.
  reflexivity.
Qed.

Lemma interdomain_lta_rank3 : forall (q A : tensor F),
  shape q = [L; M; M] ->
  shape A = [L; M; N * P] ->
  exists Lf LTA,
    tf.matrix_band_part q (-1) 0 = Ok Lf /\
    tf.matmul Lf A true false = Ok LTA /\
    shape LTA = [L; M; N * P] /\
    forall l c x,
      data LTA [l; c; x]
      = tf.big_sum M (fun k =>
          smul (if c <=? k then data q [l; k; c] else s0) (data A [l; k; x])).
Proof.
  intros q A Hq HA.
  assert (H2 : 2 <= rank q) by (unfold rank; rewrite Hq; cbn; lia).
  pose proof (matrix_band_part_ok q (-1) 0 H2) as E1.
  set (Lf := mkT _ _) in E1.
  assert (HsLf : shape Lf = [L] ++ [M; M]) by exact Hq.
  pose proof (matmul_tn_ok Lf A [L] M M (N * P) HsLf HA) as E2.
  set (LTA := mkT _ _) in E2.
  exists Lf, LTA. repeat (split; [assumption || reflexivity|]).
  intros l c x. unfold LTA. cbn [data]. simpl_idx.
  apply big_sum_ext. intros k Hk.
  unfold Lf. cbn [data]. simpl_idx. rewrite in_band_lower. reflexivity.
Qed.

Lemma interdomain_lta_rank2 : forall (q A : tensor F),
  shape q = [M; L] ->
  shape A = [L; M; N * P] ->
  exists qT LTA,
    tf.transpose_all q = Ok qT /\
    tf.binop "mul" smul A (tf.newaxis_last qT) = Ok LTA /\
    shape LTA = [L; M; N * P] /\
    forall l c x, l < L -> c < M -> x < N * P ->
      data LTA [l; c; x] = smul (data A [l; c; x]) (data q [c; l]).
Proof.
  intros q A Hq HA.
  pose proof (transpose_all_2_ok q M L Hq) as E1.
  set (qT := mkT _ _) in E1.
  assert (Hb : broadcast_shapes (shape A) (shape (tf.newaxis_last qT))
               = Some [L; M; N * P]).
  { cbn [tf.newaxis_last shape qT]. rewrite HA.
    rewrite broadcast_shapes_same_length by reflexivity.
    apply (zip_dims_app [L; M] [L; M] [N * P] [1] [L; M] [N * P]
             (zip_dims_refl [L; M])).
    cbn [zip_dims]. destruct (N * P =? 1) eqn:E; [|reflexivity].
    apply Nat.eqb_eq in E. rewrite E. reflexivity. }
  pose proof (binop_ok "mul"%string smul A (tf.newaxis_last qT)
                [L; M; N * P] Hb) as E2.
  set (LTA := mkT _ _) in E2.
  exists qT, LTA. repeat (split; [assumption || reflexivity|]).
  intros l c x Hl Hc Hx. unfold LTA. cbn [data shape tf.newaxis_last].
  rewrite HA. rewrite bidx_in_range by in_range_solve.
  f_equal.
  cbn [qT shape app].
  rewrite bidx_same_length by reflexivity.
  change (clamp [L; M; 1] [l; c; x])
    with (clamp ([L; M] ++ [1]) ([l; c] ++ [x])).
  rewrite clamp_app by reflexivity.
  rewrite clamp_in_range by in_range_solve.
  cbn [clamp Nat.eqb app length Nat.sub firstn data
         assemble find_pos option_map nth hd tl].
  reflexivity.
Qed.

End InterdomainElements.

Section InterdomainMarginals.
Context {F : Type} {SF : Scalar F}.

Ltac stage H := rewrite H; cbn [bind]; clear H.

(** The whitened interdomain call for the marginal variances, element by
    element. *)
Lemma interdomain_whitened_marginal_elements :
  forall (Kmn Kmm Knn f : tensor F) M L N P q_sqrt,
    shape Kmn = [M; L; N; P] ->
    shape Kmm = [L; M; M] ->
    shape f = [M; L] ->
    shape Knn = [N; P] ->
    match q_sqrt with
    | None => True
    | Some q => shape q = [L; M; M] \/ shape q = [M; L]
    end ->
    exists fmean fvar,
      independent_interdomain_conditional Kmn Kmm Knn f
        false false q_sqrt true = Ok (fmean, fvar) /\
      shape fmean = [N; P] /\
      shape fvar = [N; P] /\
      forall n p, n < N -> p < P ->
        data fmean [n; p]
        = tf.big_sum M (fun m => tf.big_sum L (fun l =>
            smul (interdomain_projection Kmn Kmm M l m n p)
                 (data f [m; l])))
        /\
        data fvar [n; p]
        = let V :=
            ssub (data Knn [n; p])
                 (tf.big_sum L (fun l => tf.big_sum M (fun m =>
                    smul (interdomain_projection Kmn Kmm M l m n p)
                         (interdomain_projection Kmn Kmm M l m n p)))) in
          match q_sqrt with
          | None => V
          | Some q =>
              sadd V (tf.big_sum L (fun l => tf.big_sum M (fun c =>
                        smul (interdomain_lta Kmn Kmm q M l c n p)
                             (interdomain_lta Kmn Kmm q M l c n p))))
          end.
Proof.
  intros Kmn Kmm Knn f M L N P q_sqrt HKmn HKmm Hf HKnn Hq.
  destruct (interdomain_prefix_general Kmn Kmm M L N P HKmn HKmm)
    as (Lm & Kt & Kr & A & Ar & ELm & EKt & EKr & EA & EAr
        & HsA & HsAr & HdA & HdAr).
  unfold independent_interdomain_conditional, tf.sub, tf.add, tf.mul.
  rewrite HKmn. cbn [unpack4 bind].
  stage ELm. stage EKt. stage EKr. stage EA. stage EAr.
  destruct (interdomain_sumsq_general M L N P "sub"%string ssub Knn A
              HsA HKnn) as (ssq & t & X & E1 & E2 & E3 & HsX & HdX).
  stage E1. stage E2. stage E3. cbn [negb bind].
  destruct (interdomain_mean_general M L N P Ar f HsAr Hf)
    as (m & Em & Hsm & Hdm).
  stage Em.
  assert (Hmean : forall n p, n < N -> p < P ->
    data m [n; p]
    = tf.big_sum M (fun i => tf.big_sum L (fun l =>
        smul (interdomain_projection Kmn Kmm M l i n p) (data f [i; l])))).
  { intros n p Hn Hp. rewrite Hdm.
    apply big_sum_ext. intros i Hi. apply big_sum_ext. intros l Hl.
    rewrite HdAr, HdA by assumption. reflexivity. }
  assert (HV : forall n p, n < N -> p < P ->
    data X [n; p]
    = ssub (data Knn [n; p])
           (tf.big_sum L (fun l => tf.big_sum M (fun i =>
              smul (interdomain_projection Kmn Kmm M l i n p)
                   (interdomain_projection Kmn Kmm M l i n p))))).
  { intros n p Hn Hp. rewrite HdX by assumption. f_equal.
    apply big_sum_ext. intros l Hl. apply big_sum_ext. intros i Hi.
    rewrite HdA by assumption. reflexivity. }
  destruct q_sqrt as [q|].
  - assert (HLTA : exists LTA,
      (if rank q =? 3
       then Lf <- tf.matrix_band_part q (-1) 0 ;; tf.matmul Lf A true false
       else qt <- tf.transpose_all q ;;
            tf.binop "mul" smul A (tf.newaxis_last qt)) = Ok LTA
      /\ shape LTA = [L; M; N * P]
      /\ forall l c n p, l < L -> c < M -> n < N -> p < P ->
           data LTA [l; c; n * P + p] = interdomain_lta Kmn Kmm q M l c n p).
    { destruct Hq as [Hq | Hq].
      - destruct (interdomain_lta_rank3 M L N P q A Hq HsA)
          as (Lf & LTA & EL1 & EL2 & HsL & HdL).
        exists LTA. unfold rank at 1. rewrite Hq. cbn [length Nat.eqb].
        rewrite EL1. cbn [bind]. split; [exact EL2|]. split; [exact HsL|].
        intros l c n p Hl Hc Hn Hp. rewrite HdL.
        unfold interdomain_lta, rank. rewrite Hq. cbn [length Nat.eqb].
        apply big_sum_ext. intros k Hk. rewrite HdA by assumption.
        reflexivity.
      - destruct (interdomain_lta_rank2 M L N P q A Hq HsA)
          as (qT & LTA & EL1 & EL2 & HsL & HdL).
        exists LTA. unfold rank at 1. rewrite Hq. cbn [length Nat.eqb].
        rewrite EL1. cbn [bind]. split; [exact EL2|]. split; [exact HsL|].
        intros l c n p Hl Hc Hn Hp.
        rewrite HdL by (try assumption; nia).
        unfold interdomain_lta, rank. rewrite Hq. cbn [length Nat.eqb].
        rewrite HdA by assumption. reflexivity. }
    destruct HLTA as (LTA & EL & HsL & HdL). stage EL.
    destruct (interdomain_sumsq_general M L N P "add"%string sadd X LTA
                HsL HsX) as (ssq2 & c & W & E4 & E5 & E6 & HsW & HdW).
    stage E4. stage E5. stage E6.
    exists m, W. split; [reflexivity|]. split; [assumption|].
    split; [assumption|].
    intros n p Hn Hp. split; [apply Hmean; assumption|].
    cbv zeta. rewrite HdW, HV by assumption. f_equal.
    apply big_sum_ext. intros l Hl. apply big_sum_ext. intros c0 Hc.
    rewrite HdL by assumption. reflexivity.
  - cbn [bind]. exists m, X. split; [reflexivity|]. split; [assumption|].
    split; [assumption|].
    intros n p Hn Hp. split; [apply Hmean | apply HV]; assumption.
Qed.

End InterdomainMarginals.

Section InterdomainCovariance.
Context {F : Type} {SF : Scalar F}.

Ltac stage H := rewrite H; cbn [bind]; clear H.
Ltac prod_eq := cbn [prod fold_right app]; ring.

Lemma split_index : forall a b k,
  k < a * b -> k / b < a /\ k mod b < b /\ k / b * b + k mod b = k.
Proof.
  intros a b k Hk.
  assert (Hb : b <> 0) by (intros ->; lia).
  split; [apply Nat.Div0.div_lt_upper_bound; lia|].
  split; [apply Nat.mod_upper_bound; assumption|].
  pose proof (Nat.div_mod_eq k b). lia.
Qed.

Lemma interdomain_lta_stage :
  forall (Kmn Kmm q A : tensor F) M L N P,
    shape A = [L; M; N * P] ->
    (forall l m n p, l < L -> m < M -> n < N -> p < P ->
       data A [l; m; n * P + p] = interdomain_projection Kmn Kmm M l m n p) ->
    shape q = [L; M; M] \/ shape q = [M; L] ->
    exists LTA,
      (if rank q =? 3
       then Lf <- tf.matrix_band_part q (-1) 0 ;; tf.matmul Lf A true false
       else qt <- tf.transpose_all q ;;
            tf.binop "mul" smul A (tf.newaxis_last qt)) = Ok LTA
      /\ shape LTA = [L; M; N * P]
      /\ forall l c n p, l < L -> c < M -> n < N -> p < P ->
           data LTA [l; c; n * P + p] = interdomain_lta Kmn Kmm q M l c n p.
Proof.
  intros Kmn Kmm q A M L N P HsA HdA Hq.
  destruct Hq as [Hq | Hq].
  - destruct (interdomain_lta_rank3 M L N P q A Hq HsA)
      as (Lf & LTA & EL1 & EL2 & HsL & HdL).
    exists LTA. unfold rank at 1. rewrite Hq. cbn [length Nat.eqb].
    rewrite EL1. cbn [bind]. split; [exact EL2|]. split; [exact HsL|].
    intros l c n p Hl Hc Hn Hp. rewrite HdL.
    unfold interdomain_lta, rank. rewrite Hq. cbn [length Nat.eqb].
    apply big_sum_ext. intros k Hk. rewrite HdA by assumption.
    reflexivity.
  - destruct (interdomain_lta_rank2 M L N P q A Hq HsA)
      as (qT & LTA & EL1 & EL2 & HsL & HdL).
    exists LTA. unfold rank at 1. rewrite Hq. cbn [length Nat.eqb].
    rewrite EL1. cbn [bind]. split; [exact EL2|]. split; [exact HsL|].
    intros l c n p Hl Hc Hn Hp.
    rewrite HdL by (try assumption; nia).
    unfold interdomain_lta, rank. rewrite Hq. cbn [length Nat.eqb].
    rewrite HdA by assumption. reflexivity.
Qed.

(** [LTA] with its two leading axes merged, as the covariance branches
    reshape it. *)
Lemma interdomain_lta_merged :
  forall (Kmn Kmm q LTA : tensor F) M L N P,
    shape LTA = [L; M; N * P] ->
    (forall l c n p, l < L -> c < M -> n < N -> p < P ->
       data LTA [l; c; n * P + p] = interdomain_lta Kmn Kmm q M l c n p) ->
    exists r,
      tf.reshape LTA [L * M; N; P] = Ok r /\
      shape r = [L * M; N; P] /\
      forall k n p, k < L * M -> n < N -> p < P ->
        data r [k; n; p]
        = interdomain_lta Kmn Kmm q M (k / M) (k mod M) n p.
Proof.
  intros Kmn Kmm q LTA M L N P HsL HdL.
  assert (Hp : prod (shape LTA) = prod [L * M; N; P])
    by (rewrite HsL; prod_eq).
  pose proof (reshape_ok LTA [L * M; N; P] Hp) as E.
  set (r := mkT _ _) in E.
  exists r. split; [exact E|]. split; [reflexivity|].
  intros k n p Hk Hn Hp'.
  destruct (split_index L M k Hk) as (Hl & Hc & Hkk).
  assert (Hx : n * P + p < N * P) by nia.
  rewrite <- HdL by assumption.
  unfold r. cbn [data]. rewrite HsL.
  replace (ravel [L * M; N; P] [k; n; p])
    with (ravel [L; M; N * P] [k / M; k mod M; n * P + p])
    by (cbn [ravel ravel_acc]; rewrite <- Hkk at 3; ring).
  rewrite unravel_ravel by in_range_solve. reflexivity.
Qed.

(** X25.  The covariances of the whitened
    [independent_interdomain_conditional] when a covariance flag is on, for
    every documented [q_sqrt]: the element that relates [(n, p)] to
    [(n', p')] is the prior covariance minus the sum over the latent
    processes and inducing points of [A[l, m, n, p] A[l, m, n', p']], plus,
    when [q_sqrt] is given, the same sum of products of [LTA].  It is stored
    at [[n, p, n', p']] with both flags, at [[p, n, n']] with [full_cov]
    alone and at [[n, p, p']] with [full_output_cov] alone. *)
Theorem X25_interdomain_whitened_covariance_elements :
  forall (Kmn Kmm Knn f : tensor F) M L N P full_cov full_output_cov q_sqrt,
    shape Kmn = [M; L; N; P] ->
    shape Kmm = [L; M; M] ->
    shape f = [M; L] ->
    full_cov || full_output_cov = true ->
    shape Knn = variance_shape full_cov full_output_cov N P ->
    match q_sqrt with
    | None => True
    | Some q => shape q = [L; M; M] \/ shape q = [M; L]
    end ->
    exists fmean fvar,
      independent_interdomain_conditional Kmn Kmm Knn f
        full_cov full_output_cov q_sqrt true = Ok (fmean, fvar) /\
      match full_cov, full_output_cov with
      | true, true =>
          forall n p n' p', n < N -> p < P -> n' < N -> p' < P ->
            data fvar [n; p; n'; p']
            = interdomain_cov Kmn Kmm q_sqrt M L true
                (data Knn [n; p; n'; p']) n p n' p'
      | true, false =>
          forall p i j, p < P -> i < N -> j < N ->
            data fvar [p; i; j]
            = interdomain_cov Kmn Kmm q_sqrt M L false
                (data Knn [p; i; j]) i p j p
      | false, true =>
          forall n p p', n < N -> p < P -> p' < P ->
            data fvar [n; p; p']
            = interdomain_cov Kmn Kmm q_sqrt M L false
                (data Knn [n; p; p']) n p n p'
      | false, false => True
      end.
Proof.
  intros Kmn Kmm Knn f M L N P full_cov full_output_cov q_sqrt
    HKmn HKmm Hf Hflags HKnn Hq.
  destruct (interdomain_prefix_general Kmn Kmm M L N P HKmn HKmm)
    as (Lm & Kt & Kr & A & Ar & ELm & EKt & EKr & EA & EAr
        & HsA & HsAr & HdA & HdAr).
  assert (HAr : forall l m n p, l < L -> m < M -> n < N -> p < P ->
            data Ar [l; m; n; p] = interdomain_projection Kmn Kmm M l m n p)
    by (intros; rewrite HdAr, HdA by assumption; reflexivity).
  unfold independent_interdomain_conditional, tf.sub, tf.add, tf.mul.
  rewrite HKmn. cbn [unpack4 bind].
  stage ELm. stage EKt. stage EKr. stage EA. stage EAr.
  destruct (interdomain_mean_general M L N P Ar f HsAr Hf)
    as (m & Em & Hsm & Hdm).
  destruct full_cov, full_output_cov; try discriminate Hflags;
    cbn [variance_shape] in HKnn; cbn [negb bind].
  - (* both flags *)
    assert (Ht : forallb (fun k => k <? rank Ar) [0; 1]
                 && forallb (fun k => k <? rank Ar) [0; 1]
                 && list_eqb (map (fun k => nth k (shape Ar) 0) [0; 1])
                             (map (fun k => nth k (shape Ar) 0) [0; 1])
                 = true)
      by (unfold rank; rewrite HsAr; cbn; rewrite !Nat.eqb_refl; reflexivity).
    pose proof (tensordot_ok Ar Ar [0; 1] [0; 1] Ht) as Et.
    unfold rank in Et. rewrite HsAr in Et.
    cbn [length seq free_axes filter existsb Nat.eqb negb orb map nth app]
      in Et.
    set (t := mkT _ _) in Et. stage Et.
    assert (Hb1 : broadcast_shapes (shape Knn) (shape t) = Some [N; P; N; P])
      by (rewrite HKnn; exact (broadcast_shapes_suffix_l [] [N; P; N; P])).
    run (binop_ok "sub"%string ssub Knn t [N; P; N; P] Hb1) V HsV.
    stage Em.
    assert (HV : forall n p n' p', n < N -> p < P -> n' < N -> p' < P ->
      data V [n; p; n'; p']
      = ssub (data Knn [n; p; n'; p'])
             (tf.big_sum L (fun l => tf.big_sum M (fun i =>
                smul (interdomain_projection Kmn Kmm M l i n p)
                     (interdomain_projection Kmn Kmm M l i n' p'))))).
    { intros n p n' p' Hn Hp Hn' Hp'.
      unfold V. cbn [data]. rewrite HKnn.
      rewrite !bidx_in_range by in_range_solve. f_equal.
      unfold t. cbn [data tf.sum_idx firstn skipn assemble find_pos Nat.eqb
                       option_map nth hd tl].
      apply big_sum_ext. intros l Hl. apply big_sum_ext. intros i Hi.
      rewrite !HAr by assumption. reflexivity. }
    destruct q_sqrt as [q|].
    + destruct (interdomain_lta_stage Kmn Kmm q A M L N P HsA HdA Hq)
        as (LTA & EL & HsL & HdL).
      stage EL.
      assert (Hr3 : prod (shape LTA) = prod [L * M; N * P])
        by (rewrite HsL; prod_eq).
      run (reshape_ok LTA [L * M; N * P] Hr3) LTAr HsLTAr.
      run (matmul_tn_ok LTAr LTAr [] (L * M) (N * P) (N * P) HsLTAr HsLTAr)
          t2 Hst2.
      assert (Hr4 : prod (shape t2) = prod [N; P; N; P])
        by (rewrite Hst2; prod_eq).
      run (reshape_ok t2 [N; P; N; P] Hr4) c Hsc.
      assert (Hb2 : broadcast_shapes (shape V) (shape c) = Some [N; P; N; P])
        by (rewrite HsV, Hsc; exact (broadcast_shapes_suffix_l [] [N; P; N; P])).
      run (binop_ok "add"%string sadd V c [N; P; N; P] Hb2) W HsW.
      exists m, W. split; [reflexivity|].
      intros n p n' p' Hn Hp Hn' Hp'.
      assert (Hx : n * P + p < N * P) by nia.
      assert (Hx' : n' * P + p' < N * P) by nia.
      unfold interdomain_cov, W. cbn [data]. rewrite HsV, Hsc.
      rewrite !bidx_in_range by in_range_solve.
      rewrite HV by assumption. f_equal.
      unfold c. cbn [data]. rewrite Hst2.
      replace (ravel [N; P; N; P] [n; p; n'; p'])
        with (ravel ([] ++ [N * P; N * P]) [n * P + p; n' * P + p'])
        by (cbn [app ravel ravel_acc]; ring).
      rewrite unravel_ravel by in_range_solve.
      unfold t2. cbn [data]. simpl_idx.
      apply big_sum_ext. intros k Hk.
      destruct (split_index L M k Hk) as (Hl & Hc & Hkk).
      assert (HR : forall x a b, a < N -> b < P -> x = a * P + b ->
                data LTAr [k; x]
                = interdomain_lta Kmn Kmm q M (k / M) (k mod M) a b).
      { intros x a b Ha Hb ->.
        assert (Hxx : a * P + b < N * P) by nia.
        rewrite <- HdL by assumption.
        unfold LTAr. cbn [data]. rewrite HsL.
        replace (ravel [L * M; N * P] [k; a * P + b])
          with (ravel [L; M; N * P] [k / M; k mod M; a * P + b])
          by (cbn [ravel ravel_acc]; rewrite <- Hkk at 3; ring).
        rewrite unravel_ravel by in_range_solve. reflexivity. }
      rewrite (HR _ n p Hn Hp eq_refl), (HR _ n' p' Hn' Hp' eq_refl).
      reflexivity.
    + cbn [bind]. exists m, V. split; [reflexivity|].
      intros n p n' p' Hn Hp Hn' Hp'. apply HV; assumption.
  - (* covariance between inputs, per output *)
    pose proof (transpose_all_4_ok Ar L M N P HsAr) as Et.
    set (tr := mkT _ _) in Et. stage Et.
    assert (Hr2 : prod (shape tr) = prod [P; N; M * L])
      by (cbn [tr shape]; prod_eq).
    run (reshape_ok tr [P; N; M * L] Hr2) At HsAt.
    run (matmul_nt_ok At At [P] N (M * L) N HsAt HsAt) t Hst.
    assert (Hb1 : broadcast_shapes (shape Knn) (shape t) = Some [P; N; N])
      by (rewrite HKnn, Hst; exact (broadcast_shapes_suffix_l [] [P; N; N])).
    run (binop_ok "sub"%string ssub Knn t [P; N; N] Hb1) V HsV.
    stage Em.
    assert (HAt : forall p n k, p < P -> n < N -> k < M * L ->
      data At [p; n; k]
      = interdomain_projection Kmn Kmm M (k mod L) (k / L) n p).
    { intros p n k Hp Hn Hk.
      destruct (split_index M L k Hk) as (Hm & Hl & Hkk).
      rewrite <- HAr by assumption.
      unfold At. cbn [data shape tr].
      replace (ravel [P; N; M * L] [p; n; k])
        with (ravel [P; N; M; L] [p; n; k / L; k mod L])
        by (cbn [ravel ravel_acc]; rewrite <- Hkk at 3; ring).
      rewrite unravel_ravel by in_range_solve. reflexivity. }
    assert (HV : forall p i j, p < P -> i < N -> j < N ->
      data V [p; i; j]
      = ssub (data Knn [p; i; j])
             (tf.big_sum (M * L) (fun k =>
                smul (interdomain_projection Kmn Kmm M (k mod L) (k / L) i p)
                     (interdomain_projection Kmn Kmm M (k mod L) (k / L) j p)))).
    { intros p i j Hp Hi Hj.
      unfold V. cbn [data]. rewrite HKnn, Hst.
      rewrite !bidx_in_range by in_range_solve. f_equal.
      unfold t. cbn [data]. simpl_idx.
      apply big_sum_ext. intros k Hk.
      rewrite !HAt by assumption. reflexivity. }
    destruct q_sqrt as [q|].
    + destruct (interdomain_lta_stage Kmn Kmm q A M L N P HsA HdA Hq)
        as (LTA & EL & HsL & HdL).
      stage EL.
      destruct (interdomain_lta_merged Kmn Kmm q LTA M L N P HsL HdL)
        as (r & Er & Hsr & Hdr).
      stage Er.
      assert (Hp2 : is_perm (rank r) [2; 0; 1] = true)
        by (unfold rank; rewrite Hsr; reflexivity).
      run (transpose_ok r [2; 0; 1] Hp2) LTAr HsLTAr.
      rewrite Hsr in HsLTAr. cbn [map nth] in HsLTAr.
      run (matmul_tn_ok LTAr LTAr [P] (L * M) N N HsLTAr HsLTAr) c Hsc.
      assert (Hb2 : broadcast_shapes (shape V) (shape c) = Some [P; N; N])
        by (rewrite HsV, Hsc; exact (broadcast_shapes_suffix_l [] [P; N; N])).
      run (binop_ok "add"%string sadd V c [P; N; N] Hb2) W HsW.
      exists m, W. split; [reflexivity|].
      intros p i j Hp Hi Hj.
      unfold interdomain_cov, W. cbn [data]. rewrite HsV, Hsc.
      rewrite !bidx_in_range by in_range_solve.
      rewrite HV by assumption. f_equal.
      unfold c. cbn [data]. simpl_idx.
      apply big_sum_ext. intros k Hk.
      unfold LTAr. cbn [data]. unfold rank. rewrite Hsr.
      cbn [length seq assemble find_pos Nat.eqb option_map nth hd tl].
      rewrite !Hdr by assumption. reflexivity.
    + cbn [bind]. exists m, V. split; [reflexivity|].
      intros p i j Hp Hi Hj. apply HV; assumption.
  - (* covariance between outputs, per input *)
    assert (Hp0 : is_perm (rank Ar) [2; 3; 1; 0] = true)
      by (unfold rank; rewrite HsAr; reflexivity).
    run (transpose_ok Ar [2; 3; 1; 0] Hp0) tr Hstr.
    rewrite HsAr in Hstr. cbn [map nth] in Hstr.
    assert (Hr2 : prod (shape tr) = prod [N; P; M * L])
      by (rewrite Hstr; prod_eq).
    run (reshape_ok tr [N; P; M * L] Hr2) At HsAt.
    run (matmul_nt_ok At At [N] P (M * L) P HsAt HsAt) t Hst.
    assert (Hb1 : broadcast_shapes (shape Knn) (shape t) = Some [N; P; P])
      by (rewrite HKnn, Hst; exact (broadcast_shapes_suffix_l [] [N; P; P])).
    run (binop_ok "sub"%string ssub Knn t [N; P; P] Hb1) V HsV.
    stage Em.
    assert (HAt : forall n p k, n < N -> p < P -> k < M * L ->
      data At [n; p; k]
      = interdomain_projection Kmn Kmm M (k mod L) (k / L) n p).
    { intros n p k Hn Hp Hk.
      destruct (split_index M L k Hk) as (Hm & Hl & Hkk).
      rewrite <- HAr by assumption.
      unfold At. cbn [data]. rewrite Hstr.
      replace (ravel [N; P; M * L] [n; p; k])
        with (ravel [N; P; M; L] [n; p; k / L; k mod L])
        by (cbn [ravel ravel_acc]; rewrite <- Hkk at 3; ring).
      rewrite unravel_ravel by in_range_solve.
      unfold tr. cbn [data]. unfold rank. rewrite HsAr.
      cbn [length seq assemble find_pos Nat.eqb option_map nth hd tl].
      reflexivity. }
    assert (HV : forall n p p', n < N -> p < P -> p' < P ->
      data V [n; p; p']
      = ssub (data Knn [n; p; p'])
             (tf.big_sum (M * L) (fun k =>
                smul (interdomain_projection Kmn Kmm M (k mod L) (k / L) n p)
                     (interdomain_projection Kmn Kmm M (k mod L) (k / L) n p')))).
    { intros n p p' Hn Hp Hp'.
      unfold V. cbn [data]. rewrite HKnn, Hst.
      rewrite !bidx_in_range by in_range_solve. f_equal.
      unfold t. cbn [data]. simpl_idx.
      apply big_sum_ext. intros k Hk.
      rewrite !HAt by assumption. reflexivity. }
    destruct q_sqrt as [q|].
    + destruct (interdomain_lta_stage Kmn Kmm q A M L N P HsA HdA Hq)
        as (LTA & EL & HsL & HdL).
      stage EL.
      destruct (interdomain_lta_merged Kmn Kmm q LTA M L N P HsL HdL)
        as (r & Er & Hsr & Hdr).
      stage Er.
      assert (Hp2 : is_perm (rank r) [1; 0; 2] = true)
        by (unfold rank; rewrite Hsr; reflexivity).
      run (transpose_ok r [1; 0; 2] Hp2) LTAr HsLTAr.
      rewrite Hsr in HsLTAr. cbn [map nth] in HsLTAr.
      run (matmul_tn_ok LTAr LTAr [N] (L * M) P P HsLTAr HsLTAr) c Hsc.
      assert (Hb2 : broadcast_shapes (shape V) (shape c) = Some [N; P; P])
        by (rewrite HsV, Hsc; exact (broadcast_shapes_suffix_l [] [N; P; P])).
      run (binop_ok "add"%string sadd V c [N; P; P] Hb2) W HsW.
      exists m, W. split; [reflexivity|].
      intros n p p' Hn Hp Hp'.
      unfold interdomain_cov, W. cbn [data]. rewrite HsV, Hsc.
      rewrite !bidx_in_range by in_range_solve.
      rewrite HV by assumption. f_equal.
      unfold c. cbn [data]. simpl_idx.
      apply big_sum_ext. intros k Hk.
      unfold LTAr. cbn [data]. unfold rank. rewrite Hsr.
      cbn [length seq assemble find_pos Nat.eqb option_map nth hd tl].
      rewrite !Hdr by assumption. reflexivity.
    + cbn [bind]. exists m, V. split; [reflexivity|].
      intros n p p' Hn Hp Hp'. apply HV; assumption.
Qed.

End InterdomainCovariance.

Section FullyCorrelatedVariance.
Context {F : Type} {SF : Scalar F}.

Ltac prod_eq := cbn [prod fold_right app]; ring.

(** X24.  The variances of the whitened
    [fully_correlated_conditional_repeat] with a [q_sqrt] of shape
    R x M x M, for each flag combination that returns: the element for
    replica [r] that relates [(n, p)] to [(n', p')] is the prior covariance
    minus [sum_m A[m, n, p] A[m, n', p']] plus
    [sum_c LTA[r, c, n, p] LTA[r, c, n', p']], with [LTA] the product of the
    lower triangle of [q_sqrt[r]], transposed, with [A].  It is stored at
    [[r, n, p, n', p']] with both flags, at [[r, p, n, n']] (same output)
    with [full_cov] alone and at [[r, n, p, p']] (same input) with
    [full_output_cov] alone. *)
Theorem X24_fully_correlated_repeat_variance_elements :
  forall (Kmn Kmm Knn f q : tensor F) M N K R full_cov full_output_cov,
    shape Kmn = [M; N; K] ->
    shape Kmm = [M; M] ->
    shape f = [M; R] ->
    shape q = [R; M; M] ->
    full_cov || full_output_cov = true ->
    shape Knn = variance_shape full_cov full_output_cov N K ->
    exists fmean fvar,
      fully_correlated_conditional_repeat Kmn Kmm Knn f
        full_cov full_output_cov (Some q) true = Ok (fmean, fvar) /\
      match full_cov, full_output_cov with
      | true, true =>
          forall r n k n' k', r < R -> n < N -> k < K -> n' < N -> k' < K ->
            data fvar [r; n; k; n'; k']
            = fully_correlated_cov Kmn Kmm q M r (data Knn [n; k; n'; k'])
                n k n' k'
      | true, false =>
          forall r k i j, r < R -> k < K -> i < N -> j < N ->
            data fvar [r; k; i; j]
            = fully_correlated_cov Kmn Kmm q M r (data Knn [k; i; j])
                i k j k
      | false, true =>
          forall r n k k', r < R -> n < N -> k < K -> k' < K ->
            data fvar [r; n; k; k']
            = fully_correlated_cov Kmn Kmm q M r (data Knn [n; k; k'])
                n k n k'
      | false, false => True
      end.
Proof.
  intros Kmn Kmm Knn f q M N K R full_cov full_output_cov
    HKmn HKmm Hf Hq Hflags HKnn.
  unfold fully_correlated_conditional_repeat.
  unfold shape_at. rewrite Hf. cbn [nth_error bind].
  rewrite HKmn. cbn [unpack3 bind negb].
  run (cholesky_ok Kmm [] M HKmm) Lm HsLm.
  assert (Hr0 : prod (shape Kmn) = prod [M; N * K])
    by (rewrite HKmn; prod_eq).
  run (reshape_ok Kmn [M; N * K] Hr0) Kr HsKr.
  run (triangular_solve_ok Lm Kr [] M (N * K) true HsLm HsKr) A HsA.
  cbn [app] in HsA.
  assert (HA : forall c n k, c < M -> n < N -> k < K ->
    data A [c; n * K + k] = fully_correlated_projection Kmn Kmm M c n k).
  { intros c n k Hc Hn Hk.
    assert (Hx : n * K + k < N * K) by nia.
    unfold fully_correlated_projection, projection_entry, A.
    cbn [data]. simpl_idx.
    apply solve_lower_ext.
    - intros i j Hi Hj. reflexivity.
    - intros i Hi. unfold Kr. cbn [data]. rewrite HKmn.
      replace (ravel [M; N * K] [i; n * K + k])
        with (ravel [M; N; K] [i; n; k])
        by (cbn [ravel ravel_acc]; ring).
      rewrite unravel_ravel by in_range_solve. reflexivity. }
  assert (Hr1 : prod (shape A) = prod [M; N; K])
    by (rewrite HsA; prod_eq).
  run (reshape_ok A [M; N; K] Hr1) Ar HsAr.
  assert (HAr : forall c n k, c < M -> n < N -> k < K ->
    data Ar [c; n; k] = fully_correlated_projection Kmn Kmm M c n k).
  { intros c n k Hc Hn Hk.
    assert (Hx : n * K + k < N * K) by nia.
    rewrite <- HA by assumption.
    unfold Ar. cbn [data]. rewrite HsA.
    replace (ravel [M; N; K] [c; n; k])
      with (ravel [M; N * K] [c; n * K + k])
      by (cbn [ravel ravel_acc]; ring).
    rewrite unravel_ravel by in_range_solve. reflexivity. }
  (* the mean *)
  run (matmul_tn_ok f A [] M R (N * K) Hf HsA) fm Hsfm.
  assert (Hr2 : prod (shape fm) = prod [R; N; K])
    by (rewrite Hsfm; prod_eq).
  run (reshape_ok fm [R; N; K] Hr2) fmean Hsfmean.
  (* the variational factor *)
  assert (H2 : 2 <= rank q) by (unfold rank; rewrite Hq; cbn; lia).
  run (matrix_band_part_ok q (-1) 0 H2) Lf HsLf.
  rewrite Hq in HsLf.
  unfold rank at 1. rewrite Hq. cbn [length Nat.eqb].
  assert (Hna : 2 <= rank A) by (unfold rank; rewrite HsA; cbn; lia).
  rewrite (newaxis0_slices_ok A 2 Hna). cbn [bind].
  assert (Hti : length [R; 1; 1] = rank (tf.newaxis0 A))
    by (unfold rank; cbn [tf.newaxis0 shape]; rewrite HsA; reflexivity).
  run (tile_ok (tf.newaxis0 A) [R; 1; 1] Hti) Atl HsAtl.
  cbn [tf.newaxis0 shape] in HsAtl. rewrite HsA in HsAtl.
  cbn [app combine map fst snd] in HsAtl.
  rewrite Nat.mul_1_l, !Nat.mul_1_r in HsAtl.
  run (matmul_tn_ok Lf Atl [R] M M (N * K) HsLf HsAtl) LTA HsLTA.
  cbn [app] in HsLTA.
  assert (HLTA : forall r c n k, r < R -> c < M -> n < N -> k < K ->
    data LTA [r; c; n * K + k] = fully_correlated_lta Kmn Kmm q M r c n k).
  { intros r c n k Hr Hc Hn Hk.
    assert (Hx : n * K + k < N * K) by nia.
    unfold fully_correlated_lta, LTA. cbn [data]. simpl_idx.
    apply big_sum_ext. intros k0 Hk0. f_equal.
    - unfold Lf. cbn [data]. simpl_idx. rewrite in_band_lower. reflexivity.
    - unfold Atl. cbn [data tf.newaxis0 shape]. rewrite HsA.
      cbn [combine map fst snd tl].
      rewrite !Nat.mod_small by lia. apply HA; assumption. }
  destruct full_cov, full_output_cov; try discriminate Hflags;
    cbn [variance_shape] in HKnn |- *.
  - (* covariance between inputs and between outputs *)
    assert (Ht : forallb (fun k => k <? rank Ar) [0]
                 && forallb (fun k => k <? rank Ar) [0]
                 && list_eqb (map (fun k => nth k (shape Ar) 0) [0])
                             (map (fun k => nth k (shape Ar) 0) [0]) = true)
      by (unfold rank; rewrite HsAr; cbn; rewrite !Nat.eqb_refl; reflexivity).
    pose proof (tensordot_ok Ar Ar [0] [0] Ht) as Et.
    unfold rank in Et. rewrite HsAr in Et.
    cbn [length seq free_axes filter existsb Nat.eqb negb orb map nth app]
      in Et.
    set (t := mkT _ _) in Et. rewrite Et. cbn [bind]. clear Et.
    unfold tf.sub, tf.add.
    assert (Hb1 : broadcast_shapes (shape Knn) (shape t) = Some [N; K; N; K])
      by (rewrite HKnn; exact (broadcast_shapes_suffix_l [] [N; K; N; K])).
    run (binop_ok "sub"%string ssub Knn t [N; K; N; K] Hb1) V HsV.
    run (matmul_tn_ok LTA LTA [R] M (N * K) (N * K) HsLTA HsLTA) addvar Hsadd.
    assert (H4 : 4 <= rank V) by (unfold rank; rewrite HsV; cbn; lia).
    rewrite (newaxis0_slices_ok V 4 H4). cbn [bind].
    assert (Hr3 : prod (shape addvar) = prod [R; N; K; N; K])
      by (rewrite Hsadd; prod_eq).
    run (reshape_ok addvar [R; N; K; N; K] Hr3) c Hsc.
    assert (Hb2 : broadcast_shapes (shape (tf.newaxis0 V)) (shape c)
                  = Some [R; N; K; N; K])
      by (cbn [tf.newaxis0 shape]; rewrite HsV, Hsc;
          exact (broadcast_shapes_stretch [] R [N; K; N; K])).
    run (binop_ok "add"%string sadd (tf.newaxis0 V) c [R; N; K; N; K] Hb2)
        W HsW.
    exists fmean, W. split; [reflexivity|].
    intros r n k n' k' Hr Hn Hk Hn' Hk'.
    assert (Hx : n * K + k < N * K) by nia.
    assert (Hx' : n' * K + k' < N * K) by nia.
    unfold fully_correlated_cov, W. cbn [data tf.newaxis0 shape].
    rewrite HsV, Hsc.
    replace (bidx [1; N; K; N; K] [r; n; k; n'; k']) with [0; n; k; n'; k'].
    2:{ rewrite bidx_same_length by reflexivity.
        change (clamp [1; N; K; N; K] [r; n; k; n'; k'])
          with (0 :: clamp [N; K; N; K] [n; k; n'; k']).
        rewrite clamp_in_range by in_range_solve. reflexivity. }
    rewrite bidx_in_range by in_range_solve.
    cbn [tl]. f_equal.
    + unfold V. cbn [data]. rewrite HKnn.
      rewrite !bidx_in_range by in_range_solve. f_equal.
      unfold t. cbn [data tf.sum_idx firstn skipn assemble find_pos Nat.eqb
                       option_map nth hd tl].
      apply big_sum_ext. intros m Hm.
      rewrite !HAr by assumption. reflexivity.
    + unfold c. cbn [data]. rewrite Hsadd.
      replace (ravel [R; N; K; N; K] [r; n; k; n'; k'])
        with (ravel ([R] ++ [N * K; N * K]) [r; n * K + k; n' * K + k'])
        by (cbn [app ravel ravel_acc]; ring).
      rewrite unravel_ravel by in_range_solve.
      unfold addvar. cbn [data]. simpl_idx.
      apply big_sum_ext. intros c0 Hc0.
      rewrite !HLTA by assumption. reflexivity.
  - (* covariance between inputs, per output *)
    assert (Hp : is_perm (rank Ar) (rev (seq 0 (rank Ar))) = true)
      by (unfold rank; rewrite HsAr; reflexivity).
    pose proof (transpose_ok Ar (rev (seq 0 (rank Ar))) Hp) as Et.
    change (tf.transpose Ar (rev (seq 0 (rank Ar))))
      with (tf.transpose_all Ar) in Et.
    unfold rank in Et. rewrite HsAr in Et.
    cbn [length seq rev app map nth] in Et.
    set (At := mkT _ _) in Et. rewrite Et. cbn [bind]. clear Et.
    run (matmul_nt_ok At At [K] N M N eq_refl eq_refl) t Hst.
    unfold tf.sub, tf.add.
    assert (Hb1 : broadcast_shapes (shape Knn) (shape t) = Some [K; N; N])
      by (rewrite HKnn, Hst; exact (broadcast_shapes_suffix_l [] [K; N; N])).
    run (binop_ok "sub"%string ssub Knn t [K; N; N] Hb1) V HsV.
    assert (Hr3 : prod (shape LTA) = prod [R; M; N; K])
      by (rewrite HsLTA; prod_eq).
    run (reshape_ok LTA [R; M; N; K] Hr3) r4 HsR.
    assert (Hp2 : is_perm (rank r4) [0; 3; 1; 2] = true) by reflexivity.
    run (transpose_ok r4 [0; 3; 1; 2] Hp2) LTAr HsLTAr.
    cbn [map nth] in HsLTAr.
    run (matmul_tn_ok LTAr LTAr [R; K] M N N HsLTAr HsLTAr) addvar Hsadd.
    assert (Hb2 : broadcast_shapes (shape (tf.newaxis0 V)) (shape addvar)
                  = Some [R; K; N; N])
      by (cbn [tf.newaxis0 shape]; rewrite HsV, Hsadd;
          exact (broadcast_shapes_stretch [] R [K; N; N])).
    run (binop_ok "add"%string sadd (tf.newaxis0 V) addvar [R; K; N; N] Hb2)
        W HsW.
    exists fmean, W. split; [reflexivity|].
    intros r k i j Hr Hk Hi Hj.
    unfold fully_correlated_cov, W. cbn [data tf.newaxis0 shape].
    rewrite HsV, Hsadd.
    replace (bidx [1; K; N; N] [r; k; i; j]) with [0; k; i; j].
    2:{ rewrite bidx_same_length by reflexivity.
        change (clamp [1; K; N; N] [r; k; i; j])
          with (0 :: clamp [K; N; N] [k; i; j]).
        rewrite clamp_in_range by in_range_solve. reflexivity. }
    rewrite bidx_in_range by in_range_solve.
    cbn [tl]. f_equal.
    + unfold V. cbn [data]. rewrite HKnn, Hst.
      rewrite !bidx_in_range by in_range_solve. f_equal.
      unfold t. cbn [data]. simpl_idx.
      apply big_sum_ext. intros m Hm.
      unfold At. cbn [data assemble find_pos Nat.eqb option_map nth hd tl].
      rewrite !HAr by assumption. reflexivity.
    + unfold addvar. cbn [data].
      change [r; k; i; j] with ([r; k] ++ [i; j]).
      rewrite batch_app2, row_of_app2, col_of_app2. cbn [app].
      apply big_sum_ext. intros c0 Hc0.
      assert (HL : forall a, a < N ->
                data LTAr [r; k; c0; a]
                = fully_correlated_lta Kmn Kmm q M r c0 a k).
      { intros a Ha.
        assert (Hx : a * K + k < N * K) by nia.
        rewrite <- HLTA by assumption.
        unfold LTAr, r4. cbn [data]. rewrite HsLTA.
        cbn [rank shape length seq assemble find_pos Nat.eqb option_map nth].
        replace (ravel [R; M; N; K] [r; c0; a; k])
          with (ravel [R; M; N * K] [r; c0; a * K + k])
          by (cbn [ravel ravel_acc]; ring).
        rewrite unravel_ravel by in_range_solve. reflexivity. }
      rewrite !HL by assumption. reflexivity.
  - (* covariance between outputs, per input *)
    assert (Hp : is_perm (rank Ar) [1; 0; 2] = true)
      by (unfold rank; rewrite HsAr; reflexivity).
    run (transpose_ok Ar [1; 0; 2] Hp) At HsAt.
    rewrite HsAr in HsAt. cbn [map nth] in HsAt.
    run (matmul_tn_ok At At [N] M K K HsAt HsAt) t Hst.
    unfold tf.sub, tf.add.
    assert (Hb1 : broadcast_shapes (shape Knn) (shape t) = Some [N; K; K])
      by (rewrite HKnn, Hst; exact (broadcast_shapes_suffix_l [] [N; K; K])).
    run (binop_ok "sub"%string ssub Knn t [N; K; K] Hb1) V HsV.
    assert (Hr3 : prod (shape LTA) = prod [R; M; N; K])
      by (rewrite HsLTA; prod_eq).
    run (reshape_ok LTA [R; M; N; K] Hr3) r4 HsR.
    assert (Hp2 : is_perm (rank r4) [0; 2; 3; 1] = true) by reflexivity.
    run (transpose_ok r4 [0; 2; 3; 1] Hp2) LTAr HsLTAr.
    cbn [map nth] in HsLTAr.
    run (matmul_nt_ok LTAr LTAr [R; N] K M K HsLTAr HsLTAr) c Hsc.
    assert (Hb2 : broadcast_shapes (shape (tf.newaxis0 V)) (shape c)
                  = Some [R; N; K; K])
      by (cbn [tf.newaxis0 shape]; rewrite HsV, Hsc;
          exact (broadcast_shapes_stretch [] R [N; K; K])).
    run (binop_ok "add"%string sadd (tf.newaxis0 V) c [R; N; K; K] Hb2)
        W HsW.
    exists fmean, W. split; [reflexivity|].
    intros r n k k' Hr Hn Hk Hk'.
    unfold fully_correlated_cov, W. cbn [data tf.newaxis0 shape].
    rewrite HsV, Hsc.
    replace (bidx [1; N; K; K] [r; n; k; k']) with [0; n; k; k'].
    2:{ rewrite bidx_same_length by reflexivity.
        change (clamp [1; N; K; K] [r; n; k; k'])
          with (0 :: clamp [N; K; K] [n; k; k']).
        rewrite clamp_in_range by in_range_solve. reflexivity. }
    rewrite bidx_in_range by in_range_solve.
    cbn [tl]. f_equal.
    + unfold V. cbn [data]. rewrite HKnn, Hst.
      rewrite !bidx_in_range by in_range_solve. f_equal.
      unfold t. cbn [data]. simpl_idx.
      apply big_sum_ext. intros m Hm.
      unfold At. cbn [data]. unfold rank. rewrite HsAr.
      cbn [length seq assemble find_pos Nat.eqb option_map nth hd tl].
      rewrite !HAr by assumption. reflexivity.
    + unfold c. cbn [data].
      change [r; n; k; k'] with ([r; n] ++ [k; k']).
      rewrite batch_app2, row_of_app2, col_of_app2. cbn [app].
      apply big_sum_ext. intros c0 Hc0.
      assert (HL : forall a, a < K ->
                data LTAr [r; n; a; c0]
                = fully_correlated_lta Kmn Kmm q M r c0 n a).
      { intros a Ha.
        assert (Hx : n * K + a < N * K) by nia.
        rewrite <- HLTA by assumption.
        unfold LTAr, r4. cbn [data]. rewrite HsLTA.
        cbn [rank shape length seq assemble find_pos Nat.eqb option_map nth].
        replace (ravel [R; M; N; K] [r; c0; n; a])
          with (ravel [R; M; N * K] [r; c0; n * K + a])
          by (cbn [ravel ravel_acc]; ring).
        rewrite unravel_ravel by in_range_solve. reflexivity. }
      rewrite !HL by assumption. reflexivity.
Qed.

End FullyCorrelatedVariance.

Section MultiOutputElements.
Context {F : Type} {SF : Scalar F}.

(** X21.  The mean of the whitened [independent_interdomain_conditional],
    for every flag combination and every documented [q_sqrt]:
    [fmean[n, p]] is the sum over the inducing points [m] and the latent
    processes [l] of [A[l, m, n, p] * f[m, l]], where column [A[l, :, n, p]]
    solves the Cholesky factor of [Kmm[l]] against [Kmn[:, l, n, p]]. *)
Theorem X21_interdomain_whitened_mean_elements :
  forall (Kmn Kmm Knn f : tensor F) M L N P full_cov full_output_cov q_sqrt,
    shape Kmn = [M; L; N; P] ->
    shape Kmm = [L; M; M] ->
    shape f = [M; L] ->
    shape Knn = variance_shape full_cov full_output_cov N P ->
    match q_sqrt with
    | None => True
    | Some q => shape q = [L; M; M] \/ shape q = [M; L]
    end ->
    exists fmean fvar,
      independent_interdomain_conditional Kmn Kmm Knn f
        full_cov full_output_cov q_sqrt true = Ok (fmean, fvar) /\
      shape fmean = [N; P] /\
      forall n p, n < N -> p < P ->
        data fmean [n; p]
        = tf.big_sum M (fun m => tf.big_sum L (fun l =>
            smul (interdomain_projection Kmn Kmm M l m n p)
                 (data f [m; l]))).
Proof.
  intros Kmn Kmm Knn f M L N P full_cov full_output_cov q_sqrt
    HKmn HKmm Hf HKnn Hq.
  destruct (interdomain_whitened_shapes Kmn Kmm Knn f M L N P
              full_cov full_output_cov q_sqrt HKmn HKmm Hf HKnn Hq)
    as (m & v & E & Hsm & _).
  destruct (interdomain_whitened_marginal_elements Kmn Kmm
              (mkT [N; P] (fun _ => s0)) f M L N P None
              HKmn HKmm Hf eq_refl I)
    as (m0 & v0 & E0 & _ & _ & Hd).
  assert (m0 = m)
    by exact (interdomain_mean_independent _ _ _ _ _ _ _ _ _ _ _ _ _ _ _ _
                E0 E).
  subst m0.
  exists m, v. split; [exact E|]. split; [exact Hsm|].
  intros n p Hn Hp. apply (Hd n p Hn Hp).
Qed.

(** X22.  The marginal variances of the whitened
    [independent_interdomain_conditional] (both covariance flags off):
    [fvar[n, p] = Knn[n, p] - sum_l sum_m A[l, m, n, p]^2], plus, when
    [q_sqrt] is given, [sum_l sum_c LTA[l, c, n, p]^2] with [LTA] the
    product of [A] with the lower triangle of [q_sqrt[l]] (L x M x M) or [A]
    scaled by [q_sqrt[c, l]] (M x L). *)
Theorem X22_interdomain_whitened_marginal_variance_elements :
  forall (Kmn Kmm Knn f : tensor F) M L N P q_sqrt,
    shape Kmn = [M; L; N; P] ->
    shape Kmm = [L; M; M] ->
    shape f = [M; L] ->
    shape Knn = [N; P] ->
    match q_sqrt with
    | None => True
    | Some q => shape q = [L; M; M] \/ shape q = [M; L]
    end ->
    exists fmean fvar,
      independent_interdomain_conditional Kmn Kmm Knn f
        false false q_sqrt true = Ok (fmean, fvar) /\
      shape fvar = [N; P] /\
      forall n p, n < N -> p < P ->
        data fvar [n; p]
        = let V :=
            ssub (data Knn [n; p])
                 (tf.big_sum L (fun l => tf.big_sum M (fun m =>
                    smul (interdomain_projection Kmn Kmm M l m n p)
                         (interdomain_projection Kmn Kmm M l m n p)))) in
          match q_sqrt with
          | None => V
          | Some q =>
              sadd V (tf.big_sum L (fun l => tf.big_sum M (fun c =>
                        smul (interdomain_lta Kmn Kmm q M l c n p)
                             (interdomain_lta Kmn Kmm q M l c n p))))
          end.
Proof.
  intros Kmn Kmm Knn f M L N P q_sqrt HKmn HKmm Hf HKnn Hq.
  destruct (interdomain_whitened_marginal_elements Kmn Kmm Knn f M L N P
              q_sqrt HKmn HKmm Hf HKnn Hq)
    as (m & v & E & _ & Hsv & Hd).
  exists m, v. split; [exact E|]. split; [exact Hsv|].
  intros n p Hn Hp. apply (Hd n p Hn Hp).
Qed.

(** X23.  The mean of the whitened [fully_correlated_conditional_repeat]
    (rank-3 [q_sqrt], at least one covariance flag on): [fmean[r, n, p]] is
    the sum over [c] of [f[c, r] * A[c, n, p]], where column [A[:, n, p]]
    solves the Cholesky factor of [Kmm] against [Kmn[:, n, p]]. *)
Theorem X23_fully_correlated_repeat_mean_elements :
  forall (Kmn Kmm Knn f q : tensor F) M N K R full_cov full_output_cov,
    shape Kmn = [M; N; K] ->
    shape Kmm = [M; M] ->
    shape f = [M; R] ->
    shape q = [R; M; M] ->
    full_cov || full_output_cov = true ->
    shape Knn = variance_shape full_cov full_output_cov N K ->
    exists fmean fvar,
      fully_correlated_conditional_repeat Kmn Kmm Knn f
        full_cov full_output_cov (Some q) true = Ok (fmean, fvar) /\
      shape fmean = [R; N; K] /\
      forall r n k, r < R -> n < N -> k < K ->
        data fmean [r; n; k]
        = tf.big_sum M (fun c =>
            smul (data f [c; r])
                 (fully_correlated_projection Kmn Kmm M c n k)).
Proof.
  intros Kmn Kmm Knn f q M N K R full_cov full_output_cov
    HKmn HKmm Hf Hq Hflags HKnn.
  destruct (fully_correlated_repeat_whitened_shapes Kmn Kmm Knn f q M N K R
              full_cov full_output_cov HKmn HKmm Hf Hq Hflags HKnn)
    as (m & v & E & Hsm & _ & Hd).
  exists m, v. auto.
Qed.

End MultiOutputElements.

(** ** On the example inputs *)

Lemma X21_interdomain_mean_witness :
  exists fmean fvar,
    independent_interdomain_conditional Ex.Kmn_MLNP Ex.Kmm_L Ex.Knn_PNN Ex.f1
      true false (Some Ex.q_tril) true = Ok (fmean, fvar) /\
    shape fmean = [3; 1] /\
    forall n p, n < 3 -> p < 1 ->
      data fmean [n; p]
      = tf.big_sum 2 (fun m => tf.big_sum 1 (fun l =>
          smul (interdomain_projection Ex.Kmn_MLNP Ex.Kmm_L 2 l m n p)
               (data Ex.f1 [m; l]))).
Proof.
  exact (X21_interdomain_whitened_mean_elements
           Ex.Kmn_MLNP Ex.Kmm_L Ex.Knn_PNN Ex.f1 2 1 3 1 true false
           (Some Ex.q_tril) eq_refl eq_refl eq_refl eq_refl
           (or_introl eq_refl)).
Defined.

Lemma X22_interdomain_marginal_variance_witness :
  exists fmean fvar,
    independent_interdomain_conditional Ex.Kmn_MLNP Ex.Kmm_L Ex.Knn_NP Ex.f1
      false false (Some Ex.q_diag) true = Ok (fmean, fvar) /\
    shape fvar = [3; 1] /\
    forall n p, n < 3 -> p < 1 ->
      data fvar [n; p]
      = sadd
          (ssub (data Ex.Knn_NP [n; p])
                (tf.big_sum 1 (fun l => tf.big_sum 2 (fun m =>
                   smul (interdomain_projection Ex.Kmn_MLNP Ex.Kmm_L 2 l m n p)
                        (interdomain_projection Ex.Kmn_MLNP Ex.Kmm_L 2
                           l m n p)))))
          (tf.big_sum 1 (fun l => tf.big_sum 2 (fun c =>
             smul (interdomain_lta Ex.Kmn_MLNP Ex.Kmm_L Ex.q_diag 2 l c n p)
                  (interdomain_lta Ex.Kmn_MLNP Ex.Kmm_L Ex.q_diag 2
                     l c n p)))).
Proof.
  exact (X22_interdomain_whitened_marginal_variance_elements
           Ex.Kmn_MLNP Ex.Kmm_L Ex.Knn_NP Ex.f1 2 1 3 1 (Some Ex.q_diag)
           eq_refl eq_refl eq_refl eq_refl (or_intror eq_refl)).
Defined.

Lemma X23_fully_correlated_mean_witness :
  exists fmean fvar,
    fully_correlated_conditional_repeat Ex.Kmn_fc Ex.Kmm (Ex.ones [3; 2; 2])
      Ex.f2 false true (Some Ex.q_sqrt_R2) true = Ok (fmean, fvar) /\
    shape fmean = [2; 3; 2] /\
    forall r n k, r < 2 -> n < 3 -> k < 2 ->
      data fmean [r; n; k]
      = tf.big_sum 2 (fun c =>
          smul (data Ex.f2 [c; r])
               (fully_correlated_projection Ex.Kmn_fc Ex.Kmm 2 c n k)).
Proof.
  exact (X23_fully_correlated_repeat_mean_elements
           Ex.Kmn_fc Ex.Kmm (Ex.ones [3; 2; 2]) Ex.f2 Ex.q_sqrt_R2 2 3 2 2
           false true eq_refl eq_refl eq_refl eq_refl eq_refl eq_refl).
Defined.

Lemma X24_fully_correlated_variance_witness :
  exists fmean fvar,
    fully_correlated_conditional_repeat Ex.Kmn_fc Ex.Kmm (Ex.ones [2; 3; 3])
      Ex.f2 true false (Some Ex.q_sqrt_R2) true = Ok (fmean, fvar) /\
    forall r k i j, r < 2 -> k < 2 -> i < 3 -> j < 3 ->
      data fvar [r; k; i; j]
      = fully_correlated_cov Ex.Kmn_fc Ex.Kmm Ex.q_sqrt_R2 2 r
          (data (Ex.ones [2; 3; 3]) [k; i; j]) i k j k.
Proof.
  exact (X24_fully_correlated_repeat_variance_elements
           Ex.Kmn_fc Ex.Kmm (Ex.ones [2; 3; 3]) Ex.f2 Ex.q_sqrt_R2 2 3 2 2
           true false eq_refl eq_refl eq_refl eq_refl eq_refl eq_refl).
Defined.

Lemma X25_interdomain_covariance_witness :
  exists fmean fvar,
    independent_interdomain_conditional Ex.Kmn_MLNP Ex.Kmm_L Ex.Knn_PNN Ex.f1
      true false (Some Ex.q_tril) true = Ok (fmean, fvar) /\
    forall p i j, p < 1 -> i < 3 -> j < 3 ->
      data fvar [p; i; j]
      = interdomain_cov Ex.Kmn_MLNP Ex.Kmm_L (Some Ex.q_tril) 2 1 false
          (data Ex.Knn_PNN [p; i; j]) i p j p.
Proof.
  exact (X25_interdomain_whitened_covariance_elements
           Ex.Kmn_MLNP Ex.Kmm_L Ex.Knn_PNN Ex.f1 2 1 3 1 true false
           (Some Ex.q_tril) eq_refl eq_refl eq_refl eq_refl eq_refl
           (or_introl eq_refl)).
Defined.

(** * [expand_independent_outputs]: which inputs it accepts *)

Section ExpandAccepts.
Context {F : Type} {SF : Scalar F}.

Lemma is_perm_rev_seq : forall n, is_perm n (rev (seq 0 n)) = true.
Proof.
  intros n. unfold is_perm.
  rewrite length_rev, length_seq, Nat.eqb_refl. cbn [andb].
  apply forallb_forall. intros k Hk.
  apply existsb_eqb_in. apply in_rev. rewrite rev_involutive. exact Hk.
Qed.

Lemma transpose_all_ok : forall a : tensor F,
  tf.transpose_all a
  = Ok (mkT (map (fun p => nth p (shape a) 0) (rev (seq 0 (rank a))))
            (fun idx => data a (assemble (seq 0 (rank a))
                                  (rev (seq 0 (rank a))) idx []))).
Proof.
  intros a. unfold tf.transpose_all. apply transpose_ok. apply is_perm_rev_seq.
Qed.

(** X20.  The inputs [expand_independent_outputs] accepts.  Without
    [full_output_cov] every tensor is returned; with it and [full_cov] the
    input must have rank 3 (P x N x N), and with it alone any rank but 0:
    on every other input the routine raises. *)
Theorem X20_expand_independent_outputs_accepts :
  forall (fvar : tensor F) full_cov full_output_cov,
    is_ok (expand_independent_outputs fvar full_cov full_output_cov)
    = if full_output_cov
      then if full_cov then rank fvar =? 3 else negb (rank fvar =? 0)
      else true.
Proof.
  intros fvar [|] [|]; unfold expand_independent_outputs; cbn [andb negb bind];
    try reflexivity.
  - rewrite transpose_all_ok. cbn [bind].
    unfold tf.diag, rank. cbn [shape].
    rewrite length_map, length_rev, length_seq.
    destruct (length (shape fvar)) as [|n] eqn:Hl; [reflexivity|].
    cbn [bind]. unfold tf.transpose, rank. cbn [shape].
    rewrite length_app, length_map, length_rev, length_seq, Nat.add_1_r.
    destruct n as [|[|[|n]]]; reflexivity.
  - unfold tf.diag, rank.
    destruct (length (shape fvar)); reflexivity.
Qed.

End ExpandAccepts.
